(** * Token-tag alignment for BERT tagging: a model of
      [get_aligned_tokens_and_tags] and of the BPE vocabulary construction

    The notebook defines one function, [get_aligned_tokens_and_tags], which
    turns word-tokenised sentences with one tag per word into BERT sub-word
    token rows with aligned tags and masks, padded to a rectangle.  This file
    embeds that function twice:

    - [Aligner]: the function over immutable lists, loops written as folds
      that follow the source statement by statement;
    - [Heap]: the same statements over a store of mutable Python lists, used
      for the question of which objects the function writes to.

    The byte pair encoding procedure is only narrated by the notebook; it is
    modelled in [BPE].

    The cells around the function, and those of the recurrent-network
    notebook, are embedded after it: [Py] and [Tagging] (tags as indexes
    into a tag set, and back), [Masking] (masked positions and the
    pseudo-log-likelihood loop), [Vocab] and [Sentiment] (vocabularies,
    indexed and padded texts) and [Rnn] (the forward passes of the two
    recurrent models over external layers). *)

From Stdlib Require Import ZArith Lia Ascii String.
From stdpp Require Import base list gmap strings numbers sorting.

Local Open Scope Z_scope.

(** ** Python values common to both models *)

(** The exceptions the modelled statements can raise. *)
Inductive exn : Type :=
| ValueError   (* [max()] of an empty iterable; ragged rows given to [torch.tensor] *)
| TypeError    (* an operation applied to an object of the wrong kind *)
| IndexError.  (* [l[i]] with [i] out of range *)

Inductive result (A : Type) : Type :=
| Ok (a : A)
| Raise (e : exn).
Arguments Ok {A} a.
Arguments Raise {A} e.

(** The pretrained tokeniser is external: [input_ids w] stands for
    [tokeniser(w)['input_ids']], the three ids for the attributes
    [cls_token_id], [sep_token_id] and [pad_token_id]. *)
Record Tokeniser : Type := {
  input_ids : string -> list Z;
  cls_token_id : Z;
  sep_token_id : Z;
  pad_token_id : Z
}.

(** [l[1:-1]]: drop the first and the last element; empty when [l] has two
    elements or fewer. *)
Definition slice_1_m1 {A} (l : list A) : list A := removelast (tail l).

(** [enumerate(l)] *)
Definition enumerate {A} (l : list A) : list (nat * A) := imap pair l.

(** [max(...)] over a generator of lengths: raises on the empty sequence. *)
Definition py_max (ns : list nat) : result nat :=
  match ns with
  | [] => Raise ValueError
  | n :: ns' => Ok (foldl Nat.max n ns')
  end.

(** [torch.tensor(rows, ...)] on a list of lists: the rows must form a
    rectangle, otherwise the constructor raises.  Ids and tags are the
    integers the [int64] dtype holds. *)
Definition rectangular {A} (rows : list (list A)) : bool :=
  match rows with
  | [] => true
  | r :: rs => forallb (fun r' => Nat.eqb (length r') (length r)) rs
  end.

Definition torch_tensor {A} (rows : list (list A)) : result (list (list A)) :=
  if rectangular rows then Ok rows else Raise ValueError.

(** [dtype=torch.bool] applied to integer entries: non-zero is [True]. *)
Definition to_bool (z : Z) : bool := negb (z =? 0).

Module Aligner.

Section WithTokeniser.

Variable tokeniser : Tokeniser.
Variable no_tag : Z.

(** The three lists built for one sentence (source lines 596-614). *)
Record sentence : Type := {
  indexes : list Z;
  tag_mask : list bool;
  aligned_tags : list Z
}.

(** Body of the innermost loop: one sub-word token [index] at position [i]
    of its word. *)
Definition subword_step (tag : Z) (s : sentence) (ii : nat * Z) : sentence :=
  let '(i, index) := ii in
  let indexes' := indexes s ++ [index] in
  if Nat.eqb i 0
  then {| indexes := indexes';
          tag_mask := tag_mask s ++ [true];
          aligned_tags := aligned_tags s ++ [tag] |}
  else {| indexes := indexes';
          tag_mask := tag_mask s ++ [false];
          aligned_tags := aligned_tags s ++ [no_tag] |}.

(** Body of [for (tag, word) in zip(tags, tokens)]. *)
Definition word_step (s : sentence) (tw : Z * string) : sentence :=
  let '(tag, word) := tw in
  foldl (subword_step tag) s (enumerate (slice_1_m1 (input_ids tokeniser word))).

(** Body of [for (tokens, tags) in zip(text_tokens, text_tags)], up to the
    three [append]s onto the batch lists. *)
Definition align_sentence (tokens : list string) (tags : list Z) : sentence :=
  let s0 := {| indexes := [cls_token_id tokeniser];
               tag_mask := [false];
               aligned_tags := [no_tag] |} in
  let s1 := foldl word_step s0 (zip tags tokens) in
  {| indexes := indexes s1 ++ [sep_token_id tokeniser];
     tag_mask := tag_mask s1 ++ [false];
     aligned_tags := aligned_tags s1 ++ [no_tag] |}.

(** The batch lists [text_indexes], [text_aligned_tags], [text_tag_masks]
    and, from the padding loop on, [text_token_masks]. *)
Record batch : Type := {
  text_indexes : list (list Z);
  text_aligned_tags : list (list Z);
  text_tag_masks : list (list bool);
  text_token_masks : list (list Z)
}.

Definition sentence_step (b : batch) (tt : list string * list Z) : batch :=
  let '(tokens, tags) := tt in
  let s := align_sentence tokens tags in
  {| text_indexes := text_indexes b ++ [indexes s];
     text_aligned_tags := text_aligned_tags b ++ [aligned_tags s];
     text_tag_masks := text_tag_masks b ++ [tag_mask s];
     text_token_masks := text_token_masks b |}.

(** First loop (source lines 588-619). *)
Definition align_batch (text_tokens : list (list string))
    (text_tags : list (list Z)) : batch :=
  foldl sentence_step
    {| text_indexes := []; text_aligned_tags := [];
       text_tag_masks := []; text_token_masks := [] |}
    (zip text_tokens text_tags).

(** Body of the padding loop (source lines 625-629): row [i] of each of the
    three lists is extended in place, a new row is appended to
    [text_token_masks]. *)
Definition pad_step (max_len : nat) (b : batch)
    (it : nat * (list Z * list bool * list Z)) : batch :=
  let '(i, (indexes, _, _)) := it in
  let num_tokens := length indexes in
  {| text_token_masks :=
       text_token_masks b ++
         [replicate num_tokens 1 ++ replicate (max_len - num_tokens) 0];
     text_indexes :=
       alter (fun r => r ++ replicate (max_len - num_tokens) (pad_token_id tokeniser))
             i (text_indexes b);
     text_tag_masks :=
       alter (fun r => r ++ replicate (max_len - num_tokens) false)
             i (text_tag_masks b);
     text_aligned_tags :=
       alter (fun r => r ++ replicate (max_len - num_tokens) no_tag)
             i (text_aligned_tags b) |}.

(** [zip(a, b, c)] *)
Definition zip3 {A B C} (a : list A) (b : list B) (c : list C) : list (A * B * C) :=
  zip (zip a b) c.

(** Second loop (source lines 621-629). *)
Definition pad_batch (b : batch) : result batch :=
  match py_max (map length (text_indexes b)) with
  | Raise e => Raise e
  | Ok max_len =>
      Ok (foldl (pad_step max_len) b
            (enumerate (zip3 (text_indexes b) (text_tag_masks b) (text_aligned_tags b))))
  end.

(** The four tensors returned, in the order of the [return] statement:
    token indexes, token mask, aligned tags, tag mask. *)
Definition tensors : Type :=
  (list (list Z) * list (list bool) * list (list Z) * list (list bool))%type.

Definition to_tensors (b : batch) : result tensors :=
  match torch_tensor (text_indexes b) with
  | Raise e => Raise e
  | Ok t_indexes =>
    match torch_tensor (text_token_masks b) with
    | Raise e => Raise e
    | Ok t_token_masks =>
      match torch_tensor (text_aligned_tags b) with
      | Raise e => Raise e
      | Ok t_aligned_tags =>
        match torch_tensor (text_tag_masks b) with
        | Raise e => Raise e
        | Ok t_tag_masks =>
            Ok (t_indexes, map (map to_bool) t_token_masks,
                t_aligned_tags, t_tag_masks)
        end
      end
    end
  end.

Definition get_aligned_tokens_and_tags (text_tokens : list (list string))
    (text_tags : list (list Z)) : result tensors :=
  match pad_batch (align_batch text_tokens text_tags) with
  | Raise e => Raise e
  | Ok b => to_tensors b
  end.

(** *** Descriptions used in the statements *)

(** The sub-word ids of a word: the tokeniser's ids for the word alone,
    without the two markers that surround them. *)
Definition subwords (word : string) : list Z :=
  slice_1_m1 (input_ids tokeniser word).

(** [n] entries of which the first is [x] and the others are [y]. *)
Definition first_then {A} (x y : A) (n : nat) : list A :=
  match n with
  | O => []
  | S k => x :: replicate k y
  end.

(** What one (tag, word) pair contributes to each of the three lists. *)
Definition word_indexes (tw : Z * string) : list Z := subwords tw.2.
Definition word_tag_mask (tw : Z * string) : list bool :=
  first_then true false (length (subwords tw.2)).
Definition word_aligned_tags (tw : Z * string) : list Z :=
  first_then tw.1 no_tag (length (subwords tw.2)).

(** Number of [True] entries of a mask. *)
Definition count_true (mask : list bool) : nat := length (filter (fun b => b = true) mask).

(** The aligned sentences of a batch, in order, before padding. *)
Definition aligned_sentences (text_tokens : list (list string))
    (text_tags : list (list Z)) : list sentence :=
  (fun tt => align_sentence tt.1 tt.2) <$> zip text_tokens text_tags.

(** The largest aligned length of the batch, before padding. *)
Definition batch_max_len (text_tokens : list (list string))
    (text_tags : list (list Z)) : nat :=
  max_list ((fun s => length (indexes s)) <$> aligned_sentences text_tokens text_tags).

(** A row of a sentence of [n] tokens, right-padded with [x] up to [m]. *)
Definition pad_to {A} (m n : nat) (x : A) (row : list A) : list A :=
  row ++ replicate (m - n) x.

(** The four rows returned for an aligned sentence [s] of a batch whose
    largest aligned length is [m]. *)
Definition padded_indexes (m : nat) (s : sentence) : list Z :=
  pad_to m (length (indexes s)) (pad_token_id tokeniser) (indexes s).
Definition padded_token_mask (m : nat) (s : sentence) : list bool :=
  replicate (length (indexes s)) true ++ replicate (m - length (indexes s)) false.
Definition padded_aligned_tags (m : nat) (s : sentence) : list Z :=
  pad_to m (length (indexes s)) no_tag (aligned_tags s).
Definition padded_tag_mask (m : nat) (s : sentence) : list bool :=
  pad_to m (length (indexes s)) false (tag_mask s).

(** The result of the function in terms of the aligned sentences. *)
Definition padded_output (ss : list sentence) : result tensors :=
  match ss with
  | [] => Raise ValueError
  | _ :: _ =>
      let m := max_list ((fun s => length (indexes s)) <$> ss) in
      Ok (padded_indexes m <$> ss, padded_token_mask m <$> ss,
          padded_aligned_tags m <$> ss, padded_tag_mask m <$> ss)
  end.


End WithTokeniser.

Arguments indexes : clear implicits.
Arguments tag_mask : clear implicits.
Arguments aligned_tags : clear implicits.

End Aligner.

(** ** A concrete tokeniser

    The ids [bert-base-cased] gives to the words of the notebook's example
    sentences.  The empty word has no sub-word and comes back as the two
    markers alone; any other word is given the unknown-token id. *)
Module Demo.

Definition ids (word : string) : list Z :=
  if String.eqb word "I" then [101; 146; 102]
  else if String.eqb word "don't" then [101; 1274; 112; 189; 102]
  else if String.eqb word "like" then [101; 1176; 102]
  else if String.eqb word "hate" then [101; 4819; 102]
  else if String.eqb word "it" then [101; 1122; 102]
  else if String.eqb word "." then [101; 119; 102]
  else if String.eqb word EmptyString then [101; 102]
  else [101; 100; 102].

Definition tokeniser : Tokeniser :=
  {| input_ids := ids; cls_token_id := 101; sep_token_id := 102; pad_token_id := 0 |}.

(** [tag_set = ['PAD', 'PRON', 'VERB', 'ADP', 'PROP', '.']] *)
Definition PAD : Z := 0.
Definition PRON : Z := 1.
Definition VERB : Z := 2.
Definition ADP : Z := 3.
Definition PROP : Z := 4.
Definition DOT : Z := 5.

End Demo.

(** ** The function over a store of mutable lists

    Python lists are objects: [append] and [extend] change the object in
    place and every name bound to it sees the change.  Here a list is a
    location of a store, a value is an integer, a boolean, a string or a
    reference to a list, and the function is written statement by statement
    in a state-and-exception monad.  An object of another kind than a
    statement expects ends the run with [TypeError]. *)
Module Heap.

Abbreviation loc := positive.

Inductive value : Type :=
| VInt (z : Z)
| VBool (b : bool)
| VStr (s : string)
| VList (l : loc).

Abbreviation heap := (gmap loc (list value)).

(** A computation: from a store to a result or an exception, and the store
    it leaves behind in both cases. *)
Definition M (A : Type) : Type := heap -> result A * heap.

Definition ret {A} (a : A) : M A := fun h => (Ok a, h).

Definition raise {A} (e : exn) : M A := fun h => (Raise e, h).

Definition bind {A B} (m : M A) (f : A -> M B) : M B :=
  fun h =>
    match m h with
    | (Ok a, h') => f a h'
    | (Raise e, h') => (Raise e, h')
    end.

#[global] Instance M_ret : MRet M := @ret.
#[global] Instance M_bind : MBind M := fun A B f m => bind m f.

Definition lift {A} (r : result A) : M A :=
  match r with
  | Ok a => ret a
  | Raise e => raise e
  end.

(** [for x in xs: body(x)] over the items [xs] the loop runs through. *)
Fixpoint for_each {A} (xs : list A) (body : A -> M unit) : M unit :=
  match xs with
  | [] => ret tt
  | x :: xs' => body x ;; for_each xs' body
  end.

(** [[f(x) for x in xs]] *)
Fixpoint map_m {A B} (f : A -> M B) (xs : list A) : M (list B) :=
  match xs with
  | [] => ret []
  | x :: xs' => y ← f x; ys ← map_m f xs'; ret (y :: ys)
  end.

(** A new list object holding [vs]. *)
Definition new_list (vs : list value) : M loc :=
  fun h => let l := fresh (dom h) in (Ok l, <[l := vs]> h).

(** The items of the list object at [l]. *)
Definition read (l : loc) : M (list value) :=
  fun h =>
    match h !! l with
    | Some vs => (Ok vs, h)
    | None => (Raise TypeError, h)
    end.

(** [l.extend(vs)] *)
Definition extend (l : loc) (vs : list value) : M unit :=
  fun h =>
    match h !! l with
    | Some old => (Ok tt, <[l := old ++ vs]> h)
    | None => (Raise TypeError, h)
    end.

(** [l.append(v)] *)
Definition append (l : loc) (v : value) : M unit := extend l [v].

Definition as_list (v : value) : M loc :=
  match v with
  | VList l => ret l
  | _ => raise TypeError
  end.

(** The items a [for] or a [zip] runs through when given [v]. *)
Definition items (v : value) : M (list value) := l ← as_list v; read l.

(** [len(v)] *)
Definition len (v : value) : M nat := vs ← items v; ret (length vs).

(** [l[i]] *)
Definition index (l : loc) (i : nat) : M value :=
  vs ← read l;
  match vs !! i with
  | Some v => ret v
  | None => raise IndexError
  end.

(** [v.extend(vs)] on a value *)
Definition extend_value (v : value) (vs : list value) : M unit :=
  l ← as_list v; extend l vs.

(** [torch.tensor(rows, dtype=torch.int64)] and
    [torch.tensor(rows, dtype=torch.bool)]: the list of lists at [l] is
    copied into a tensor. *)
Definition as_int (v : value) : M Z :=
  match v with
  | VInt z => ret z
  | VBool b => ret (if b then 1 else 0)
  | _ => raise TypeError
  end.

Definition as_bool (v : value) : M bool :=
  match v with
  | VInt z => ret (to_bool z)
  | VBool b => ret b
  | _ => raise TypeError
  end.

Definition tensor_of {A} (entry : value -> M A) (l : loc) : M (list (list A)) :=
  rows ← read l;
  t ← map_m (fun row => vs ← items row; map_m entry vs) rows;
  lift (torch_tensor t).

Section WithTokeniser.

Variable tokeniser : Tokeniser.

(** [tokeniser(word)['input_ids']] *)
Definition tokenise (word : value) : M (list Z) :=
  match word with
  | VStr w => ret (input_ids tokeniser w)
  | _ => raise TypeError
  end.

(** Source lines 602-609. *)
Definition subword_body (indexes tag_mask aligned_tags : loc) (tag no_tag : value)
    (ii : nat * Z) : M unit :=
  let '(i, index) := ii in
  append indexes (VInt index) ;;
  if Nat.eqb i 0
  then append tag_mask (VBool true) ;; append aligned_tags tag
  else append tag_mask (VBool false) ;; append aligned_tags no_tag.

(** Source lines 601-609. *)
Definition word_body (indexes tag_mask aligned_tags : loc) (no_tag : value)
    (tw : value * value) : M unit :=
  let '(tag, word) := tw in
  ids ← tokenise word;
  for_each (enumerate (slice_1_m1 ids))
           (subword_body indexes tag_mask aligned_tags tag no_tag).

(** Source lines 592-619. *)
Definition sentence_body (text_indexes text_aligned_tags text_tag_masks : loc)
    (no_tag : value) (tt : value * value) : M unit :=
  let '(tokens, tags) := tt in
  indexes ← new_list [VInt (cls_token_id tokeniser)];
  tag_mask ← new_list [VBool false];
  aligned_tags ← new_list [no_tag];
  tag_items ← items tags;
  word_items ← items tokens;
  for_each (zip tag_items word_items) (word_body indexes tag_mask aligned_tags no_tag) ;;
  append indexes (VInt (sep_token_id tokeniser)) ;;
  append tag_mask (VBool false) ;;
  append aligned_tags no_tag ;;
  append text_indexes (VList indexes) ;;
  append text_aligned_tags (VList aligned_tags) ;;
  append text_tag_masks (VList tag_mask).

(** Source lines 624-629. *)
Definition pad_body (text_indexes text_aligned_tags text_tag_masks text_token_masks : loc)
    (no_tag : value) (max_len : nat) (it : nat * (value * value * value)) : M unit :=
  let '(i, (indexes, _, _)) := it in
  num_tokens ← len indexes;
  row ← new_list (replicate num_tokens (VInt 1) ++ replicate (max_len - num_tokens) (VInt 0));
  append text_token_masks (VList row) ;;
  r ← index text_indexes i;
  extend_value r (replicate (max_len - num_tokens) (VInt (pad_token_id tokeniser))) ;;
  r ← index text_tag_masks i;
  extend_value r (replicate (max_len - num_tokens) (VBool false)) ;;
  r ← index text_aligned_tags i;
  extend_value r (replicate (max_len - num_tokens) no_tag).

(** Source lines 621-636, given the three lists the first loop has filled. *)
Definition pad_and_return (text_indexes text_aligned_tags text_tag_masks : loc)
    (no_tag : value) : M Aligner.tensors :=
  rows ← read text_indexes;
  lens ← map_m len rows;
  max_len ← lift (py_max lens);
  text_token_masks ← new_list [];
  rows_i ← read text_indexes;
  rows_m ← read text_tag_masks;
  rows_t ← read text_aligned_tags;
  for_each (enumerate (Aligner.zip3 rows_i rows_m rows_t))
           (pad_body text_indexes text_aligned_tags text_tag_masks text_token_masks
                     no_tag max_len) ;;
  t_indexes ← tensor_of as_int text_indexes;
  t_token_masks ← tensor_of as_bool text_token_masks;
  t_aligned_tags ← tensor_of as_int text_aligned_tags;
  t_tag_masks ← tensor_of as_bool text_tag_masks;
  ret (t_indexes, t_token_masks, t_aligned_tags, t_tag_masks).

(** Source lines 592-636, given the three empty lists of lines 588-590. *)
Definition loops (text_indexes text_aligned_tags text_tag_masks : loc)
    (text_tokens text_tags no_tag : value) : M Aligner.tensors :=
  sentences ← items text_tokens;
  sentence_tags ← items text_tags;
  for_each (zip sentences sentence_tags)
           (sentence_body text_indexes text_aligned_tags text_tag_masks no_tag) ;;
  pad_and_return text_indexes text_aligned_tags text_tag_masks no_tag.

Definition get_aligned_tokens_and_tags (text_tokens text_tags no_tag : value)
    : M Aligner.tensors :=
  text_indexes ← new_list [];
  text_aligned_tags ← new_list [];
  text_tag_masks ← new_list [];
  loops text_indexes text_aligned_tags text_tag_masks text_tokens text_tags no_tag.

End WithTokeniser.

(** *** Which objects a run may write to

    [h0] is the store at the time of the call and [created] the batch lists
    the call has made since.  A location is scratch when it is neither in
    [h0] nor one of the batch lists; the batch lists only ever hold
    references to scratch lists. *)
Section Frame.

Variable h0 : heap.
Variable created : gset loc.

Definition scratch (l : loc) : Prop := h0 !! l = None /\ l ∉ created.

Definition own (v : value) : Prop := exists l, v = VList l /\ scratch l.

Definition good (h : heap) : Prop :=
  h0 ⊆ h /\
  forall l, l ∈ created ->
    h0 !! l = None /\ exists vs, h !! l = Some vs /\ Forall own vs.

(** The postcondition that asks for nothing. *)
Definition any {A} : A -> Prop := fun _ => True.

(** [c] keeps the store good, and what it returns satisfies [post]. *)
Definition safe {A} (c : M A) (post : A -> Prop) : Prop :=
  forall h, good h -> good (c h).2 /\ forall a, (c h).1 = Ok a -> post a.

End Frame.

(** *** Stores that hold a batch

    [runs c h a h'] says that [c] started in [h] returns [a] and leaves
    [h']; the [holds_] predicates say which list a location holds, and
    [filling] and [padding] are what the first and the second loop keep
    true of the store and of the lists of [Aligner] they stand for. *)
Definition runs {A} (c : M A) (h : heap) (a : A) (h' : heap) : Prop := c h = (Ok a, h').

Definition same_outside (written : list loc) (h h' : heap) : Prop :=
  forall l, l ∉ written -> h' !! l = h !! l.

Definition holds_ints (h : heap) (l : loc) (zs : list Z) : Prop := h !! l = Some (VInt <$> zs).
Definition holds_bools (h : heap) (l : loc) (bs : list bool) : Prop := h !! l = Some (VBool <$> bs).
Definition holds_words (h : heap) (l : loc) (ws : list string) : Prop := h !! l = Some (VStr <$> ws).
Definition holds_lists (h : heap) (l : loc) (ls : list loc) : Prop := h !! l = Some (VList <$> ls).

Definition holds_sentence (h : heap) (i m a : loc) (s : Aligner.sentence) : Prop :=
  holds_ints h i (Aligner.indexes s) /\ holds_bools h m (Aligner.tag_mask s)
  /\ holds_ints h a (Aligner.aligned_tags s).

Definition holds_batch (h : heap) (text_tokens text_tags : value)
    (tt : list (list string)) (tg : list (list Z)) : Prop :=
  exists lt lg tl gl,
    text_tokens = VList lt /\ text_tags = VList lg
    /\ holds_lists h lt tl /\ holds_lists h lg gl
    /\ Forall2 (holds_words h) tl tt /\ Forall2 (holds_ints h) gl tg.
Definition rows_hold {A} (enc : A -> value) (h : heap) (ls : list loc)
    (rows : list (list A)) : Prop :=
  Forall2 (fun l r => h !! l = Some (enc <$> r)) ls rows.

Definition batch_at (h : heap) (ti ta tm : loc) (il al ml : list loc)
    (b : Aligner.batch) : Prop :=
  holds_lists h ti il /\ holds_lists h ta al /\ holds_lists h tm ml
  /\ rows_hold VInt h il (Aligner.text_indexes b)
  /\ rows_hold VInt h al (Aligner.text_aligned_tags b)
  /\ rows_hold VBool h ml (Aligner.text_tag_masks b).

Definition filling (h0 : heap) (ti ta tm : loc) (b : Aligner.batch) (h : heap) : Prop :=
  h0 ⊆ h /\ Aligner.text_token_masks b = []
  /\ exists il al ml,
       batch_at h ti ta tm il al ml b
       /\ NoDup (ti :: ta :: tm :: il ++ al ++ ml)
       /\ Forall (fun l => h0 !! l = None) (ti :: ta :: tm :: il ++ al ++ ml).
Definition padding (h0 : heap) (ti ta tm tk : loc) (il al ml : list loc)
    (rows0 : list (list Z)) (k : nat) (b : Aligner.batch) (h : heap) : Prop :=
  h0 ⊆ h /\ batch_at h ti ta tm il al ml b
  /\ drop k (Aligner.text_indexes b) = drop k rows0
  /\ exists kl,
       holds_lists h tk kl /\ rows_hold VInt h kl (Aligner.text_token_masks b)
       /\ NoDup ((ti :: ta :: tm :: tk :: il ++ al ++ ml) ++ kl)
       /\ Forall (fun l => h0 !! l = None) ((ti :: ta :: tm :: tk :: il ++ al ++ ml) ++ kl).

(** A store holding the notebook's example batch: the two sentences at
    locations 1 and 2, their tag lists at 3 and 4, the batch lists at 5
    (texts) and 6 (tags). *)
Definition demo_heap : heap :=
  <[6%positive := [VList 3%positive; VList 4%positive]]>
  (<[5%positive := [VList 1%positive; VList 2%positive]]>
  (<[4%positive := [VInt Demo.PRON; VInt Demo.VERB; VInt Demo.ADP; VInt Demo.PROP; VInt Demo.DOT]]>
  (<[3%positive := [VInt Demo.PRON; VInt Demo.VERB; VInt Demo.PROP; VInt Demo.DOT]]>
  (<[2%positive := [VStr "I"; VStr "don't"; VStr "like"; VStr "it"; VStr "."]]>
  (<[1%positive := [VStr "I"; VStr "like"; VStr "it"; VStr "."]]> ∅))))).

End Heap.

(** ** Byte pair encoding

    The notebook describes the construction of the vocabulary in prose only
    and uses the pretrained tokeniser's vocabulary; there is no code for
    it.  The definitions of this module follow the specification's
    description of the algorithm (section 4.1). *)
Module BPE.

(** Modelled from the spec: a vocabulary entry, a sub-word string marked as
    word-initial ([true]) or continuation ([false]); the construction
    itself is missing from the sources. *)
Abbreviation token := (bool * list ascii)%type.

(** Modelled from the spec: the merged token of a pair, the concatenation
    with the marking of the first element. *)
Definition merged (p q : token) : token := (p.1, p.2 ++ q.2).

(** Modelled from the spec: step 1, a word as its characters, the first
    marked word-initial and the others continuation. *)
Definition split_word (w : list ascii) : list token :=
  imap (fun i c => (Nat.eqb i 0, [c])) w.

(** Modelled from the spec: the adjacent pairs of a word, left to right;
    pairs never span two words. *)
Fixpoint pairs (w : list token) : list (token * token) :=
  match w with
  | [] => []
  | x :: rest =>
      match rest with
      | [] => []
      | y :: _ => (x, y) :: pairs rest
      end
  end.

(** Modelled from the spec: the adjacent pairs of the whole corpus, in
    word order. *)
Definition all_pairs (corpus : list (list token)) : list (token * token) :=
  concat (pairs <$> corpus).

(** Modelled from the spec: the frequency of a pair, the number of its
    occurrences among the adjacent pairs of the corpus. *)
Definition frequency (pr : token * token) (prs : list (token * token)) : nat :=
  length (filter (fun x => x = pr) prs).

(** Modelled from the spec: step 3, the pair of highest frequency; among
    pairs of equal frequency the one met first in the left-to-right scan of
    the corpus in word order. *)
Definition better (prs : list (token * token)) (best : option (token * token * nat))
    (pr : token * token) : option (token * token * nat) :=
  let n := frequency pr prs in
  match best with
  | None => Some (pr, n)
  | Some (_, m) => if decide (m < n)%nat then Some (pr, n) else best
  end.

(** Modelled from the spec: the selected pair with its frequency, [None]
    when the corpus has no adjacent pair. *)
Definition best_pair (corpus : list (list token)) : option (token * token * nat) :=
  foldl (better (all_pairs corpus)) None (all_pairs corpus).

(** Modelled from the spec: all occurrences of the pair in a word replaced
    by the merged token, scanning left to right. *)
Fixpoint replace_pair (p q : token) (w : list token) : list token :=
  match w with
  | [] => []
  | x :: rest =>
      match rest with
      | [] => [x]
      | y :: rest' =>
          if decide (x = p /\ y = q)
          then merged p q :: replace_pair p q rest'
          else x :: replace_pair p q rest
      end
  end.

(** Modelled from the spec: the construction state, the corpus as token
    sequences, the vocabulary, and the merges made so far in order. *)
Record state : Type := {
  corpus : list (list token);
  vocab : gset token;
  merges : list (token * token)
}.

(** Modelled from the spec: steps 1 and 2. *)
Definition init (words : list (list ascii)) : state :=
  let c := split_word <$> words in
  {| corpus := c; vocab := list_to_set (concat c); merges := [] |}.

(** Modelled from the spec: one merge step. *)
Definition merge_step (p q : token) (st : state) : state :=
  {| corpus := replace_pair p q <$> corpus st;
     vocab := {[merged p q]} ∪ vocab st;
     merges := merges st ++ [(p, q)] |}.

(** Modelled from the spec: step 4, the construction stops when the
    vocabulary has the target size or no pair occurs more than once;
    otherwise the next merge is that of the best pair. *)
Definition next_merge (target : nat) (st : state) : option (token * token) :=
  if decide (target <= size (vocab st))%nat then None
  else match best_pair (corpus st) with
       | Some (p, q, n) => if decide (2 <= n)%nat then Some (p, q) else None
       | None => None
       end.

(** Modelled from the spec: the states of the construction from [st] on,
    one per merge.  Every merge shortens the corpus, so [fuel] equal to the
    number of tokens of the corpus is never used up. *)
Fixpoint trace (fuel : nat) (target : nat) (st : state) : list state :=
  st ::
  match fuel with
  | O => []
  | S fuel' =>
      match next_merge target st with
      | Some (p, q) => trace fuel' target (merge_step p q st)
      | None => []
      end
  end.

(** Modelled from the spec: the size of the corpus, in tokens. *)
Definition tokens_left (st : state) : nat := length (concat (corpus st)).

(** Modelled from the spec: the states the vocabulary builder goes through
    on a corpus, from the character-level state on. *)
Definition construction (words : list (list ascii)) (target : nat) : list state :=
  trace (tokens_left (init words)) target (init words).

(** Modelled from the spec: the vocabulary builder returns the last state
    of the construction. *)
Definition build_vocabulary (words : list (list ascii)) (target : nat) : state :=
  List.last (construction words target) (init words).

(** *** Descriptions used in the statements *)

(** The characters of a token with their markings: the first has the
    token's marking, the others are continuation characters. *)
Definition chars_of (t : token) : list (bool * ascii) :=
  match t.2 with
  | [] => []
  | c :: cs => (t.1, c) :: ((fun c' => (false, c')) <$> cs)
  end.

Definition flat (seg : list token) : list (bool * ascii) :=
  concat (chars_of <$> seg).

(** A stretch of tokens: every token has characters and all but the first
    are continuation tokens. *)
Definition stretch (seg : list token) : Prop :=
  Forall (fun t => t.2 <> []) seg /\ Forall (fun t => t.1 = false) (tail seg).

Definition segment_of (seg w : list token) : Prop :=
  exists before after, w = before ++ seg ++ after.

(** What holds of every state of a construction. *)
Record invariant (st : state) : Prop := {
  inv_stretch : Forall stretch (corpus st);
  inv_canonical :
    forall w1 w2 seg1 seg2,
      w1 ∈ corpus st -> w2 ∈ corpus st ->
      segment_of seg1 w1 -> segment_of seg2 w2 ->
      flat seg1 = flat seg2 -> seg1 = seg2;
  inv_vocab :
    forall v w seg,
      v ∈ vocab st -> (2 <= length v.2)%nat ->
      w ∈ corpus st -> segment_of seg w -> (2 <= length seg)%nat ->
      flat seg <> chars_of v
}.

Definition banana : list ascii := list_ascii_of_string "banana".

End BPE.

(** ** Boolean masks

    [xs[mask]] with a boolean [mask]: the entries of [xs] at the positions
    where [mask] is [True], in order.  [torch] accepts a mask of the shape
    of [xs] only. *)
Definition masked {A} (xs : list A) (mask : list bool) : list A :=
  (filter (fun p => p.2 = true) (zip xs mask)).*1.

(** The same as [torch] computes it: [IndexError] when the mask has not
    the length of [xs]. *)
Definition bool_index {A} (xs : list A) (mask : list bool) : result (list A) :=
  if decide (length mask = length xs) then Ok (masked xs mask) else Raise IndexError.

(** [mask.sum()] of a boolean tensor: the number of its [True] entries. *)
Definition mask_sum (mask : list (list bool)) : nat :=
  length (filter (fun b => b = true) (concat mask)).

(** ** Batches whose sentences share list objects *)
Module Shared.
Import Heap.

(** [s = ['I', 'like']; g = [1, 2]; texts = [s, s]; tags = [g, g]]: one
    list object (location 1) is both sentences of the batch, one list
    object (location 2) is both tag lists. *)
Definition shared : heap :=
  <[4%positive := [VList 2%positive; VList 2%positive]]>
  (<[3%positive := [VList 1%positive; VList 1%positive]]>
  (<[2%positive := [VInt 1; VInt 2]]>
  (<[1%positive := [VStr "I"; VStr "like"]]> ∅))).

(** The same batch with a list object of its own for every sentence and
    every tag list; the batch lists are at locations 5 and 6. *)
Definition copied : heap :=
  <[6%positive := [VList 3%positive; VList 4%positive]]>
  (<[5%positive := [VList 1%positive; VList 2%positive]]>
  (<[4%positive := [VInt 1; VInt 2]]>
  (<[3%positive := [VInt 1; VInt 2]]>
  (<[2%positive := [VStr "I"; VStr "like"]]>
  (<[1%positive := [VStr "I"; VStr "like"]]> ∅))))).

End Shared.

(** ** Python lists and sets used by the cells around the function *)
Module Py.

(** Order of [str] values: by code point, which on UTF-8 encoded strings is
    the order of the bytes. *)
Definition str_le (s1 s2 : string) : Prop := String.leb s1 s2 = true.

#[global] Instance str_le_dec (s1 s2 : string) : Decision (str_le s1 s2).
Proof. unfold str_le. apply _. Defined.

(** [sorted({x for x in xs})]: the distinct elements in increasing order. *)
Definition sorted_set (xs : list string) : list string :=
  merge_sort str_le (remove_dups xs).

(** The first position of [x] in [l], if any. *)
Fixpoint index_of {A} `{EqDecision A} (x : A) (l : list A) : option nat :=
  match l with
  | [] => None
  | y :: l' => if decide (x = y) then Some 0%nat else S <$> index_of x l'
  end.

(** [l.index(x)]: the first position of [x], [ValueError] when [x] is not
    in [l]. *)
Definition index {A} `{EqDecision A} (l : list A) (x : A) : result Z :=
  match index_of x l with
  | Some i => Ok (Z.of_nat i)
  | None => Raise ValueError
  end.

(** [l[i]] for an integer [i]: negative indexes count from the end,
    [IndexError] outside the list. *)
Definition getitem {A} (l : list A) (i : Z) : result A :=
  let j := if i <? 0 then Z.of_nat (length l) + i else i in
  if j <? 0 then Raise IndexError
  else match l !! Z.to_nat j with
       | Some x => Ok x
       | None => Raise IndexError
       end.

(** [[f(x) for x in l]] with an [f] that may raise: the first exception
    ends the comprehension. *)
Fixpoint map_result {A B} (f : A -> result B) (l : list A) : result (list B) :=
  match l with
  | [] => Ok []
  | x :: l' =>
      match f x with
      | Raise e => Raise e
      | Ok y =>
          match map_result f l' with
          | Raise e => Raise e
          | Ok ys => Ok (y :: ys)
          end
      end
  end.

End Py.

(** ** Tags as indexes: the cells that call the function *)
Module Tagging.

(** [['PAD'] + sorted({tag for text in train_y for tag in text})] *)
Definition tag_set (train_y : list (list string)) : list string :=
  "PAD" :: Py.sorted_set (concat train_y).

(** [[[tag_set.index(tag) for tag in text] for text in train_y]] *)
Definition index_tags (tag_set : list string) (train_y : list (list string))
    : result (list (list Z)) :=
  Py.map_result (Py.map_result (Py.index tag_set)) train_y.

(** [[tag_set[index] for index in text]], the readable form of a row of
    tag indexes. *)
Definition readable (tag_set : list string) (text : list Z) : result (list string) :=
  Py.map_result (Py.getitem tag_set) text.

(** The tag set the notebook writes out for its first example. *)
Definition example_tag_set : list string := ["PAD"; "PRON"; "VERB"; "ADP"; "PROP"; "."].

End Tagging.

(** ** Masked positions and the pseudo-log-likelihood loop

    The cells that put [tokeniser.mask_token_id] into a row of input ids,
    find the masked positions again, and score a sentence by masking one
    position at a time. *)
Module Masking.

(** [row[i] = v] on a row of a tensor, for a position [i] counted from the
    start: [IndexError] outside the row. *)
Definition setitem (row : list Z) (i : nat) (v : Z) : result (list Z) :=
  if decide (i < length row)%nat then Ok (<[i := v]> row) else Raise IndexError.

(** [enumerate(l, start=k)] *)
Definition enumerate_from {A} (k : nat) (l : list A) : list (nat * A) :=
  imap (fun i x => ((k + i)%nat, x)) l.

(** A row of input ids of the shape the tokeniser gives: the marker 101,
    six tokens, the marker 102.  None of them is 103, the mask id. *)
Definition example_row : list Z := [101; 1109; 3676; 2113; 1103; 5855; 119; 102].

Section WithMaskId.

Variable mask_token_id : Z.

(** [input_ids[0] == tokeniser.mask_token_id] *)
Definition mask_token_mask (row : list Z) : list bool :=
  (fun x => x =? mask_token_id) <$> row.

(** [torch.arange(input_ids.shape[1])] *)
Definition token_positions (row : list Z) : list Z :=
  Z.of_nat <$> seq 0 (length row).

(** [token_positions[mask_token_mask]] *)
Definition mask_token_positions (row : list Z) : result (list Z) :=
  bool_index (token_positions row) (mask_token_mask row).

(** The scoring loop.  Floats are kept abstract: [F] with the addition
    [fadd] and [zero] for [0.0]; [token_pseudo_logprob ids i token_index]
    stands for [torch.log_softmax(bert(ids, ...).logits, dim=2)[0, i,
    token_index].tolist()], the model being run on the row [ids] (the batch
    has this one row, and the attention mask does not change). *)
Variable F : Type.
Variable fadd : F -> F -> F.
Variable zero : F.
Variable token_pseudo_logprob : list Z -> nat -> Z -> F.

(** One turn of the loop body on the row and the score so far. *)
Definition score_step (st : result (list Z * F)) (p : nat * Z) : result (list Z * F) :=
  match st with
  | Raise e => Raise e
  | Ok (ids, score) =>
      let '(i, token_index) := p in
      match setitem ids i mask_token_id with
      | Raise e => Raise e
      | Ok masked_ids =>
          let logprob := token_pseudo_logprob masked_ids i token_index in
          match setitem masked_ids i token_index with
          | Raise e => Raise e
          | Ok restored => Ok (restored, fadd score logprob)
          end
      end
  end.

(** [score = 0.0; for (i, token_index) in enumerate(input_ids[0,
    1:-1].tolist(), start=1): ...]: the row and the score after the loop. *)
Definition pseudo_log_likelihood (input_ids : list Z) : result (list Z * F) :=
  foldl score_step (Ok (input_ids, zero)) (enumerate_from 1 (slice_1_m1 input_ids)).

(** The log-probabilities the loop adds up, as a list: for each position
    between the two markers, the one of the token that is there, computed
    on the row with that position alone replaced by the mask id. *)
Definition single_mask_logprobs (input_ids : list Z) : list F :=
  imap (fun k token_index =>
          token_pseudo_logprob (<[S k := mask_token_id]> input_ids) (S k) token_index)
       (slice_1_m1 input_ids).

End WithMaskId.

End Masking.

(** ** Vocabularies and indexed texts of the recurrent-network notebook *)
Module Vocab.

(** What the cells can raise: the exceptions above, or the [KeyError] of
    a dictionary. *)
Inductive raised : Type :=
| Builtin (e : exn)
| KeyError (key : string).

Inductive outcome (A : Type) : Type :=
| Returns (a : A)
| Raises (e : raised).
Arguments Returns {A} a.
Arguments Raises {A} e.

(** [{t: i for (i, t) in enumerate(vocab)}]: a later entry replaces an
    earlier one that has the same key. *)
Definition token2index (vocab : list string) : gmap string nat :=
  foldl (fun d p => <[p.2 := p.1]> d) ∅ (enumerate vocab).
Global Arguments token2index : simpl never.

(** [d[key]] *)
Definition getitem (d : gmap string nat) (key : string) : outcome nat :=
  match d !! key with
  | Some i => Returns i
  | None => Raises (KeyError key)
  end.

(** [d.get(key, default)] *)
Definition get (d : gmap string nat) (key : string) (default : nat) : outcome nat :=
  match d !! key with
  | Some i => Returns i
  | None => Returns default
  end.

(** [np.full((n, m), v, np.int64)] *)
Definition np_full (n m : nat) (v : Z) : list (list Z) := replicate n (replicate m v).

(** [a[i, j] = v] for positions counted from the start: [IndexError]
    outside the array. *)
Definition setitem2 (a : list (list Z)) (i j : nat) (v : Z) : outcome (list (list Z)) :=
  match a !! i with
  | Some row =>
      if decide (j < length row)%nat then Returns (<[i := <[j := v]> row]> a)
      else Raises (Builtin IndexError)
  | None => Raises (Builtin IndexError)
  end.

(** [a[i, j] = index(texts[i][j])] for one [i] and one [j]; the right-hand
    side is evaluated first. *)
Definition fill_step (index : string -> outcome nat) (i : nat)
    (acc : outcome (list (list Z))) (p : nat * string) : outcome (list (list Z)) :=
  match acc with
  | Raises e => Raises e
  | Returns a =>
      match index p.2 with
      | Raises e => Raises e
      | Returns v => setitem2 a i p.1 (Z.of_nat v)
      end
  end.

(** [for i in range(len(texts)): for j in range(len(texts[i])): a[i, j] =
    index(texts[i][j])] *)
Definition fill (index : string -> outcome nat) (texts : list (list string))
    (a : list (list Z)) : outcome (list (list Z)) :=
  foldl (fun acc p => foldl (fill_step index p.1) acc (enumerate p.2))
        (Returns a) (enumerate texts).

(** The names the first indexing cell binds. *)
Record indexed : Type := {
  max_len : nat;
  vocab : list string;
  pad_index : nat;
  train_x_indexed : list (list Z)
}.

(** The cell that indexes the four example texts, for any [train_x]. *)
Definition index_texts (train_x : list (list string)) : outcome indexed :=
  match py_max (length <$> train_x) with
  | Raise e => Raises (Builtin e)
  | Ok max_len =>
      let vocab := "<PAD>" :: Py.sorted_set (concat train_x) in
      let token2index := token2index vocab in
      match getitem token2index "<PAD>" with
      | Raises e => Raises e
      | Returns pad_index =>
          match fill (getitem token2index) train_x
                  (np_full (length train_x) max_len (Z.of_nat pad_index)) with
          | Raises e => Raises e
          | Returns a =>
              Returns {| max_len := max_len; vocab := vocab;
                         pad_index := pad_index; train_x_indexed := a |}
          end
      end
  end.

(** [pad_mask = train_x_indexed == pad_index] *)
Definition pad_mask (a : list (list Z)) (pad_index : nat) : list (list bool) :=
  (fun row : list Z => (fun z => z =? Z.of_nat pad_index) <$> row) <$> a.

(** [(~pad_mask).sum()], the number the summed error is divided by. *)
Definition non_pad_count (pad_mask : list (list bool)) : nat :=
  length (filter (fun b => b = false) (concat pad_mask)).

(** The row the notebook prints beside each output:
    [text + ['<PAD>']*(max_len - len(text))]. *)
Definition padded_text (max_len : nat) (text : list string) : list string :=
  text ++ replicate (max_len - length text) "<PAD>".

End Vocab.

(** ** The vocabulary of the movie-review exercise: frequent tokens only *)
Module Sentiment.
Import Vocab.

(** One more occurrence of [token] in a counter.  A counter keeps its keys
    in the order in which they were first counted. *)
Fixpoint count_up (token : string) (frequencies : list (string * nat))
    : list (string * nat) :=
  match frequencies with
  | [] => [(token, 1%nat)]
  | (t, n) :: rest =>
      if decide (t = token) then (t, S n) :: rest else (t, n) :: count_up token rest
  end.

(** [collections.Counter(tokens)] *)
Definition Counter (tokens : list string) : list (string * nat) :=
  foldl (fun frequencies token => count_up token frequencies) [] tokens.

(** [frequencies[token]], which is [frequencies.get(token)] on a key: the
    count, 0 for a token that was never counted. *)
Fixpoint frequency (frequencies : list (string * nat)) (token : string) : nat :=
  match frequencies with
  | [] => 0%nat
  | (t, n) :: rest => if decide (t = token) then n else frequency rest token
  end.

(** [sorted(keys, key=key, reverse=True)]: decreasing keys, elements with
    equal keys in the order they had (the sort is stable). *)
Fixpoint insert_desc (key : string -> nat) (x : string) (sorted : list string)
    : list string :=
  match sorted with
  | [] => [x]
  | y :: rest =>
      if decide (key x < key y)%nat then y :: insert_desc key x rest else x :: y :: rest
  end.

Definition sorted_desc (key : string -> nat) (keys : list string) : list string :=
  foldr (insert_desc key) [] keys.

(** [while frequencies[vocabulary[-1]] < min_freq: vocabulary.pop()], on
    the vocabulary read from its end: [vocabulary[-1]] of an empty list
    raises [IndexError]. *)
Fixpoint pop_rare (frequencies : list (string * nat)) (min_freq : nat)
    (from_end : list string) : result (list string) :=
  match from_end with
  | [] => Raise IndexError
  | t :: rest =>
      if decide (frequency frequencies t < min_freq)%nat
      then pop_rare frequencies min_freq rest
      else Ok (reverse (t :: rest))
  end.

(** The vocabulary after the loop. *)
Definition vocabulary_of (min_freq : nat) (train_x_tokens : list (list string))
    : result (list string) :=
  let frequencies := Counter (concat train_x_tokens) in
  let vocabulary := sorted_desc (frequency frequencies) frequencies.*1 in
  pop_rare frequencies min_freq (reverse vocabulary).

(** The names the cell binds. *)
Record preprocessed : Type := {
  max_len : nat;
  vocab : list string;
  pad_index : nat;
  unk_index : nat;
  train_x_indexed : list (list Z);
  test_x_indexed : list (list Z)
}.

(** The preprocessing cell, from the tokenised texts on. *)
Definition preprocess (min_freq : nat) (train_x_tokens test_x_tokens : list (list string))
    : outcome preprocessed :=
  match py_max (length <$> train_x_tokens) with
  | Raise e => Raises (Builtin e)
  | Ok max_train =>
  match py_max (length <$> test_x_tokens) with
  | Raise e => Raises (Builtin e)
  | Ok max_test =>
  let max_len := Nat.max max_train max_test in
  match vocabulary_of min_freq train_x_tokens with
  | Raise e => Raises (Builtin e)
  | Ok vocabulary =>
  let vocab := "<PAD>" :: "<UNK>" :: vocabulary in
  let token2index := token2index vocab in
  match getitem token2index "<PAD>" with
  | Raises e => Raises e
  | Returns pad_index =>
  match getitem token2index "<UNK>" with
  | Raises e => Raises e
  | Returns unk_index =>
  match fill (fun token => get token2index token unk_index) train_x_tokens
          (np_full (length train_x_tokens) max_len (Z.of_nat pad_index)) with
  | Raises e => Raises e
  | Returns train_x_indexed =>
  match fill (fun token => get token2index token unk_index) test_x_tokens
          (np_full (length test_x_tokens) max_len (Z.of_nat pad_index)) with
  | Raises e => Raises e
  | Returns test_x_indexed =>
      Returns {| max_len := max_len; vocab := vocab; pad_index := pad_index;
                 unk_index := unk_index; train_x_indexed := train_x_indexed;
                 test_x_indexed := test_x_indexed |}
  end end end end end end end.

(** *** Descriptions used in the statements *)

(** How many times [token] occurs in [tokens]. *)
Definition occurrences (tokens : list string) (token : string) : nat :=
  length (filter (fun t => t = token) tokens).

End Sentiment.

(** ** The forward passes of the two recurrent models

    The layers are external: [embedding] stands for [torch.nn.Embedding],
    the cells for [torch.nn.LSTMCell] (from an input vector and the pair of
    state and cell state to the new pair), [output_layer] for
    [torch.nn.Linear].  Each of them computes a row of a batch from that
    row alone, so a batch is modelled row by row; [V] is the type of the
    vectors, [O] of the outputs. *)
Module Rnn.
Section WithLayers.

Variables V O : Type.
Variable embedding : Z -> V.



(** *** The model with one RNN *)
Section Simple.

Variable rnn_s0 rnn_c0 : V.
Variable rnn_cell : V -> V * V -> V * V.
Variable output_layer : V -> O.



End Simple.

(** *** The bi-directional model *)
Section Bidirectional.

Variable pad_index : Z.
Variable rnn_fw_s0 rnn_fw_c0 rnn_bw_s0 rnn_bw_c0 : V.
Variable rnn_fw_cell rnn_bw_cell : V -> V * V -> V * V.
(** [output_layer] on the concatenation of a fw and a bw state. *)
Variable output_layer : V -> V -> O.





End Bidirectional.

End WithLayers.


End Rnn.

(** * Facts about the aligner *)

Module AlignerFacts.
Import Aligner.

Section WithTokeniser.

Variable tokeniser : Tokeniser.
Variable no_tag : Z.

Abbreviation subword_step := (subword_step no_tag).
Abbreviation word_step := (word_step tokeniser no_tag).
Abbreviation align_sentence := (align_sentence tokeniser no_tag).
Abbreviation align_batch := (align_batch tokeniser no_tag).
Abbreviation pad_step := (pad_step tokeniser no_tag).
Abbreviation pad_batch := (pad_batch tokeniser no_tag).
Abbreviation get_aligned_tokens_and_tags := (get_aligned_tokens_and_tags tokeniser no_tag).
Abbreviation subwords := (subwords tokeniser).
Abbreviation word_indexes := (word_indexes tokeniser).
Abbreviation word_tag_mask := (word_tag_mask tokeniser).
Abbreviation word_aligned_tags := (word_aligned_tags tokeniser no_tag).
Abbreviation batch_max_len := (batch_max_len tokeniser no_tag).
Abbreviation aligned_sentences := (aligned_sentences tokeniser no_tag).
Abbreviation padded_indexes := (padded_indexes tokeniser).
Abbreviation padded_aligned_tags := (padded_aligned_tags no_tag).

(** *** The slice [[1:-1]] *)

Lemma slice_1_m1_take_drop {A} (l : list A) :
  slice_1_m1 l = take (length l - 2) (drop 1 l).
Proof.
  unfold slice_1_m1. rewrite removelast_firstn_len.
  destruct l as [|a l]; simpl; [done|].
  rewrite drop_0. f_equal. lia.
Qed.



Lemma slice_1_m1_length {A} (l : list A) :
  length (slice_1_m1 l) = (length l - 2)%nat.
Proof.
  rewrite slice_1_m1_take_drop, length_take, length_drop. lia.
Qed.

(** *** One word *)

Lemma first_then_snoc {A} (x y : A) (n : nat) :
  first_then x y (S n) = first_then x y n ++ [if Nat.eqb n 0 then x else y].
Proof.
  destruct n as [|n]; simpl; [done|].
  f_equal. change (y :: replicate n y) with (replicate (S n) y).
  by rewrite replicate_S_end.
Qed.

Lemma first_then_length {A} (x y : A) (n : nat) : length (first_then x y n) = n.
Proof. destruct n; simpl; [done|]. by rewrite length_replicate. Qed.

Lemma subword_loop (tag : Z) (s : sentence) (l : list Z) :
  foldl (subword_step tag) s (enumerate l) =
  {| indexes := indexes s ++ l;
     tag_mask := tag_mask s ++ first_then true false (length l);
     aligned_tags := aligned_tags s ++ first_then tag no_tag (length l) |}.
Proof.
  induction l as [|x l IH] using rev_ind.
  - simpl. rewrite !app_nil_r. by destruct s.
  - unfold enumerate in *. rewrite imap_app, foldl_app, IH. simpl.
    rewrite Nat.add_0_r, length_app. simpl.
    replace (length l + 1)%nat with (S (length l)) by lia.
    rewrite !first_then_snoc.
    destruct (Nat.eqb (length l) 0); simpl; by rewrite <- !app_assoc.
Qed.

Lemma word_step_spec (s : sentence) (tw : Z * string) :
  word_step s tw =
  {| indexes := indexes s ++ word_indexes tw;
     tag_mask := tag_mask s ++ word_tag_mask tw;
     aligned_tags := aligned_tags s ++ word_aligned_tags tw |}.
Proof. destruct tw as [tag word]. unfold Aligner.word_step. apply subword_loop. Qed.

Lemma word_loop (s : sentence) (pairs : list (Z * string)) :
  foldl word_step s pairs =
  {| indexes := indexes s ++ concat (word_indexes <$> pairs);
     tag_mask := tag_mask s ++ concat (word_tag_mask <$> pairs);
     aligned_tags := aligned_tags s ++ concat (word_aligned_tags <$> pairs) |}.
Proof.
  revert s. induction pairs as [|tw pairs IH]; intros s; csimpl.
  - rewrite !app_nil_r. by destruct s.
  - rewrite IH, word_step_spec. simpl. by rewrite <- !app_assoc.
Qed.

(** *** One sentence *)

Lemma align_sentence_spec (tokens : list string) (tags : list Z) :
  align_sentence tokens tags =
  {| indexes := [cls_token_id tokeniser]
       ++ concat (word_indexes <$> zip tags tokens) ++ [sep_token_id tokeniser];
     tag_mask := [false] ++ concat (word_tag_mask <$> zip tags tokens) ++ [false];
     aligned_tags := [no_tag]
       ++ concat (word_aligned_tags <$> zip tags tokens) ++ [no_tag] |}.
Proof.
  unfold Aligner.align_sentence. rewrite word_loop. done.
Qed.

Lemma concat_length_eq {A B C} (f : C -> list A) (g : C -> list B) (l : list C) :
  (forall x, length (f x) = length (g x)) ->
  length (concat (f <$> l)) = length (concat (g <$> l)).
Proof.
  intros Hfg. induction l as [|x l IH]; csimpl; [done|].
  rewrite !length_app, IH, Hfg. done.
Qed.

Lemma align_sentence_lengths (tokens : list string) (tags : list Z) :
  length (tag_mask (align_sentence tokens tags))
    = length (indexes (align_sentence tokens tags)) /\
  length (aligned_tags (align_sentence tokens tags))
    = length (indexes (align_sentence tokens tags)).
Proof.
  rewrite align_sentence_spec. simpl. rewrite !length_app. simpl.
  split; f_equal; f_equal; apply concat_length_eq; intros [t w];
    unfold Aligner.word_tag_mask, Aligner.word_aligned_tags, Aligner.word_indexes;
    simpl; by rewrite first_then_length.
Qed.

(** *** The first loop *)

Lemma sentence_loop (b : batch) (l : list (list string * list Z)) :
  foldl (sentence_step tokeniser no_tag) b l =
  {| text_indexes := text_indexes b ++ ((fun tt => indexes (align_sentence tt.1 tt.2)) <$> l);
     text_aligned_tags :=
       text_aligned_tags b ++ ((fun tt => aligned_tags (align_sentence tt.1 tt.2)) <$> l);
     text_tag_masks :=
       text_tag_masks b ++ ((fun tt => tag_mask (align_sentence tt.1 tt.2)) <$> l);
     text_token_masks := text_token_masks b |}.
Proof.
  revert b. induction l as [|[tokens tags] l IH]; intros b; csimpl.
  - rewrite !app_nil_r. by destruct b.
  - rewrite IH. simpl. by rewrite <- !app_assoc.
Qed.

Lemma align_batch_spec (text_tokens : list (list string)) (text_tags : list (list Z)) :
  align_batch text_tokens text_tags =
  {| text_indexes := indexes <$> aligned_sentences text_tokens text_tags;
     text_aligned_tags := aligned_tags <$> aligned_sentences text_tokens text_tags;
     text_tag_masks := tag_mask <$> aligned_sentences text_tokens text_tags;
     text_token_masks := [] |}.
Proof.
  unfold Aligner.align_batch, Aligner.aligned_sentences.
  rewrite sentence_loop. simpl. by rewrite <- !list_fmap_compose.
Qed.

(** *** The padding loop *)

Lemma alter_at_length {A} (f : A -> A) (pre : list A) (x : A) (l : list A) (k : nat) :
  length pre = k -> alter f (k + 0)%nat (pre ++ x :: l) = (pre ++ [f x]) ++ l.
Proof. intros <-. rewrite alter_app_r. simpl. by rewrite <- app_assoc. Qed.

Lemma pad_loop (m k : nat) (I : list (list Z)) :
  forall (G : list (list bool)) (T : list (list Z))
         (preI : list (list Z)) (preG : list (list bool)) (preT tm : list (list Z)),
  length preI = k -> length preG = k -> length preT = k ->
  length G = length I -> length T = length I ->
  foldl (pad_step m)
    {| text_indexes := preI ++ I; text_aligned_tags := preT ++ T;
       text_tag_masks := preG ++ G; text_token_masks := tm |}
    (imap (fun i x => ((k + i)%nat, x)) (zip3 I G T)) =
  {| text_indexes :=
       preI ++ zip_with (fun r x => pad_to m (length r) (pad_token_id tokeniser) x) I I;
     text_aligned_tags :=
       preT ++ zip_with (fun r x => pad_to m (length r) no_tag x) I T;
     text_tag_masks :=
       preG ++ zip_with (fun r x => pad_to m (length r) false x) I G;
     text_token_masks :=
       tm ++ ((fun r => replicate (length r) 1 ++ replicate (m - length r) 0) <$> I) |}.
Proof.
  revert k. induction I as [|r I IH]; intros k G T preI preG preT tm HI HG HT HlG HlT.
  - destruct G; [|done]. destruct T; [|done]. simpl. by rewrite !app_nil_r.
  - destruct G as [|g G]; [done|]. destruct T as [|t T]; [done|].
    unfold zip3 in *. csimpl.
    rewrite !alter_at_length by done.
    rewrite (imap_ext _ (fun i x => ((S k + i)%nat, x)));
      [|intros i x _; simpl; f_equal; lia].
    simpl in HlG, HlT.
    rewrite (IH (S k)); rewrite ?length_app; simpl; try lia.
    unfold pad_to. f_equal; by rewrite <- !app_assoc.
Qed.

Lemma pad_loop_all (m : nat) (I : list (list Z)) (G : list (list bool))
    (T : list (list Z)) :
  length G = length I -> length T = length I ->
  foldl (pad_step m)
    {| text_indexes := I; text_aligned_tags := T;
       text_tag_masks := G; text_token_masks := [] |}
    (enumerate (zip3 I G T)) =
  {| text_indexes :=
       zip_with (fun r x => pad_to m (length r) (pad_token_id tokeniser) x) I I;
     text_aligned_tags := zip_with (fun r x => pad_to m (length r) no_tag x) I T;
     text_tag_masks := zip_with (fun r x => pad_to m (length r) false x) I G;
     text_token_masks :=
       (fun r => replicate (length r) 1 ++ replicate (m - length r) 0) <$> I |}.
Proof.
  intros HG HT.
  exact (pad_loop m 0 I G T [] [] [] [] eq_refl eq_refl eq_refl HG HT).
Qed.

Lemma foldl_max_list (n : nat) (ns : list nat) :
  foldl Nat.max n ns = max_list (n :: ns).
Proof.
  revert n. induction ns as [|k ns IH]; intros n; simpl; [lia|].
  rewrite IH. simpl. lia.
Qed.

Lemma py_max_spec (ns : list nat) :
  ns <> [] -> py_max ns = Ok (max_list ns).
Proof. destruct ns as [|n ns]; [done|]. intros _. simpl. by rewrite foldl_max_list. Qed.

Lemma py_max_nil : py_max [] = Raise ValueError.
Proof. done. Qed.

Lemma pad_batch_spec (ss : list sentence) :
  ss <> [] ->
  Forall (fun s => length (tag_mask s) = length (indexes s)
                   /\ length (aligned_tags s) = length (indexes s)) ss ->
  pad_batch {| text_indexes := indexes <$> ss;
               text_aligned_tags := aligned_tags <$> ss;
               text_tag_masks := tag_mask <$> ss;
               text_token_masks := [] |} =
  let m := max_list ((fun s => length (indexes s)) <$> ss) in
  Ok {| text_indexes := padded_indexes m <$> ss;
        text_aligned_tags := padded_aligned_tags m <$> ss;
        text_tag_masks := padded_tag_mask m <$> ss;
        text_token_masks :=
          (fun s => replicate (length (indexes s)) 1
                      ++ replicate (m - length (indexes s)) 0) <$> ss |}.
Proof.
  intros Hne _. unfold Aligner.pad_batch. simpl.
  rewrite py_max_spec by (by destruct ss).
  change (map length (indexes <$> ss)) with (length <$> (indexes <$> ss)).
  rewrite <- list_fmap_compose. f_equal.
  rewrite pad_loop_all by (by rewrite !length_fmap).
  rewrite !zip_with_fmap_l, !zip_with_fmap_r, !zip_with_diag.
  rewrite <- list_fmap_compose. done.
Qed.

Lemma rectangular_all {A} (m : nat) (rows : list (list A)) :
  Forall (fun r => length r = m) rows -> rectangular rows = true.
Proof.
  destruct rows as [|r rows]; [done|].
  intros H0. inversion H0 as [|? ? Hr H]; subst. simpl.
  apply forallb_forall. intros r' Hin.
  apply list_elem_of_In in Hin.
  pose proof (proj1 (list.Forall_forall _ _) H r' Hin) as Hr'.
  apply Nat.eqb_eq. simpl in Hr'. lia.
Qed.

Lemma torch_tensor_all {A} (m : nat) (rows : list (list A)) :
  Forall (fun r => length r = m) rows -> torch_tensor rows = Ok rows.
Proof. intros H. unfold torch_tensor. by rewrite (rectangular_all m). Qed.

Lemma le_batch_max (ss : list sentence) (s : sentence) :
  s ∈ ss -> (length (indexes s) <= max_list ((fun s => length (indexes s)) <$> ss))%nat.
Proof.
  intros Hin. apply max_list_elem_of_le.
  apply (list_elem_of_fmap_2 (fun s => length (indexes s))). done.
Qed.

Lemma aligned_sentences_lengths (text_tokens : list (list string))
    (text_tags : list (list Z)) :
  Forall (fun s => length (tag_mask s) = length (indexes s)
                   /\ length (aligned_tags s) = length (indexes s))
         (aligned_sentences text_tokens text_tags).
Proof.
  unfold Aligner.aligned_sentences. apply Forall_fmap, Forall_forall.
  intros [tokens tags] _. apply align_sentence_lengths.
Qed.

(** *** The whole function *)

Lemma get_aligned_tokens_and_tags_ok (text_tokens : list (list string))
    (text_tags : list (list Z)) :
  zip text_tokens text_tags <> [] ->
  get_aligned_tokens_and_tags text_tokens text_tags =
  let m := batch_max_len text_tokens text_tags in
  let ss := aligned_sentences text_tokens text_tags in
  Ok (padded_indexes m <$> ss, padded_token_mask m <$> ss,
      padded_aligned_tags m <$> ss, padded_tag_mask m <$> ss).
Proof.
  intros Hne. unfold Aligner.get_aligned_tokens_and_tags.
  rewrite align_batch_spec.
  pose proof (aligned_sentences_lengths text_tokens text_tags) as Hlen.
  assert (Hss : aligned_sentences text_tokens text_tags <> []).
  { unfold Aligner.aligned_sentences. intros Heq.
    apply fmap_nil_inv in Heq. done. }
  rewrite pad_batch_spec by done. cbv zeta.
  fold (batch_max_len text_tokens text_tags).
  set (m := batch_max_len text_tokens text_tags).
  set (ss := aligned_sentences text_tokens text_tags) in *.
  assert (Hall : Forall (fun s => (length (indexes s) <= m)%nat
                           /\ length (tag_mask s) = length (indexes s)
                           /\ length (aligned_tags s) = length (indexes s)) ss).
  { apply list.Forall_forall. intros s Hs. split; [by apply le_batch_max|].
    exact (proj1 (list.Forall_forall _ _) Hlen s Hs). }
  assert (Hrows : forall {A} (f : sentence -> list A),
             (forall s, (length (indexes s) <= m)%nat
                        /\ length (tag_mask s) = length (indexes s)
                        /\ length (aligned_tags s) = length (indexes s) ->
                        length (f s) = m) ->
             Forall (fun r => length r = m) (f <$> ss)).
  { intros A f Hf. apply list.Forall_fmap. apply list.Forall_forall. intros s Hs.
    apply Hf. exact (proj1 (list.Forall_forall _ _) Hall s Hs). }
  unfold Aligner.to_tensors. simpl.
  rewrite !(torch_tensor_all m).
  - do 4 f_equal.
    change map with (@fmap list _).
    rewrite <- list_fmap_compose. apply list_fmap_ext. intros _ s _. simpl.
    unfold Aligner.padded_token_mask. by rewrite fmap_app, !fmap_replicate.
  - apply Hrows. intros s (H1 & H2 & H3).
    unfold Aligner.padded_tag_mask, pad_to. rewrite length_app, length_replicate. lia.
  - apply Hrows. intros s (H1 & H2 & H3).
    unfold Aligner.padded_aligned_tags, pad_to. rewrite length_app, length_replicate. lia.
  - apply Hrows. intros s (H1 & H2 & H3).
    rewrite length_app, !length_replicate. lia.
  - apply Hrows. intros s (H1 & H2 & H3).
    unfold Aligner.padded_indexes, pad_to. rewrite length_app, length_replicate. lia.
Qed.

Lemma get_aligned_tokens_and_tags_empty (text_tokens : list (list string))
    (text_tags : list (list Z)) :
  zip text_tokens text_tags = [] ->
  get_aligned_tokens_and_tags text_tokens text_tags = Raise ValueError.
Proof.
  intros Hnil. unfold Aligner.get_aligned_tokens_and_tags, Aligner.align_batch.
  by rewrite Hnil.
Qed.

Lemma get_aligned_tokens_and_tags_spec (text_tokens : list (list string))
    (text_tags : list (list Z)) :
  get_aligned_tokens_and_tags text_tokens text_tags =
  padded_output tokeniser no_tag (aligned_sentences text_tokens text_tags).
Proof.
  destruct (decide (zip text_tokens text_tags = [])) as [Hnil|Hne].
  - rewrite get_aligned_tokens_and_tags_empty by done.
    unfold Aligner.aligned_sentences. by rewrite Hnil.
  - rewrite get_aligned_tokens_and_tags_ok by done. cbv zeta.
    unfold Aligner.batch_max_len, Aligner.aligned_sentences.
    destruct (zip text_tokens text_tags); done.
Qed.

Lemma zip_nil_iff {A B} (l : list A) (k : list B) :
  zip l k = [] <-> l = [] \/ k = [].
Proof. destruct l, k; simpl; split; intros; try done; auto; by destruct H. Qed.

Lemma aligned_sentences_lookup (text_tokens : list (list string))
    (text_tags : list (list Z)) (i : nat) (tokens : list string) (tags : list Z) :
  text_tokens !! i = Some tokens -> text_tags !! i = Some tags ->
  aligned_sentences text_tokens text_tags !! i = Some (align_sentence tokens tags).
Proof.
  intros Ht Hg. unfold Aligner.aligned_sentences.
  rewrite list_lookup_fmap, lookup_zip_with, Ht. simpl. by rewrite Hg.
Qed.



(** *** Counting tag carriers *)






(** *** Statements about the function as a whole *)


Lemma aligned_sentences_app (tt1 tt2 : list (list string)) (tg1 tg2 : list (list Z)) :
  length tt1 = length tg1 ->
  aligned_sentences (tt1 ++ tt2) (tg1 ++ tg2)
  = aligned_sentences tt1 tg1 ++ aligned_sentences tt2 tg2.
Proof.
  intros Hlen. unfold Aligner.aligned_sentences.
  rewrite zip_with_app by done. by rewrite fmap_app.
Qed.

Lemma align_sentence_skips_empty (ws1 ws2 : list string) (w : string)
    (ts1 ts2 : list Z) (t : Z) :
  length ws1 = length ts1 -> subwords w = [] ->
  align_sentence (ws1 ++ w :: ws2) (ts1 ++ t :: ts2)
  = align_sentence (ws1 ++ ws2) (ts1 ++ ts2).
Proof.
  intros Hlen Hw. rewrite !align_sentence_spec.
  rewrite !zip_with_app by done. csimpl. rewrite !fmap_app, !concat_app. csimpl.
  unfold Aligner.word_indexes at 2, Aligner.word_tag_mask at 2,
         Aligner.word_aligned_tags at 2.
  simpl. rewrite Hw. done.
Qed.

(** C2, as the code has it: a word for which the tokeniser yields no
    sub-word is passed over together with its tag.  Nothing is raised and
    nothing is put in its place: the result is the one for the batch without
    that (word, tag) pair. *)
Theorem empty_tokenization_drops_pair
    (before after : list (list string)) (tags_before tags_after : list (list Z))
    (ws1 ws2 : list string) (w : string) (ts1 ts2 : list Z) (t : Z) :
  length before = length tags_before ->
  length ws1 = length ts1 ->
  subwords w = [] ->
  get_aligned_tokens_and_tags
    (before ++ (ws1 ++ w :: ws2) :: after)
    (tags_before ++ (ts1 ++ t :: ts2) :: tags_after)
  = get_aligned_tokens_and_tags
    (before ++ (ws1 ++ ws2) :: after)
    (tags_before ++ (ts1 ++ ts2) :: tags_after).
Proof.
  intros Hb Hlen Hw. rewrite !get_aligned_tokens_and_tags_spec.
  rewrite !aligned_sentences_app by done. f_equal. f_equal.
  unfold Aligner.aligned_sentences. csimpl.
  by rewrite align_sentence_skips_empty.
Qed.


Lemma replicate_const_fmap {A B} (y : B) (l : list A) :
  replicate (length l) y = (fun _ => y) <$> l.
Proof. induction l as [|x l IH]; csimpl; [done|]. by rewrite IH. Qed.

Lemma first_then_cons {A B} (x y : B) (l : list A) :
  l <> [] -> first_then x y (length l) = x :: ((fun _ => y) <$> tail l).
Proof.
  destruct l as [|a l]; [done|]. intros _. simpl. by rewrite replicate_const_fmap.
Qed.


(** C4: the order and marking of what is emitted for a sentence, and the
    five-word example.  For a sentence with as many words as tags, each word
    having at least one sub-word: first the [CLS] id, not a carrier, with
    [no_tag]; then word by word all its sub-word ids, the first a carrier
    with the word's tag, the others not carriers with [no_tag]; last the
    [SEP] id, not a carrier, with [no_tag].  On "I don't like it ." the
    aligned tags are [no_tag, PRON, VERB, no_tag, no_tag, PROP, PROP, .,
    no_tag] and the five carriers sit on the first sub-word of each word. *)
Theorem sentence_emission_order :
  (forall (tokens : list string) (tags : list Z),
     length tokens = length tags ->
     Forall (fun w => subwords w <> []) tokens ->
     align_sentence tokens tags =
     {| indexes := [cls_token_id tokeniser]
          ++ concat (subwords <$> tokens) ++ [sep_token_id tokeniser];
        tag_mask := [false]
          ++ concat (zip_with (fun (tag : Z) w => true :: ((fun _ => false) <$> tail (subwords w)))
                              tags tokens)
          ++ [false];
        aligned_tags := [no_tag]
          ++ concat (zip_with (fun (tag : Z) w => tag :: ((fun _ => no_tag) <$> tail (subwords w)))
                              tags tokens)
          ++ [no_tag] |})
  /\ Aligner.get_aligned_tokens_and_tags Demo.tokeniser Demo.PAD
       [["I"; "don't"; "like"; "it"; "."]]
       [[Demo.PRON; Demo.VERB; Demo.PROP; Demo.PROP; Demo.DOT]]
     = Ok ([[101; 146; 1274; 112; 189; 1176; 1122; 119; 102]],
           [[true; true; true; true; true; true; true; true; true]],
           [[Demo.PAD; Demo.PRON; Demo.VERB; Demo.PAD; Demo.PAD;
             Demo.PROP; Demo.PROP; Demo.DOT; Demo.PAD]],
           [[false; true; true; false; false; true; true; true; false]])
  /\ count_true [false; true; true; false; false; true; true; true; false] = 5%nat.
Proof.
  split; [|split; reflexivity].
  intros tokens tags Hlen Hsub. rewrite align_sentence_spec.
  assert (Hw : forall i tw, zip tags tokens !! i = Some tw -> subwords tw.2 <> []).
  { intros i [t w] Hi. simpl.
    apply lookup_zip_with_Some in Hi as (t' & w' & Heq & _ & Hw').
    inversion Heq; subst.
    apply (proj1 (list.Forall_forall _ _) Hsub). by eapply list_elem_of_lookup_2. }
  f_equal.
  - do 3 f_equal.
    trans (subwords <$> (zip tags tokens).*2); [by rewrite <- list_fmap_compose|].
    by rewrite snd_zip by lia.
  - do 3 f_equal. etrans; [|symmetry; apply zip_with_zip].
    apply list_fmap_ext. intros i [t w] Hi. simpl.
    unfold Aligner.word_tag_mask. simpl. apply first_then_cons. exact (Hw i _ Hi).
  - do 3 f_equal. etrans; [|symmetry; apply zip_with_zip].
    apply list_fmap_ext. intros i [t w] Hi. simpl.
    unfold Aligner.word_aligned_tags. simpl. apply first_then_cons. exact (Hw i _ Hi).
Qed.


(** C6: in the output, wherever the tag mask is [True] the token mask is
    [True] as well. *)
Theorem tag_carrier_is_token (text_tokens : list (list string))
    (text_tags : list (list Z))
    (t_indexes : list (list Z)) (t_token_mask : list (list bool))
    (t_aligned_tags : list (list Z)) (t_tag_mask : list (list bool))
    (i j : nat) (carriers : list bool) :
  get_aligned_tokens_and_tags text_tokens text_tags
    = Ok (t_indexes, t_token_mask, t_aligned_tags, t_tag_mask) ->
  t_tag_mask !! i = Some carriers ->
  carriers !! j = Some true ->
  exists present, t_token_mask !! i = Some present /\ present !! j = Some true.
Proof.
  intros Hrun Hrow Hj.
  destruct (decide (zip text_tokens text_tags = [])) as [Hnil|Hne].
  { by rewrite get_aligned_tokens_and_tags_empty in Hrun. }
  rewrite get_aligned_tokens_and_tags_ok in Hrun by done. cbv zeta in Hrun.
  injection Hrun as <- <- <- <-.
  rewrite list_lookup_fmap in Hrow. rewrite list_lookup_fmap.
  destruct (aligned_sentences text_tokens text_tags !! i) as [s|] eqn:Hs; [|done].
  simpl in Hrow. injection Hrow as <-.
  eexists. split; [reflexivity|].
  assert (Hlen : length (tag_mask s) = length (indexes s)).
  { pose proof (aligned_sentences_lengths text_tokens text_tags) as Hall.
    apply (proj1 (list.Forall_forall _ _) Hall s). by eapply list_elem_of_lookup_2. }
  unfold Aligner.padded_tag_mask, pad_to in Hj. unfold Aligner.padded_token_mask.
  destruct (decide (j < length (tag_mask s))%nat) as [Hlt|Hge].
  - rewrite lookup_app_l by (rewrite length_replicate; lia).
    apply lookup_replicate_2. lia.
  - rewrite lookup_app_r in Hj by lia.
    apply lookup_replicate in Hj as [Hj _]. done.
Qed.



End WithTokeniser.

(** *** The statements on concrete batches *)

Import Demo.

Abbreviation run := (Aligner.get_aligned_tokens_and_tags Demo.tokeniser PAD).


(** The empty word has no sub-word: its tag [VERB] is in none of the
    outputs, and nothing is raised. *)
Lemma empty_word_tag_dropped :
  subwords Demo.tokeniser EmptyString = []
  /\ run [["I"; EmptyString; "."]] [[PRON; VERB; DOT]]
     = Ok ([[101; 146; 119; 102]], [[true; true; true; true]],
           [[PAD; PRON; DOT; PAD]], [[false; true; true; false]]).
Proof. split; reflexivity. Qed.

Lemma empty_tokenization_drops_pair_witness :
  length ([] : list (list string)) = length ([] : list (list Z))
  /\ length ["I"] = length [PRON]
  /\ subwords Demo.tokeniser EmptyString = []
  /\ run ([] ++ (["I"] ++ EmptyString :: ["."]) :: []) ([] ++ ([PRON] ++ VERB :: [DOT]) :: [])
     = run ([] ++ (["I"] ++ ["."]) :: []) ([] ++ ([PRON] ++ [DOT]) :: []).
Proof.
  split; [reflexivity|]. split; [reflexivity|]. split; [reflexivity|].
  apply (empty_tokenization_drops_pair Demo.tokeniser PAD [] [] [] []
           ["I"] ["."] EmptyString [PRON] [DOT] VERB); reflexivity.
Defined.



Lemma sentence_emission_order_witness :
  length ["I"; "don't"; "like"; "it"; "."] = length [PRON; VERB; PROP; PROP; DOT]
  /\ Forall (fun w => subwords Demo.tokeniser w <> []) ["I"; "don't"; "like"; "it"; "."]
  /\ Aligner.align_sentence Demo.tokeniser PAD
       ["I"; "don't"; "like"; "it"; "."] [PRON; VERB; PROP; PROP; DOT]
     = {| indexes := [101; 146; 1274; 112; 189; 1176; 1122; 119; 102];
          tag_mask := [false; true; true; false; false; true; true; true; false];
          aligned_tags := [PAD; PRON; VERB; PAD; PAD; PROP; PROP; DOT; PAD] |}.
Proof.
  assert (Hsub : Forall (fun w => subwords Demo.tokeniser w <> [])
                        ["I"; "don't"; "like"; "it"; "."]).
  { repeat constructor; discriminate. }
  split; [reflexivity|]. split; [exact Hsub|].
  rewrite (proj1 (sentence_emission_order Demo.tokeniser PAD)
             ["I"; "don't"; "like"; "it"; "."] [PRON; VERB; PROP; PROP; DOT]
             eq_refl Hsub).
  reflexivity.
Defined.


Lemma tag_carrier_is_token_witness :
  run [["I"; "like"; "it"; "."]; ["I"; "don't"; "like"; "it"; "."]]
      [[PRON; VERB; PROP; DOT]; [PRON; VERB; ADP; PROP; DOT]]
    = Ok ([[101; 146; 1176; 1122; 119; 102; 0; 0; 0];
           [101; 146; 1274; 112; 189; 1176; 1122; 119; 102]],
          [[true; true; true; true; true; true; false; false; false];
           [true; true; true; true; true; true; true; true; true]],
          [[0; 1; 2; 4; 5; 0; 0; 0; 0]; [0; 1; 2; 0; 0; 3; 4; 5; 0]],
          [[false; true; true; true; true; false; false; false; false];
           [false; true; true; false; false; true; true; true; false]])
  /\ exists present,
       [[true; true; true; true; true; true; false; false; false];
        [true; true; true; true; true; true; true; true; true]] !! 0%nat = Some present
       /\ present !! 4%nat = Some true.
Proof.
  split; [reflexivity|].
  apply (tag_carrier_is_token Demo.tokeniser PAD
           [["I"; "like"; "it"; "."]; ["I"; "don't"; "like"; "it"; "."]]
           [[PRON; VERB; PROP; DOT]; [PRON; VERB; ADP; PROP; DOT]]
           [[101; 146; 1176; 1122; 119; 102; 0; 0; 0];
            [101; 146; 1274; 112; 189; 1176; 1122; 119; 102]]
           [[true; true; true; true; true; true; false; false; false];
            [true; true; true; true; true; true; true; true; true]]
           [[0; 1; 2; 4; 5; 0; 0; 0; 0]; [0; 1; 2; 0; 0; 3; 4; 5; 0]]
           [[false; true; true; true; true; false; false; false; false];
            [false; true; true; false; false; true; true; true; false]]
           0 4 [false; true; true; true; true; false; false; false; false]);
    reflexivity.
Defined.




End AlignerFacts.

(** * Facts about the run over the store *)

Module HeapFacts.
Import Heap.

Section Frame.

Variable h0 : heap.
Variable created : gset loc.

Abbreviation scratch := (scratch h0 created).
Abbreviation own := (own h0 created).
Abbreviation good := (good h0 created).
Abbreviation safe := (safe h0 created).

Lemma good_insert_scratch (h : heap) (l : loc) (vs : list value) :
  good h -> scratch l -> good (<[l := vs]> h).
Proof.
  intros [Hsub Hc] [Hl HlS]. split.
  - by apply insert_subseteq_r.
  - intros l' Hl'. destruct (Hc l' Hl') as (Hn & ws & Hws & Hown).
    split; [done|]. exists ws. split; [|done].
    rewrite lookup_insert_ne; [done|]. intros ->. done.
Qed.

Lemma good_extend_created (h : heap) (l : loc) (old vs : list value) :
  good h -> l ∈ created -> h !! l = Some old -> Forall own vs ->
  good (<[l := old ++ vs]> h).
Proof.
  intros [Hsub Hc] HlS Hold Hvs. split.
  - apply insert_subseteq_r; [|done]. by destruct (Hc l HlS).
  - intros l' Hl'. destruct (Hc l' Hl') as (Hn & ws & Hws & Hown).
    split; [done|]. destruct (decide (l = l')) as [<-|Hne].
    + exists (old ++ vs). rewrite lookup_insert_eq. split; [done|].
      rewrite Hold in Hws. injection Hws as <-. by apply Forall_app.
    + exists ws. by rewrite lookup_insert_ne.
Qed.

Lemma good_fresh (h : heap) : good h -> scratch (fresh (dom h)).
Proof.
  intros [Hsub Hc]. pose proof (is_fresh (dom h)) as Hf. split.
  - apply not_elem_of_dom. intros Hin. apply Hf.
    by apply (subseteq_dom _ _ Hsub).
  - intros HS. destruct (Hc _ HS) as (_ & vs & Hvs & _).
    apply Hf. apply elem_of_dom. by exists vs.
Qed.

(** **** Rules *)

Lemma safe_ret {A} (a : A) (post : A -> Prop) : post a -> safe (mret a) post.
Proof. intros Ha h Hh. split; [done|]. intros a' [= <-]. done. Qed.

Lemma safe_raise {A} (e : exn) (post : A -> Prop) : safe (raise e) post.
Proof. intros h Hh. split; [done|]. intros a' [=]. Qed.

Lemma safe_bind {A B} (m : M A) (f : A -> M B) (mid : A -> Prop) (post : B -> Prop) :
  safe m mid -> (forall a, mid a -> safe (f a) post) -> safe (m ≫= f) post.
Proof.
  intros Hm Hf h Hh. unfold mbind, M_bind, bind.
  destruct (Hm h Hh) as [Hg Hr]. destruct (m h) as [[a|e] h']; simpl in *.
  - apply Hf; [by apply Hr | done].
  - split; [done|]. intros a [=].
Qed.

Lemma safe_weaken {A} (c : M A) (post post' : A -> Prop) :
  safe c post -> (forall a, post a -> post' a) -> safe c post'.
Proof.
  intros Hc Himp h Hh. destruct (Hc h Hh) as [Hg Hr]. split; [done|].
  intros a Ha. by apply Himp, Hr.
Qed.

Lemma safe_lift {A} (r : result A) : safe (lift r) any.
Proof. destruct r; [by apply safe_ret | apply safe_raise]. Qed.

Lemma safe_for_each {A} (xs : list A) (body : A -> M unit) :
  (forall x, x ∈ xs -> safe (body x) any) -> safe (for_each xs body) any.
Proof.
  induction xs as [|x xs IH]; intros Hbody; simpl.
  - by apply safe_ret.
  - eapply safe_bind; [apply Hbody; left|].
    intros _ _. apply IH. intros y Hy. apply Hbody. by right.
Qed.

Lemma safe_map_m {A B} (f : A -> M B) (xs : list A) :
  (forall x, safe (f x) any) -> safe (map_m f xs) any.
Proof.
  intros Hf. induction xs as [|x xs IH]; simpl.
  - by apply safe_ret.
  - eapply safe_bind; [apply Hf|]. intros y _.
    eapply safe_bind; [apply IH|]. intros ys _. by apply safe_ret.
Qed.

Lemma safe_new_list (vs : list value) : safe (new_list vs) scratch.
Proof.
  intros h Hh. unfold new_list. simpl.
  pose proof (good_fresh h Hh) as Hf. split.
  - by apply good_insert_scratch.
  - intros l [= <-]. done.
Qed.

Lemma safe_read (l : loc) : safe (read l) any.
Proof.
  intros h Hh. unfold read. destruct (h !! l); simpl; split; done.
Qed.

Lemma safe_read_created (l : loc) : l ∈ created -> safe (read l) (Forall own).
Proof.
  intros Hl h Hh. unfold read.
  destruct Hh as [Hsub Hc]. destruct (Hc l Hl) as (_ & vs & Hvs & Hown).
  rewrite Hvs. simpl. split; [done|]. intros ws [= <-]. done.
Qed.

Lemma safe_extend (l : loc) (vs : list value) :
  scratch l -> safe (extend l vs) any.
Proof.
  intros Hl h Hh. unfold extend. destruct (h !! l) as [old|]; simpl.
  - split; [by apply good_insert_scratch | done].
  - split; [done|]. intros a [=].
Qed.

Lemma safe_append (l : loc) (v : value) : scratch l -> safe (append l v) any.
Proof. apply safe_extend. Qed.

Lemma safe_append_created (l : loc) (v : value) :
  l ∈ created -> own v -> safe (append l v) any.
Proof.
  intros Hl Hv h Hh. unfold append, extend.
  destruct (h !! l) as [old|] eqn:Hold; simpl.
  - split; [|done]. apply good_extend_created; auto.
  - split; [done|]. intros a [=].
Qed.

Lemma safe_as_list (v : value) : safe (as_list v) any.
Proof. destruct v; simpl; try apply safe_raise. by apply safe_ret. Qed.

Lemma safe_items (v : value) : safe (items v) any.
Proof.
  unfold items. eapply safe_bind; [apply safe_as_list|].
  intros l _. apply safe_read.
Qed.

Lemma safe_len (v : value) : safe (len v) any.
Proof.
  unfold len. eapply safe_bind; [apply safe_items|].
  intros vs _. by apply safe_ret.
Qed.

Lemma safe_index_created (l : loc) (i : nat) : l ∈ created -> safe (index l i) own.
Proof.
  intros Hl. unfold index. eapply safe_bind; [by apply safe_read_created|].
  intros vs Hvs. destruct (vs !! i) as [v|] eqn:Hv; [|apply safe_raise].
  apply safe_ret. rewrite list.Forall_forall in Hvs. apply Hvs.
  by eapply list_elem_of_lookup_2.
Qed.

Lemma safe_extend_value (v : value) (vs : list value) :
  own v -> safe (extend_value v vs) any.
Proof.
  intros (l & -> & Hl). unfold extend_value. simpl.
  apply (safe_bind _ _ (fun l' => l' = l)); [by apply safe_ret|].
  intros l' ->. by apply safe_extend.
Qed.

Lemma safe_tensor_of {A} (entry : value -> M A) (l : loc) :
  (forall v, safe (entry v) any) -> safe (tensor_of entry l) any.
Proof.
  intros He. unfold tensor_of.
  eapply safe_bind; [apply safe_read|]. intros rows _.
  eapply safe_bind.
  { apply safe_map_m. intros row. eapply safe_bind; [apply safe_items|].
    intros vs _. by apply safe_map_m. }
  intros t _. apply safe_lift.
Qed.

Lemma safe_as_int (v : value) : safe (as_int v) any.
Proof. destruct v; simpl; try apply safe_raise; by apply safe_ret. Qed.

Lemma safe_as_bool (v : value) : safe (as_bool v) any.
Proof. destruct v; simpl; try apply safe_raise; by apply safe_ret. Qed.

(** **** The statements of the function *)

Variable tokeniser : Tokeniser.

Lemma safe_tokenise (word : value) : safe (tokenise tokeniser word) any.
Proof. destruct word; simpl; try apply safe_raise; by apply safe_ret. Qed.

Lemma safe_subword_body (indexes tag_mask aligned_tags : loc) (tag no_tag : value)
    (ii : nat * Z) :
  scratch indexes -> scratch tag_mask -> scratch aligned_tags ->
  safe (subword_body indexes tag_mask aligned_tags tag no_tag ii) any.
Proof.
  intros Hi Hm Ht. destruct ii as [i index]. unfold subword_body.
  eapply safe_bind; [by apply safe_append|]. intros _ _.
  destruct (Nat.eqb i 0);
    (eapply safe_bind; [by apply safe_append|]); intros _ _; by apply safe_append.
Qed.

Lemma safe_word_body (indexes tag_mask aligned_tags : loc) (no_tag : value)
    (tw : value * value) :
  scratch indexes -> scratch tag_mask -> scratch aligned_tags ->
  safe (word_body tokeniser indexes tag_mask aligned_tags no_tag tw) any.
Proof.
  intros Hi Hm Ht. destruct tw as [tag word]. unfold word_body.
  eapply safe_bind; [apply safe_tokenise|]. intros ids _.
  apply safe_for_each. intros ii _. by apply safe_subword_body.
Qed.

Lemma safe_sentence_body (text_indexes text_aligned_tags text_tag_masks : loc)
    (no_tag : value) (tt : value * value) :
  text_indexes ∈ created -> text_aligned_tags ∈ created -> text_tag_masks ∈ created ->
  safe (sentence_body tokeniser text_indexes text_aligned_tags text_tag_masks no_tag tt) any.
Proof.
  intros Hti Hta Htm. destruct tt as [tokens tags]. unfold sentence_body.
  eapply safe_bind; [apply safe_new_list|]. intros indexes Hi.
  eapply safe_bind; [apply safe_new_list|]. intros tag_mask Hm.
  eapply safe_bind; [apply safe_new_list|]. intros aligned_tags Ht.
  eapply safe_bind; [apply safe_items|]. intros tag_items _.
  eapply safe_bind; [apply safe_items|]. intros word_items _.
  eapply safe_bind.
  { apply safe_for_each. intros tw _. by apply safe_word_body. }
  intros _ _.
  eapply safe_bind; [by apply safe_append|]. intros _ _.
  eapply safe_bind; [by apply safe_append|]. intros _ _.
  eapply safe_bind; [by apply safe_append|]. intros _ _.
  eapply safe_bind; [apply safe_append_created; [done | by eexists]|]. intros _ _.
  eapply safe_bind; [apply safe_append_created; [done | by eexists]|]. intros _ _.
  apply safe_append_created; [done | by eexists].
Qed.

Lemma safe_pad_body
    (text_indexes text_aligned_tags text_tag_masks text_token_masks : loc)
    (no_tag : value) (max_len : nat) (it : nat * (value * value * value)) :
  text_indexes ∈ created -> text_aligned_tags ∈ created -> text_tag_masks ∈ created ->
  scratch text_token_masks ->
  safe (pad_body tokeniser text_indexes text_aligned_tags text_tag_masks
                 text_token_masks no_tag max_len it) any.
Proof.
  intros Hti Hta Htm Hk. destruct it as [i [[indexes tag_mask] aligned_tags]].
  unfold pad_body.
  eapply safe_bind; [apply safe_len|]. intros num_tokens _.
  eapply safe_bind; [apply safe_new_list|]. intros row Hrow.
  eapply safe_bind; [by apply safe_append|]. intros _ _.
  eapply safe_bind; [by apply safe_index_created|]. intros r1 Hr1.
  eapply safe_bind; [by apply safe_extend_value|]. intros _ _.
  eapply safe_bind; [by apply safe_index_created|]. intros r2 Hr2.
  eapply safe_bind; [by apply safe_extend_value|]. intros _ _.
  eapply safe_bind; [by apply safe_index_created|]. intros r3 Hr3.
  by apply safe_extend_value.
Qed.

Lemma safe_pad_and_return (text_indexes text_aligned_tags text_tag_masks : loc)
    (no_tag : value) :
  text_indexes ∈ created -> text_aligned_tags ∈ created -> text_tag_masks ∈ created ->
  safe (pad_and_return tokeniser text_indexes text_aligned_tags text_tag_masks no_tag) any.
Proof.
  intros Hti Hta Htm. unfold pad_and_return.
  eapply safe_bind; [apply safe_read|]. intros rows _.
  eapply safe_bind; [apply safe_map_m, safe_len|]. intros lens _.
  eapply safe_bind; [apply safe_lift|]. intros max_len _.
  eapply safe_bind; [apply safe_new_list|]. intros text_token_masks Hk.
  eapply safe_bind; [apply safe_read|]. intros rows_i _.
  eapply safe_bind; [apply safe_read|]. intros rows_m _.
  eapply safe_bind; [apply safe_read|]. intros rows_t _.
  eapply safe_bind.
  { apply safe_for_each. intros it _. by apply safe_pad_body. }
  intros _ _.
  eapply safe_bind; [apply safe_tensor_of, safe_as_int|]. intros t1 _.
  eapply safe_bind; [apply safe_tensor_of, safe_as_bool|]. intros t2 _.
  eapply safe_bind; [apply safe_tensor_of, safe_as_int|]. intros t3 _.
  eapply safe_bind; [apply safe_tensor_of, safe_as_bool|]. intros t4 _.
  by apply safe_ret.
Qed.

Lemma safe_loops (text_indexes text_aligned_tags text_tag_masks : loc)
    (text_tokens text_tags no_tag : value) :
  text_indexes ∈ created -> text_aligned_tags ∈ created -> text_tag_masks ∈ created ->
  safe (loops tokeniser text_indexes text_aligned_tags text_tag_masks
              text_tokens text_tags no_tag) any.
Proof.
  intros Hti Hta Htm. unfold loops.
  eapply safe_bind; [apply safe_items|]. intros sentences _.
  eapply safe_bind; [apply safe_items|]. intros sentence_tags _.
  eapply safe_bind.
  { apply safe_for_each. intros tt _. by apply safe_sentence_body. }
  intros _ _. by apply safe_pad_and_return.
Qed.

End Frame.

(** *** The run over the store computes what the function over lists does *)

Lemma runs_ret {A} (a : A) (h : heap) : runs (mret a) h a h.
Proof. done. Qed.

Lemma runs_bind {A B} (m : M A) (f : A -> M B) (h h1 h2 : heap) (a : A) (b : B) :
  runs m h a h1 -> runs (f a) h1 b h2 -> runs (m ≫= f) h b h2.
Proof. unfold runs, mbind, M_bind, bind. by intros -> ->. Qed.

Lemma runs_new_list (vs : list value) (h : heap) :
  runs (new_list vs) h (fresh (dom h)) (<[fresh (dom h) := vs]> h).
Proof. done. Qed.

Lemma runs_read (l : loc) (h : heap) (vs : list value) :
  h !! l = Some vs -> runs (read l) h vs h.
Proof. unfold runs, read. by intros ->. Qed.

Lemma runs_extend (l : loc) (h : heap) (old vs : list value) :
  h !! l = Some old -> runs (extend l vs) h tt (<[l := old ++ vs]> h).
Proof. unfold runs, extend. by intros ->. Qed.

Lemma runs_items (l : loc) (h : heap) (vs : list value) :
  h !! l = Some vs -> runs (items (VList l)) h vs h.
Proof. intros H. unfold items. simpl. eapply runs_bind; [apply runs_ret|]. by apply runs_read. Qed.

Lemma same_outside_refl W h : same_outside W h h.
Proof. done. Qed.

Lemma same_outside_trans W h1 h2 h3 :
  same_outside W h1 h2 -> same_outside W h2 h3 -> same_outside W h1 h3.
Proof. intros H1 H2 l Hl. by rewrite H2, H1. Qed.

Lemma same_outside_mono W W' h h' :
  (forall l, l ∈ W -> l ∈ W') -> same_outside W h h' -> same_outside W' h h'.
Proof. intros Hsub H l Hl. apply H. intros Hin. by apply Hl, Hsub. Qed.

Lemma same_outside_insert W h l vs : l ∈ W -> same_outside W h (<[l := vs]> h).
Proof. intros Hl l' Hl'. rewrite lookup_insert_ne; [done|]. by intros ->. Qed.

Lemma same_outside_subseteq W (h0 h h' : heap) :
  same_outside W h h' -> Forall (fun l => h0 !! l = None) W -> h0 ⊆ h -> h0 ⊆ h'.
Proof.
  intros Hsame Hfresh Hsub. apply map_subseteq_spec. intros l vs Hl.
  rewrite Hsame; [by eapply lookup_weaken|].
  intros Hin. rewrite list.Forall_forall in Hfresh. rewrite (Hfresh l Hin) in Hl. done.
Qed.

(** loops *)
Lemma runs_for_each_from {A B St} (body : A -> M unit) (step : St -> B -> St)
    (I : nat -> St -> heap -> Prop) (xs : list A) :
  forall (ys : list B) (k0 : nat),
  length xs = length ys ->
  (forall k x y s h, xs !! k = Some x -> ys !! k = Some y -> I (k0 + k)%nat s h ->
     exists h', runs (body x) h tt h' /\ I (S (k0 + k)%nat) (step s y) h') ->
  forall s h, I k0 s h ->
    exists h', runs (for_each xs body) h tt h' /\ I (k0 + length xs)%nat (foldl step s ys) h'.
Proof.
  induction xs as [|x xs IH]; intros [|y ys] k0 Hlen Hbody s h HI; try done.
  - exists h. simpl. rewrite Nat.add_0_r. split; [apply runs_ret | done].
  - destruct (Hbody 0%nat x y s h eq_refl eq_refl) as (h1 & Hrun & HI1).
    { by rewrite Nat.add_0_r. }
    rewrite Nat.add_0_r in HI1.
    destruct (IH ys (S k0) ltac:(simpl in Hlen; lia)) with (s := step s y) (h := h1)
      as (h2 & Hrun2 & HI2); [|done|].
    { intros k x' y' s' h' Hx Hy HI'. 
      destruct (Hbody (S k) x' y' s' h' Hx Hy) as (h'' & ? & ?).
      - by replace (k0 + S k)%nat with (S k0 + k)%nat by lia.
      - exists h''. split; [done|]. by replace (S (S k0 + k)%nat) with (S (k0 + S k)%nat) by lia. }
    exists h2. split.
    + simpl. eapply runs_bind; [exact Hrun | exact Hrun2].
    + simpl. by replace (k0 + S (length xs))%nat with (S k0 + length xs)%nat by lia.
Qed.

Lemma runs_for_each {A B St} (body : A -> M unit) (step : St -> B -> St)
    (I : nat -> St -> heap -> Prop) (xs : list A) (ys : list B) :
  length xs = length ys ->
  (forall k x y s h, xs !! k = Some x -> ys !! k = Some y -> I k s h ->
     exists h', runs (body x) h tt h' /\ I (S k) (step s y) h') ->
  forall s h, I 0%nat s h ->
    exists h', runs (for_each xs body) h tt h' /\ I (length xs) (foldl step s ys) h'.
Proof. intros Hlen Hbody. by apply (runs_for_each_from body step I xs ys 0%nat). Qed.

Ltac not_in :=
  let Hin := fresh "Hin" in
  intros Hin;
  repeat (apply elem_of_cons in Hin as [Hin|Hin]; [congruence|]);
  by apply elem_of_nil in Hin.

Ltac lookup_heap :=
  repeat (rewrite lookup_insert_ne by congruence); rewrite ?lookup_insert_eq; try done.

Section Refinement.

Variable tokeniser : Tokeniser.
Variable no_tag : Z.

Lemma NoDup_three {A} (x y z : A) : NoDup [x; y; z] -> x <> y /\ x <> z /\ y <> z.
Proof.
  intros H. apply list.NoDup_cons in H as [H1 H]. apply list.NoDup_cons in H as [H2 _].
  repeat split; intros ->; set_solver.
Qed.

Lemma run_append3 (i m a : loc) (vi vm va : value) (h : heap) (I Mk A : list value) :
  NoDup [i; m; a] ->
  h !! i = Some I -> h !! m = Some Mk -> h !! a = Some A ->
  exists h',
    runs (append i vi ;; append m vm ;; append a va) h tt h'
    /\ (forall B (k : M B) (b : B) (h'' : heap),
          runs k h' b h'' ->
          runs (append i vi ;; append m vm ;; append a va ;; k) h b h'')
    /\ h' !! i = Some (I ++ [vi]) /\ h' !! m = Some (Mk ++ [vm]) /\ h' !! a = Some (A ++ [va])
    /\ same_outside [i; m; a] h h'.
Proof.
  intros Hnd Hi Hm Ha. destruct (NoDup_three _ _ _ Hnd) as (Him & Hia & Hma).
  exists (<[a := A ++ [va]]> (<[m := Mk ++ [vm]]> (<[i := I ++ [vi]]> h))).
  assert (Hm1 : <[i := I ++ [vi]]> h !! m = Some Mk) by lookup_heap.
  assert (Ha2 : <[m := Mk ++ [vm]]> (<[i := I ++ [vi]]> h) !! a = Some A) by lookup_heap.
  split.
  { eapply runs_bind; [by apply runs_extend|].
    eapply runs_bind; [by apply runs_extend|]. by apply runs_extend. }
  split.
  { intros B k b h'' Hk.
    eapply runs_bind; [by apply runs_extend|].
    eapply runs_bind; [by apply runs_extend|].
    eapply runs_bind; [by apply runs_extend|]. exact Hk. }
  split; [by lookup_heap|]. split; [by lookup_heap|]. split; [by lookup_heap|].
  intros l Hl.
  assert (l <> i /\ l <> m /\ l <> a) as (? & ? & ?).
  { repeat split; intros ->; apply Hl; repeat constructor. }
  by lookup_heap.
Qed.

Lemma run_subword_body (i m a : loc) (tag : Z) (ii : nat * Z)
    (s : Aligner.sentence) (h : heap) :
  NoDup [i; m; a] -> holds_sentence h i m a s ->
  exists h',
    runs (subword_body i m a (VInt tag) (VInt no_tag) ii) h tt h'
    /\ holds_sentence h' i m a (Aligner.subword_step no_tag tag s ii)
    /\ same_outside [i; m; a] h h'.
Proof.
  intros Hnd (Hi & Hm & Ha). destruct ii as [k idx].
  unfold subword_body, Aligner.subword_step.
  destruct (Nat.eqb k 0).
  - destruct (run_append3 i m a (VInt idx) (VBool true) (VInt tag) h _ _ _ Hnd Hi Hm Ha)
      as (h' & Hrun & _ & Hi' & Hm' & Ha' & Hsame).
    exists h'. split; [done|]. split; [|done].
    unfold holds_sentence, holds_ints, holds_bools. simpl. by rewrite !fmap_app.
  - destruct (run_append3 i m a (VInt idx) (VBool false) (VInt no_tag) h _ _ _ Hnd Hi Hm Ha)
      as (h' & Hrun & _ & Hi' & Hm' & Ha' & Hsame).
    exists h'. split; [done|]. split; [|done].
    unfold holds_sentence, holds_ints, holds_bools. simpl. by rewrite !fmap_app.
Qed.

Lemma run_word_body (i m a : loc) (tag : Z) (word : string)
    (s : Aligner.sentence) (h : heap) :
  NoDup [i; m; a] -> holds_sentence h i m a s ->
  exists h',
    runs (word_body tokeniser i m a (VInt no_tag) (VInt tag, VStr word)) h tt h'
    /\ holds_sentence h' i m a (Aligner.word_step tokeniser no_tag s (tag, word))
    /\ same_outside [i; m; a] h h'.
Proof.
  intros Hnd Hs. unfold word_body, Aligner.word_step. simpl.
  set (l := enumerate (slice_1_m1 (input_ids tokeniser word))).
  destruct (runs_for_each (subword_body i m a (VInt tag) (VInt no_tag))
              (Aligner.subword_step no_tag tag)
              (fun _ s' h' => holds_sentence h' i m a s' /\ same_outside [i; m; a] h h')
              l l eq_refl) with (s := s) (h := h) as (h' & Hrun & Hs' & Hsame).
  - intros k x y s' h1 Hx Hy [Hs1 Hsame1]. rewrite Hx in Hy. injection Hy as <-.
    destruct (run_subword_body i m a tag x s' h1 Hnd Hs1) as (h2 & Hrun & Hs2 & Hsame2).
    exists h2. split; [done|]. split; [done|]. by eapply same_outside_trans.
  - done.
  - exists h'. split; [|done]. eapply runs_bind; [apply runs_ret|]. exact Hrun.
Qed.

Lemma run_word_loop (i m a : loc) (ts : list Z) (ws : list string)
    (s : Aligner.sentence) (h : heap) :
  NoDup [i; m; a] -> holds_sentence h i m a s ->
  exists h',
    runs (for_each (zip (VInt <$> ts) (VStr <$> ws))
            (word_body tokeniser i m a (VInt no_tag))) h tt h'
    /\ holds_sentence h' i m a (foldl (Aligner.word_step tokeniser no_tag) s (zip ts ws))
    /\ same_outside [i; m; a] h h'.
Proof.
  intros Hnd Hs.
  destruct (runs_for_each (word_body tokeniser i m a (VInt no_tag))
              (Aligner.word_step tokeniser no_tag)
              (fun _ s' h' => holds_sentence h' i m a s' /\ same_outside [i; m; a] h h')
              (zip (VInt <$> ts) (VStr <$> ws)) (zip ts ws))
    with (s := s) (h := h) as (h' & Hrun & Hs' & Hsame).
  - rewrite !length_zip_with, !length_fmap. done.
  - intros k x [t w] s' h1 Hx Hy [Hs1 Hsame1].
    apply lookup_zip_with_Some in Hy as (t' & w' & Heq & Ht & Hw). injection Heq as <- <-.
    assert (x = (VInt t, VStr w)) as ->.
    { rewrite lookup_zip_with, !list_lookup_fmap, Ht, Hw in Hx. simpl in Hx. congruence. }
    destruct (run_word_body i m a t w s' h1 Hnd Hs1) as (h2 & Hrun & Hs2 & Hsame2).
    exists h2. split; [done|]. split; [done|]. by eapply same_outside_trans.
  - done.
  - by exists h'.
Qed.

Lemma rows_hold_frame {A} (enc : A -> value) (h h' : heap) (ls : list loc)
    (rows : list (list A)) :
  rows_hold enc h ls rows -> (forall l, l ∈ ls -> h' !! l = h !! l) ->
  rows_hold enc h' ls rows.
Proof.
  intros Hrows Hsame. unfold rows_hold in *.
  induction Hrows as [|l r ls rows Hl _ IH]; constructor.
  - rewrite Hsame; [done | by left].
  - apply IH. intros l' Hl'. apply Hsame. by right.
Qed.

Lemma rows_hold_snoc {A} (enc : A -> value) (h : heap) (ls : list loc)
    (rows : list (list A)) (l : loc) (r : list A) :
  rows_hold enc h ls rows -> h !! l = Some (enc <$> r) ->
  rows_hold enc h (ls ++ [l]) (rows ++ [r]).
Proof. intros Hrows Hl. apply Forall2_app; [done|]. by constructor. Qed.

Lemma rows_hold_lookup {A} (enc : A -> value) (h : heap) (ls : list loc)
    (rows : list (list A)) (l : loc) :
  rows_hold enc h ls rows -> l ∈ ls -> exists vs, h !! l = Some vs.
Proof.
  intros Hrows Hl. apply list_elem_of_lookup in Hl as (k & Hk).
  destruct (Forall2_lookup_l _ _ _ _ _ Hrows Hk) as (r & _ & Hr). by eexists.
Qed.

Lemma fresh_lookup (h : heap) : h !! fresh (dom h) = None.
Proof. apply not_elem_of_dom, is_fresh. Qed.

Lemma lookup_ne_fresh (h : heap) (l : loc) (vs : list value) :
  h !! l = Some vs -> l <> fresh (dom h).
Proof. intros Hl ->. by rewrite fresh_lookup in Hl. Qed.

Variable h0 : heap.

Lemma run_sentence_body (ti ta tm lw lt : loc) (ws : list string) (ts : list Z)
    (b : Aligner.batch) (h : heap) :
  filling h0 ti ta tm b h ->
  holds_words h0 lw ws -> holds_ints h0 lt ts ->
  exists h',
    runs (sentence_body tokeniser ti ta tm (VInt no_tag) (VList lw, VList lt)) h tt h'
    /\ filling h0 ti ta tm (Aligner.sentence_step tokeniser no_tag b (ws, ts)) h'.
Proof.
  intros (Hsub & Hmask & il & al & ml & Hb & Hnd & Hfresh) Hw Ht.
  destruct Hb as (Hti & Hta & Htm & Hil & Hal & Hml).
  unfold sentence_body.
  set (i := fresh (dom h)). set (h1 := <[i := [VInt (cls_token_id tokeniser)]]> h).
  set (m := fresh (dom h1)). set (h2 := <[m := [VBool false]]> h1).
  set (a := fresh (dom h2)). set (h3 := <[a := [VInt no_tag]]> h2).
  assert (Hi : h !! i = None) by apply fresh_lookup.
  assert (Hm : h1 !! m = None) by apply fresh_lookup.
  assert (Ha : h2 !! a = None) by apply fresh_lookup.
  assert (Hmi : m <> i /\ h !! m = None).
  { unfold h1 in Hm. by apply lookup_insert_None in Hm as [? ?]. }
  assert (Hai : a <> m /\ a <> i /\ h !! a = None).
  { unfold h2, h1 in Ha. apply lookup_insert_None in Ha as [Ha ?].
    by apply lookup_insert_None in Ha as [? ?]. }
  destruct Hmi as [Hmi Hm0]. destruct Hai as (Ham & Hai & Ha0).
  assert (Hold : forall l vs, h !! l = Some vs -> l <> i /\ l <> m /\ l <> a).
  { intros l vs Hl. repeat split; intros ->; congruence. }
  assert (Hnd3 : NoDup [i; m; a]).
  { repeat constructor; not_in. }
  assert (Hs0 : holds_sentence h3 i m a
                  {| Aligner.indexes := [cls_token_id tokeniser];
                     Aligner.tag_mask := [false];
                     Aligner.aligned_tags := [no_tag] |}).
  { unfold holds_sentence, holds_ints, holds_bools, h3, h2, h1. simpl.
    repeat split; by lookup_heap. }
  assert (Hsame3 : same_outside [i; m; a] h h3).
  { intros l Hl. assert (l <> i /\ l <> m /\ l <> a) as (? & ? & ?).
    { repeat split; intros ->; apply Hl; repeat constructor. }
    unfold h3, h2, h1. by lookup_heap. }
  destruct (run_word_loop i m a ts ws _ h3 Hnd3 Hs0) as (h4 & Hrun4 & Hs4 & Hsame4).
  set (s1 := foldl (Aligner.word_step tokeniser no_tag) _ (zip ts ws)) in *.
  destruct Hs4 as (Hi4 & Hm4 & Ha4).
  destruct (run_append3 i m a (VInt (sep_token_id tokeniser)) (VBool false) (VInt no_tag)
              h4 _ _ _ Hnd3 Hi4 Hm4 Ha4) as (h5 & _ & Hrun5 & Hi5 & Hm5 & Ha5 & Hsame5).
  assert (Hsame05 : same_outside [i; m; a] h h5).
  { eapply same_outside_trans; [|exact Hsame5].
    eapply same_outside_trans; [exact Hsame3 | exact Hsame4]. }
  assert (Hnd' : NoDup [ti; ta; tm]).
  { change (NoDup ([ti; ta; tm] ++ (il ++ al ++ ml))) in Hnd.
    apply list.NoDup_app in Hnd. by destruct Hnd. }
  assert (Hout : forall l vs, h !! l = Some vs -> h5 !! l = Some vs).
  { intros l vs Hl. rewrite Hsame05; [done|].
    destruct (Hold l vs Hl) as (? & ? & ?). not_in. }
  destruct (run_append3 ti ta tm (VList i) (VList a) (VList m) h5 _ _ _ Hnd'
              (Hout _ _ Hti) (Hout _ _ Hta) (Hout _ _ Htm))
    as (h6 & Hrun6 & _ & Hti6 & Hta6 & Htm6 & Hsame6).
  exists h6. split.
  { eapply runs_bind; [apply runs_new_list|]. fold i h1.
    eapply runs_bind; [apply runs_new_list|]. fold m h2.
    eapply runs_bind; [apply runs_new_list|]. fold a h3.
    eapply runs_bind.
    { apply runs_items. rewrite Hsame3.
      - by eapply lookup_weaken.
      - destruct (Hold lt _ (lookup_weaken _ _ _ _ Ht Hsub)) as (? & ? & ?). not_in. }
    eapply runs_bind.
    { apply runs_items. rewrite Hsame3.
      - by eapply lookup_weaken.
      - destruct (Hold lw _ (lookup_weaken _ _ _ _ Hw Hsub)) as (? & ? & ?). not_in. }
    eapply runs_bind; [exact Hrun4|].
    apply Hrun5. exact Hrun6. }
  assert (Hsame06 : same_outside [i; m; a; ti; ta; tm] h h6).
  { intros l Hl. rewrite Hsame6, Hsame05; [done| |]; intros Hin; apply Hl.
    - by apply elem_of_app with (l1 := [i; m; a]); left.
    - by apply elem_of_app with (l1 := [i; m; a]); right. }
  assert (Hfr : h0 !! i = None /\ h0 !! m = None /\ h0 !! a = None).
  { repeat split; eapply lookup_weaken_None; eauto. }
  destruct Hfr as (Hi0 & Hm00 & Ha00).
  pose proof (proj1 (list.Forall_forall _ _) Hfresh) as Hfresh'.
  split; [|split; [done|]].
  { eapply same_outside_subseteq; [exact Hsame06| |done].
    repeat constructor; try done; apply Hfresh'; set_solver. }
  assert (Hcells : forall l, l ∈ ti :: ta :: tm :: il ++ al ++ ml ->
                     exists vs, h !! l = Some vs).
  { intros l Hl.
    repeat (apply elem_of_cons in Hl as [->|Hl]; [by eexists|]).
    apply elem_of_app in Hl as [Hl|Hl]; [|apply elem_of_app in Hl as [Hl|Hl]].
    - exact (rows_hold_lookup _ _ _ _ _ Hil Hl).
    - exact (rows_hold_lookup _ _ _ _ _ Hal Hl).
    - exact (rows_hold_lookup _ _ _ _ _ Hml Hl). }
  assert (Hkeep : forall l, l ∈ il ++ al ++ ml -> h6 !! l = h !! l).
  { intros l Hl. apply Hsame06.
    destruct (Hcells l) as (vs & Hvs); [by do 3 right|].
    destruct (Hold l vs Hvs) as (? & ? & ?).
    change (NoDup ([ti; ta; tm] ++ (il ++ al ++ ml))) in Hnd.
    apply list.NoDup_app in Hnd as (_ & Hdis & _).
    intros Hin.
    repeat (apply elem_of_cons in Hin as [Hin|Hin]; [congruence|]).
    apply (Hdis l); [|done].
    repeat (apply elem_of_cons in Hin as [->|Hin]; [set_solver|]).
    by apply elem_of_nil in Hin. }
  assert (Hnew : forall l, l ∈ [i; m; a] -> h6 !! l = h5 !! l).
  { intros l Hl. apply Hsame6. intros Hin.
    assert (exists vs, h !! l = Some vs) as (vs & Hvs).
    { apply Hcells.
      repeat (apply elem_of_cons in Hin as [->|Hin]; [set_solver|]).
      by apply elem_of_nil in Hin. }
    destruct (Hold l vs Hvs) as (? & ? & ?).
    repeat (apply elem_of_cons in Hl as [Hl|Hl]; [congruence|]).
    by apply elem_of_nil in Hl. }
  assert (Hperm : ti :: ta :: tm :: (il ++ [i]) ++ (al ++ [a]) ++ (ml ++ [m])
                  ≡ₚ [i; m; a] ++ (ti :: ta :: tm :: il ++ al ++ ml)).
  { solve_Permutation. }
  exists (il ++ [i]), (al ++ [a]), (ml ++ [m]). split; [|split].
  - unfold batch_at, holds_lists. simpl.
    rewrite !fmap_app. split; [done|]. split; [done|]. split; [done|].
    split; [|split].
    + apply rows_hold_snoc.
      * eapply rows_hold_frame; [exact Hil|]. intros l Hl. apply Hkeep. set_solver.
      * rewrite Hnew by set_solver. rewrite Hi5. unfold Aligner.align_sentence.
        simpl. by rewrite fmap_app.
    + apply rows_hold_snoc.
      * eapply rows_hold_frame; [exact Hal|]. intros l Hl. apply Hkeep. set_solver.
      * rewrite Hnew by set_solver. rewrite Ha5. unfold Aligner.align_sentence.
        simpl. by rewrite fmap_app.
    + apply rows_hold_snoc.
      * eapply rows_hold_frame; [exact Hml|]. intros l Hl. apply Hkeep. set_solver.
      * rewrite Hnew by set_solver. rewrite Hm5. unfold Aligner.align_sentence.
        simpl. by rewrite fmap_app.
  - rewrite Hperm. apply list.NoDup_app. split; [done|]. split; [|done].
    intros l Hl Hin. destruct (Hcells l Hin) as (vs & Hvs).
    destruct (Hold l vs Hvs) as (? & ? & ?).
    repeat (apply elem_of_cons in Hl as [Hl|Hl]; [congruence|]).
    by apply elem_of_nil in Hl.
  - rewrite Hperm. apply Forall_app. split; [|done].
    repeat constructor; done.
Qed.

Lemma run_sentence_loop (ti ta tm : loc) (tl gl : list loc)
    (wss : list (list string)) (tss : list (list Z)) (b : Aligner.batch) (h : heap) :
  filling h0 ti ta tm b h ->
  Forall2 (holds_words h0) tl wss -> Forall2 (holds_ints h0) gl tss ->
  exists h',
    runs (for_each (zip (VList <$> tl) (VList <$> gl))
            (sentence_body tokeniser ti ta tm (VInt no_tag))) h tt h'
    /\ filling h0 ti ta tm (foldl (Aligner.sentence_step tokeniser no_tag) b (zip wss tss)) h'.
Proof.
  intros Hfill Htl Hgl.
  destruct (runs_for_each (sentence_body tokeniser ti ta tm (VInt no_tag))
              (Aligner.sentence_step tokeniser no_tag)
              (fun _ b' h' => filling h0 ti ta tm b' h')
              (zip (VList <$> tl) (VList <$> gl)) (zip wss tss))
    with (s := b) (h := h) as (h' & Hrun & Hfill').
  - rewrite !length_zip_with, !length_fmap.
    apply Forall2_length in Htl, Hgl. by rewrite Htl, Hgl.
  - intros k x [ws ts] b' h1 Hx Hy Hb'.
    apply lookup_zip_with_Some in Hy as (ws' & ts' & Heq & Hws & Hts).
    injection Heq as <- <-.
    destruct (Forall2_lookup_r _ _ _ _ _ Htl Hws) as (lw & Hlw & Hw).
    destruct (Forall2_lookup_r _ _ _ _ _ Hgl Hts) as (lt & Hlt & Ht).
    assert (x = (VList lw, VList lt)) as ->.
    { rewrite lookup_zip_with, !list_lookup_fmap, Hlw, Hlt in Hx. simpl in Hx. congruence. }
    by apply run_sentence_body.
  - done.
  - by exists h'.
Qed.

Lemma rows_hold_alter {A} (enc : A -> value) (h h' : heap) (ls : list loc)
    (rows : list (list A)) (f : list A -> list A) (k : nat) (l : loc) (r : list A) :
  rows_hold enc h ls rows -> NoDup ls ->
  ls !! k = Some l -> rows !! k = Some r ->
  h' !! l = Some (enc <$> f r) ->
  (forall l', l' ∈ ls -> l' <> l -> h' !! l' = h !! l') ->
  rows_hold enc h' ls (alter f k rows).
Proof.
  intros Hrows Hnd Hl Hr Hnew Hsame. unfold rows_hold in *.
  apply Forall2_same_length_lookup. split.
  - rewrite length_alter. by eapply Forall2_length.
  - intros j l' r' Hl' Hr'. destruct (decide (j = k)) as [->|Hne].
    + rewrite list_lookup_alter_eq, Hr in Hr'. simpl in Hr'. injection Hr' as <-.
      rewrite Hl in Hl'. injection Hl' as <-. done.
    + rewrite list_lookup_alter_ne in Hr' by done.
      rewrite Hsame.
      * by apply (Forall2_lookup_lr _ _ _ _ _ _ Hrows Hl' Hr').
      * by eapply list_elem_of_lookup_2.
      * intros ->. apply Hne. by eapply NoDup_lookup.
Qed.

Lemma runs_len (l : loc) (h : heap) (vs : list value) :
  h !! l = Some vs -> runs (len (VList l)) h (length vs) h.
Proof.
  intros Hl. unfold len. eapply runs_bind; [by apply runs_items|]. apply runs_ret.
Qed.

Lemma runs_index (l : loc) (k : nat) (h : heap) (vs : list value) (v : value) :
  h !! l = Some vs -> vs !! k = Some v -> runs (index l k) h v h.
Proof.
  intros Hl Hk. unfold index. eapply runs_bind; [by apply runs_read|].
  rewrite Hk. apply runs_ret.
Qed.

Lemma runs_extend_value (l : loc) (h : heap) (old vs : list value) :
  h !! l = Some old -> runs (extend_value (VList l) vs) h tt (<[l := old ++ vs]> h).
Proof.
  intros Hl. unfold extend_value. simpl.
  eapply runs_bind; [apply runs_ret|]. by apply runs_extend.
Qed.

Lemma NoDup_app_ne {A} (l1 l2 : list A) (x y : A) :
  NoDup (l1 ++ l2) -> x ∈ l1 -> y ∈ l2 -> x <> y.
Proof.
  intros Hnd Hx Hy ->. apply list.NoDup_app in Hnd as (_ & Hdis & _). by apply (Hdis y).
Qed.

Lemma run_pad_body (ti ta tm tk li lm la : loc) (il al ml : list loc)
    (rows0 : list (list Z)) (k : nat) (ri : list Z) (rm : list bool) (ra : list Z)
    (max_len : nat) (b : Aligner.batch) (h : heap) :
  padding h0 ti ta tm tk il al ml rows0 k b h ->
  il !! k = Some li -> ml !! k = Some lm -> al !! k = Some la ->
  rows0 !! k = Some ri ->
  exists h',
    runs (pad_body tokeniser ti ta tm tk (VInt no_tag) max_len
            (k, (VList li, VList lm, VList la))) h tt h'
    /\ padding h0 ti ta tm tk il al ml rows0 (S k)
         (Aligner.pad_step tokeniser no_tag max_len b (k, (ri, rm, ra))) h'.
Proof.
  intros (Hsub & Hb & Hdrop & kl & Htk & Hkl & Hnd & Hfresh) Hli Hlm Hla Hri.
  destruct Hb as (Hti & Hta & Htm & Hil & Hal & Hml).
  destruct (Forall2_lookup_l _ _ _ _ _ Hil Hli) as (row_i & Hrow_i & Hhi).
  destruct (Forall2_lookup_l _ _ _ _ _ Hml Hlm) as (row_m & Hrow_m & Hhm).
  destruct (Forall2_lookup_l _ _ _ _ _ Hal Hla) as (row_a & Hrow_a & Hha).
  assert (row_i = ri) as ->.
  { assert (Hk : drop k (Aligner.text_indexes b) !! 0%nat = drop k rows0 !! 0%nat)
      by (by rewrite Hdrop).
    rewrite !lookup_drop, Nat.add_0_r, Hrow_i, Hri in Hk. congruence. }
  set (n := length ri).
  set (r := fresh (dom h)).
  assert (Hr : h !! r = None) by apply fresh_lookup.
  assert (Hold : forall l vs, h !! l = Some vs -> l <> r).
  { intros l vs Hl ->. congruence. }
  (* distinctness *)
  pose proof Hnd as Hnd0.
  replace ((ti :: ta :: tm :: tk :: il ++ al ++ ml) ++ kl)
    with ([ti; ta; tm; tk] ++ il ++ al ++ ml ++ kl) in Hnd
    by (simpl; by rewrite <- !app_assoc).
  assert (Hin_i : li ∈ il) by (by eapply list_elem_of_lookup_2).
  assert (Hin_m : lm ∈ ml) by (by eapply list_elem_of_lookup_2).
  assert (Hin_a : la ∈ al) by (by eapply list_elem_of_lookup_2).
  apply list.NoDup_app in Hnd as (Hnd4 & Hdis4 & Hnd).
  pose proof Hnd as Hnd_rows.
  apply list.NoDup_app in Hnd as (Hnd_il & Hdis_il & Hnd).
  apply list.NoDup_app in Hnd as (Hnd_al & Hdis_al & Hnd).
  apply list.NoDup_app in Hnd as (Hnd_ml & Hdis_ml & Hnd_kl).
  assert (Hbase : forall x, x ∈ il ++ al ++ ml ++ kl ->
                    x <> ti /\ x <> ta /\ x <> tm /\ x <> tk).
  { intros x Hx. repeat split; intros ->; (eapply Hdis4; [|exact Hx]); set_solver. }
  destruct (Hbase li ltac:(set_solver)) as (? & ? & ? & ?).
  destruct (Hbase lm ltac:(set_solver)) as (? & ? & ? & ?).
  destruct (Hbase la ltac:(set_solver)) as (? & ? & ? & ?).
  assert (li <> la) by (intros ->; apply (Hdis_il _ Hin_i); set_solver).
  assert (li <> lm) by (intros ->; apply (Hdis_il _ Hin_i); set_solver).
  assert (la <> lm) by (intros ->; apply (Hdis_al _ Hin_a); set_solver).
  destruct (NoDup_three _ _ _ (NoDup_cons_1_2 _ _ Hnd4)) as (? & ? & ?).
  apply NoDup_cons_1_1 in Hnd4 as Hti4.
  assert (ti <> ta /\ ti <> tm /\ ti <> tk) as (? & ? & ?).
  { repeat split; intros Heq; apply Hti4; rewrite Heq; set_solver. }
  pose proof (Hold _ _ Hti). pose proof (Hold _ _ Hta). pose proof (Hold _ _ Htm).
  pose proof (Hold _ _ Htk). pose proof (Hold _ _ Hhi). pose proof (Hold _ _ Hhm).
  pose proof (Hold _ _ Hha).
  set (mask := replicate n (VInt 1) ++ replicate (max_len - n) (VInt 0)).
  set (h1 := <[r := mask]> h).
  set (h2 := <[tk := (VList <$> kl) ++ [VList r]]> h1).
  set (h3 := <[li := (VInt <$> ri)
                      ++ replicate (max_len - n) (VInt (pad_token_id tokeniser))]> h2).
  set (h4 := <[lm := (VBool <$> row_m) ++ replicate (max_len - n) (VBool false)]> h3).
  set (h5 := <[la := (VInt <$> row_a) ++ replicate (max_len - n) (VInt no_tag)]> h4).
  exists h5. split.
  { unfold pad_body.
    eapply runs_bind; [by apply runs_len|]. rewrite length_fmap. fold n.
    eapply runs_bind; [apply runs_new_list|]. fold r mask h1.
    eapply runs_bind; [apply runs_extend; unfold h1; by lookup_heap|]. fold h2.
    eapply runs_bind.
    { eapply runs_index; [unfold h2, h1; by lookup_heap|].
      by rewrite list_lookup_fmap, Hli. }
    eapply runs_bind; [apply runs_extend_value; unfold h2, h1; by lookup_heap|]. fold h3.
    eapply runs_bind.
    { eapply runs_index; [unfold h3, h2, h1; by lookup_heap|].
      by rewrite list_lookup_fmap, Hlm. }
    eapply runs_bind; [apply runs_extend_value; unfold h3, h2, h1; by lookup_heap|]. fold h4.
    eapply runs_bind.
    { eapply runs_index; [unfold h4, h3, h2, h1; by lookup_heap|].
      by rewrite list_lookup_fmap, Hla. }
    apply runs_extend_value; unfold h4, h3, h2, h1; by lookup_heap. }
  assert (Hframe : forall l, l <> r -> l <> tk -> l <> li -> l <> lm -> l <> la ->
                     h5 !! l = h !! l).
  { intros l ? ? ? ? ?. unfold h5, h4, h3, h2, h1. by lookup_heap. }
  assert (Hrow_ne : forall l, l ∈ il ++ al ++ ml ++ kl -> l <> r /\ l <> tk).
  { intros l Hl. destruct (Hbase l Hl) as (_ & _ & _ & ?). split; [|done].
    repeat (apply elem_of_app in Hl as [Hl|Hl]).
    - destruct (rows_hold_lookup _ _ _ _ _ Hil Hl) as (vs & Hvs). by eapply Hold.
    - destruct (rows_hold_lookup _ _ _ _ _ Hal Hl) as (vs & Hvs). by eapply Hold.
    - destruct (rows_hold_lookup _ _ _ _ _ Hml Hl) as (vs & Hvs). by eapply Hold.
    - destruct (rows_hold_lookup _ _ _ _ _ Hkl Hl) as (vs & Hvs). by eapply Hold. }
  pose proof (proj1 (list.Forall_forall _ _) Hfresh) as Hfresh'.
  split; [|split; [|split]].
  - apply (same_outside_subseteq [r; tk; li; lm; la] h0 h h5); [| |done].
    + intros l Hl. apply Hframe; intros ->; apply Hl; set_solver.
    + repeat constructor.
      * by eapply lookup_weaken_None.
      * apply Hfresh'. set_solver.
      * apply Hfresh'. set_solver.
      * apply Hfresh'. set_solver.
      * apply Hfresh'. set_solver.
  - unfold batch_at, holds_lists. simpl.
    split; [rewrite Hframe; done|]. split; [rewrite Hframe; done|].
    split; [rewrite Hframe; done|]. split; [|split].
    + eapply (rows_hold_alter VInt h h5 il); try done.
      * unfold h5, h4. lookup_heap. unfold h3. lookup_heap.
        by rewrite fmap_app, fmap_replicate.
      * intros l' Hl' Hne. destruct (Hrow_ne l' ltac:(set_solver)) as [? ?].
        apply Hframe; try done; intros ->; apply (Hdis_il _ Hl'); set_solver.
    + eapply (rows_hold_alter VInt h h5 al); try done.
      * unfold h5. lookup_heap. by rewrite fmap_app, fmap_replicate.
      * intros l' Hl' Hne. destruct (Hrow_ne l' ltac:(set_solver)) as [? ?].
        apply Hframe; try done.
        -- intros ->. apply (Hdis_il _ Hin_i). set_solver.
        -- intros ->. apply (Hdis_al _ Hl'). set_solver.
    + eapply (rows_hold_alter VBool h h5 ml); try done.
      * unfold h5, h4. lookup_heap. by rewrite fmap_app, fmap_replicate.
      * intros l' Hl' Hne. destruct (Hrow_ne l' ltac:(set_solver)) as [? ?].
        apply Hframe; try done.
        -- intros ->. apply (Hdis_il _ Hin_i). set_solver.
        -- intros ->. apply (Hdis_al _ Hin_a). set_solver.
  - simpl. rewrite drop_alter_lt by lia.
    replace (S k) with (k + 1)%nat by lia. by rewrite <- !drop_drop, Hdrop.
  - exists (kl ++ [r]). split; [|split; [|split]].
    + unfold holds_lists, h5, h4, h3, h2. lookup_heap. by rewrite fmap_app.
    + simpl. apply rows_hold_snoc.
      * eapply rows_hold_frame; [exact Hkl|]. intros l Hl.
        destruct (Hrow_ne l ltac:(set_solver)) as [? ?].
        apply Hframe; try done.
        -- intros ->. apply (Hdis_il _ Hin_i). set_solver.
        -- intros ->. apply (Hdis_ml _ Hin_m). done.
        -- intros ->. apply (Hdis_al _ Hin_a). set_solver.
      * unfold h5, h4, h3, h2, h1. lookup_heap. unfold mask.
        by rewrite fmap_app, !fmap_replicate.
    + rewrite app_assoc. apply list.NoDup_app. split; [done|]. split; [|apply NoDup_singleton].
      intros l Hl Hin. apply list_elem_of_singleton in Hin. subst l.
      assert (exists vs, h !! r = Some vs) as (vs & Hvs); [|congruence].
      apply elem_of_app in Hl as [Hl|Hl].
      * repeat (apply elem_of_cons in Hl as [Hl|Hl]; [congruence|]).
        destruct (Hrow_ne r) as [? _]; [set_solver | done].
      * destruct (Hrow_ne r) as [? _]; [set_solver | done].
    + rewrite app_assoc. apply Forall_app. split; [done|].
      constructor; [|constructor]. by eapply lookup_weaken_None.
Qed.

Lemma run_pad_loop (ti ta tm tk : loc) (il al ml : list loc) (max_len : nat)
    (b : Aligner.batch) (h : heap) :
  padding h0 ti ta tm tk il al ml (Aligner.text_indexes b) 0 b h ->
  exists h',
    runs (for_each (enumerate (Aligner.zip3 (VList <$> il) (VList <$> ml) (VList <$> al)))
            (pad_body tokeniser ti ta tm tk (VInt no_tag) max_len)) h tt h'
    /\ exists k,
         padding h0 ti ta tm tk il al ml (Aligner.text_indexes b) k
           (foldl (Aligner.pad_step tokeniser no_tag max_len) b
              (enumerate (Aligner.zip3 (Aligner.text_indexes b) (Aligner.text_tag_masks b)
                            (Aligner.text_aligned_tags b)))) h'.
Proof.
  intros Hpad. pose proof Hpad as (_ & Hb & _).
  destruct Hb as (_ & _ & _ & Hil & Hal & Hml).
  apply Forall2_length in Hil, Hal, Hml.
  destruct (runs_for_each (pad_body tokeniser ti ta tm tk (VInt no_tag) max_len)
              (Aligner.pad_step tokeniser no_tag max_len)
              (fun k b' h' => padding h0 ti ta tm tk il al ml (Aligner.text_indexes b) k b' h')
              (enumerate (Aligner.zip3 (VList <$> il) (VList <$> ml) (VList <$> al)))
              (enumerate (Aligner.zip3 (Aligner.text_indexes b) (Aligner.text_tag_masks b)
                            (Aligner.text_aligned_tags b))))
    with (s := b) (h := h) as (h' & Hrun & Hpad').
  - unfold enumerate, Aligner.zip3. rewrite !length_imap, !length_zip_with, !length_fmap. lia.
  - intros k x y b' h1 Hx Hy Hb'. unfold enumerate in Hx, Hy.
    rewrite list_lookup_imap in Hx. rewrite list_lookup_imap in Hy.
    unfold Aligner.zip3 in Hx, Hy.
    destruct (zip (zip (Aligner.text_indexes b) (Aligner.text_tag_masks b))
                (Aligner.text_aligned_tags b) !! k) as [[[ri rm] ra]|] eqn:Hz; [|done].
    simpl in Hy. injection Hy as <-.
    apply lookup_zip_with_Some in Hz as (p & ra' & Heq & Hp & Hra).
    injection Heq as <- <-.
    apply lookup_zip_with_Some in Hp as (ri' & rm' & Heq & Hri & Hrm).
    injection Heq as <- <-.
    destruct (lookup_lt_is_Some_2 il k) as (li & Hli);
      [rewrite Hil; by eapply lookup_lt_Some|].
    destruct (lookup_lt_is_Some_2 ml k) as (lm & Hlm);
      [rewrite Hml; by eapply lookup_lt_Some|].
    destruct (lookup_lt_is_Some_2 al k) as (la & Hla);
      [rewrite Hal; by eapply lookup_lt_Some|].
    assert (x = (k, (VList li, VList lm, VList la))) as ->.
    { rewrite !lookup_zip_with, !list_lookup_fmap, Hli, Hlm, Hla in Hx. simpl in Hx.
      congruence. }
    by eapply run_pad_body.
  - done.
  - exists h'. split; [done|]. by eexists.
Qed.

Lemma map_m_enc {A B} (enc : A -> value) (entry : value -> M B) (dec : A -> B)
    (r : list A) (h : heap) :
  (forall x h', entry (enc x) h' = (Ok (dec x), h')) ->
  map_m entry (enc <$> r) h = (Ok (dec <$> r), h).
Proof.
  intros Hentry. induction r as [|x r IH]; [done|].
  csimpl. unfold mbind, M_bind, bind. by rewrite Hentry, IH.
Qed.

Lemma items_eq (l : loc) (h : heap) (vs : list value) :
  h !! l = Some vs -> items (VList l) h = (Ok vs, h).
Proof. intros H. by apply runs_items. Qed.

Lemma lift_eq {A} (r : result A) (h : heap) : lift r h = (r, h).
Proof. by destruct r. Qed.

Lemma tensor_of_eq {A B} (enc : A -> value) (entry : value -> M B) (dec : A -> B)
    (h : heap) (l : loc) (ls : list loc) (rows : list (list A)) :
  holds_lists h l ls -> rows_hold enc h ls rows ->
  (forall x h', entry (enc x) h' = (Ok (dec x), h')) ->
  tensor_of entry l h = (torch_tensor (map (map dec) rows), h).
Proof.
  intros Hl Hrows Hentry. unfold tensor_of, mbind, M_bind, bind.
  unfold read. rewrite Hl.
  assert (Hmap : map_m (fun row => items row ≫= fun vs => map_m entry vs) (VList <$> ls) h
                 = (Ok (map (map dec) rows), h)).
  { unfold rows_hold in Hrows. clear Hl.
    induction Hrows as [|l' r ls rows Hl' _ IH]; [done|].
    csimpl. unfold mbind, M_bind, bind. rewrite (items_eq _ _ _ Hl').
    rewrite (map_m_enc enc entry dec) by done.
    unfold mbind, M_bind, bind in IH. by rewrite IH. }
  unfold mbind, M_bind, bind in Hmap. rewrite Hmap. apply lift_eq.
Qed.

Lemma as_int_eq (z : Z) (h : heap) : as_int (VInt z) h = (Ok z, h).
Proof. done. Qed.

Lemma as_bool_int_eq (z : Z) (h : heap) : as_bool (VInt z) h = (Ok (to_bool z), h).
Proof. done. Qed.

Lemma as_bool_eq (b : bool) (h : heap) : as_bool (VBool b) h = (Ok b, h).
Proof. done. Qed.

Lemma map_map_id {A} (rows : list (list A)) : map (map (fun x => x)) rows = rows.
Proof. induction rows as [|r rows IH]; simpl; [done|]. by rewrite map_id, IH. Qed.

Lemma rectangular_fmap {A B} (f : A -> B) (rows : list (list A)) :
  rectangular (map (map f) rows) = rectangular rows.
Proof.
  destruct rows as [|r rows]; [done|]. simpl. rewrite length_map.
  induction rows as [|r' rows IH]; simpl; [done|]. by rewrite length_map, IH.
Qed.

Lemma torch_tensor_fmap {A B} (f : A -> B) (rows : list (list A)) :
  torch_tensor (map (map f) rows)
  = match torch_tensor rows with
    | Ok t => Ok (map (map f) t)
    | Raise e => Raise e
    end.
Proof. unfold torch_tensor. rewrite rectangular_fmap. by destruct (rectangular rows). Qed.

Lemma bind_runs {A B} (m : M A) (f : A -> M B) (h h1 : heap) (a : A) :
  runs m h a h1 -> (m ≫= f) h = f a h1.
Proof. unfold runs, mbind, M_bind, bind. by intros ->. Qed.

Lemma run_pad_and_return (ti ta tm : loc) (b : Aligner.batch) (h : heap) :
  filling h0 ti ta tm b h ->
  (pad_and_return tokeniser ti ta tm (VInt no_tag) h).1
  = match Aligner.pad_batch tokeniser no_tag b with
    | Raise e => Raise e
    | Ok b' => Aligner.to_tensors b'
    end.
Proof.
  intros (Hsub & Hmask & il & al & ml & Hb & Hnd & Hfresh).
  pose proof Hb as (Hti & Hta & Htm & Hil & Hal & Hml).
  unfold pad_and_return, Aligner.pad_batch.
  rewrite (bind_runs _ _ _ _ _ (runs_read _ _ _ Hti)).
  assert (Hlens : map_m len (VList <$> il) h
                  = (Ok (map length (Aligner.text_indexes b)), h)).
  { unfold rows_hold in Hil. clear Hti Hb Hnd Hfresh.
    induction Hil as [|l r ls rows Hl _ IH]; [done|].
    csimpl. unfold mbind, M_bind, bind.
    pose proof (runs_len _ _ _ Hl) as Hlen. unfold runs in Hlen. rewrite Hlen, IH.
    by rewrite length_fmap. }
  rewrite (bind_runs _ _ _ _ _ Hlens).
  destruct (py_max (map length (Aligner.text_indexes b))) as [max_len|e] eqn:Hmax; [|done].
  change (lift (Ok max_len)) with (mret (M := M) max_len).
  rewrite (bind_runs _ _ _ _ _ (runs_ret _ _)).
  rewrite (bind_runs _ _ _ _ _ (runs_new_list _ _)).
  set (tk := fresh (dom h)). set (h1 := <[tk := []]> h).
  assert (Htk : h !! tk = None) by apply fresh_lookup.
  assert (Hcells : forall l, l ∈ ti :: ta :: tm :: il ++ al ++ ml -> l <> tk).
  { intros l Hl ->.
    repeat (apply elem_of_cons in Hl as [->|Hl]; [congruence|]).
    apply elem_of_app in Hl as [Hl|Hl]; [|apply elem_of_app in Hl as [Hl|Hl]].
    - destruct (rows_hold_lookup _ _ _ _ _ Hil Hl) as (vs & Hvs). congruence.
    - destruct (rows_hold_lookup _ _ _ _ _ Hal Hl) as (vs & Hvs). congruence.
    - destruct (rows_hold_lookup _ _ _ _ _ Hml Hl) as (vs & Hvs). congruence. }
  assert (Hkeep : forall l, l ∈ ti :: ta :: tm :: il ++ al ++ ml -> h1 !! l = h !! l).
  { intros l Hl. unfold h1. rewrite lookup_insert_ne; [done|].
    intros Heq. by apply (Hcells l Hl). }
  assert (Hb1 : batch_at h1 ti ta tm il al ml b).
  { unfold batch_at, holds_lists. rewrite !Hkeep by set_solver.
    split; [done|]. split; [done|]. split; [done|].
    split; [|split]; (eapply rows_hold_frame; [eassumption|]);
      intros l Hl; apply Hkeep; set_solver. }
  assert (Hpad0 : padding h0 ti ta tm tk il al ml (Aligner.text_indexes b) 0 b h1).
  { split; [|split; [done|split; [done|]]].
    - unfold h1. apply insert_subseteq_r; [|done]. by eapply lookup_weaken_None.
    - exists []. rewrite app_nil_r. split; [|split; [|split]].
      + unfold holds_lists, h1. by rewrite lookup_insert_eq.
      + rewrite Hmask. constructor.
      + assert (Hperm : ti :: ta :: tm :: tk :: il ++ al ++ ml
                        ≡ₚ tk :: ti :: ta :: tm :: il ++ al ++ ml) by solve_Permutation.
        rewrite Hperm. apply list.NoDup_cons. split; [|done].
        intros Hin. by apply (Hcells tk Hin).
      + assert (Hperm : ti :: ta :: tm :: tk :: il ++ al ++ ml
                        ≡ₚ tk :: ti :: ta :: tm :: il ++ al ++ ml) by solve_Permutation.
        rewrite Hperm. constructor; [|done]. by eapply lookup_weaken_None. }
  destruct Hb1 as (Hti1 & Hta1 & Htm1 & _).
  rewrite (bind_runs _ _ _ _ _ (runs_read _ _ _ Hti1)).
  rewrite (bind_runs _ _ _ _ _ (runs_read _ _ _ Htm1)).
  rewrite (bind_runs _ _ _ _ _ (runs_read _ _ _ Hta1)).
  destruct (run_pad_loop ti ta tm tk il al ml max_len b h1 Hpad0)
    as (hf & Hrun & k & Hpadf).
  rewrite (bind_runs _ _ _ _ _ Hrun).
  set (bf := foldl (Aligner.pad_step tokeniser no_tag max_len) b _) in *.
  destruct Hpadf as (_ & (Htif & Htaf & Htmf & Hilf & Half & Hmlf) & _
                     & kl & Htkf & Hklf & _ & _).
  unfold mbind, M_bind, bind.
  rewrite (tensor_of_eq VInt as_int (fun z => z) hf ti il _ Htif Hilf as_int_eq).
  rewrite map_map_id. unfold Aligner.to_tensors.
  destruct (torch_tensor (Aligner.text_indexes bf)) as [t1|e1]; [|done].
  rewrite (tensor_of_eq VInt as_bool to_bool hf tk kl _ Htkf Hklf as_bool_int_eq).
  rewrite torch_tensor_fmap.
  destruct (torch_tensor (Aligner.text_token_masks bf)) as [t2|e2]; [|done].
  rewrite (tensor_of_eq VInt as_int (fun z => z) hf ta al _ Htaf Half as_int_eq).
  rewrite map_map_id.
  destruct (torch_tensor (Aligner.text_aligned_tags bf)) as [t3|e3]; [|done].
  rewrite (tensor_of_eq VBool as_bool (fun z => z) hf tm ml _ Htmf Hmlf as_bool_eq).
  rewrite map_map_id.
  destruct (torch_tensor (Aligner.text_tag_masks bf)) as [t4|e4]; done.
Qed.

Lemma good_start (h : heap) :
  let ti := fresh (dom h) in
  let h1 := <[ti := []]> h in
  let ta := fresh (dom h1) in
  let h2 := <[ta := []]> h1 in
  let tm := fresh (dom h2) in
  let h3 := <[tm := []]> h2 in
  h = h0 ->
  filling h0 ti ta tm
    {| Aligner.text_indexes := []; Aligner.text_aligned_tags := [];
       Aligner.text_tag_masks := []; Aligner.text_token_masks := [] |} h3.
Proof.
  intros ti h1 ta h2 tm h3 ->.
  assert (Hti : h0 !! ti = None) by apply fresh_lookup.
  assert (Hta : h1 !! ta = None) by apply fresh_lookup.
  assert (Htm : h2 !! tm = None) by apply fresh_lookup.
  assert (Hta' : h0 !! ta = None /\ ta <> ti).
  { unfold h1 in Hta. apply lookup_insert_None in Hta as [? ?]. done. }
  assert (Htm' : h0 !! tm = None /\ tm <> ti /\ tm <> ta).
  { unfold h2, h1 in Htm. apply lookup_insert_None in Htm as [Htm ?].
    apply lookup_insert_None in Htm as [? ?]. done. }
  destruct Hta' as [Hta0 Hne1]. destruct Htm' as (Htm0 & Hne2 & Hne3).
  split; [|split; [done|]].
  - unfold h3, h2, h1. by repeat apply insert_subseteq_r.
  - exists [], [], []. split; [|split].
    + unfold batch_at, holds_lists, h3, h2, h1. simpl.
      split; [by lookup_heap|]. split; [by lookup_heap|]. split; [by lookup_heap|].
      repeat split; constructor.
    + simpl. repeat constructor; not_in.
    + simpl. repeat constructor; done.
Qed.

End Refinement.

Theorem run_refines (tokeniser : Tokeniser) (no_tag : Z) (h : heap)
    (text_tokens text_tags : value) (wss : list (list string)) (tss : list (list Z)) :
  holds_batch h text_tokens text_tags wss tss ->
  (get_aligned_tokens_and_tags tokeniser text_tokens text_tags (VInt no_tag) h).1
  = Aligner.get_aligned_tokens_and_tags tokeniser no_tag wss tss.
Proof.
  intros (lt & lg & tl & gl & -> & -> & Hlt & Hlg & Htl & Hgl).
  unfold get_aligned_tokens_and_tags.
  rewrite (bind_runs _ _ _ _ _ (runs_new_list _ _)).
  rewrite (bind_runs _ _ _ _ _ (runs_new_list _ _)).
  rewrite (bind_runs _ _ _ _ _ (runs_new_list _ _)).
  pose proof (good_start h h eq_refl) as Hfill. cbv zeta in Hfill.
  set (ti := fresh (dom h)) in *.
  set (h1 := <[ti := []]> h) in *.
  set (ta := fresh (dom h1)) in *.
  set (h2 := <[ta := []]> h1) in *.
  set (tm := fresh (dom h2)) in *.
  set (h3 := <[tm := []]> h2) in *.
  pose proof Hfill as (Hsub & _).
  unfold loops.
  rewrite (bind_runs _ _ _ _ _ (runs_items _ _ _ (lookup_weaken _ _ _ _ Hlt Hsub))).
  rewrite (bind_runs _ _ _ _ _ (runs_items _ _ _ (lookup_weaken _ _ _ _ Hlg Hsub))).
  destruct (run_sentence_loop tokeniser no_tag h ti ta tm tl gl wss tss _ h3 Hfill Htl Hgl)
    as (h4 & Hrun & Hfill4).
  rewrite (bind_runs _ _ _ _ _ Hrun).
  rewrite (run_pad_and_return tokeniser no_tag h ti ta tm _ h4 Hfill4).
  done.
Qed.

(** The three empty lists of source lines 588-590 make a good store. *)
Lemma good_after_setup (h : heap) :
  let ti := fresh (dom h) in
  let h1 := <[ti := []]> h in
  let ta := fresh (dom h1) in
  let h2 := <[ta := []]> h1 in
  let tm := fresh (dom h2) in
  let h3 := <[tm := []]> h2 in
  good h {[ti; ta; tm]} h3.
Proof.
  intros ti h1 ta h2 tm h3.
  assert (Hti : h !! ti = None) by (apply not_elem_of_dom, is_fresh).
  assert (Hta : h1 !! ta = None) by (apply not_elem_of_dom, is_fresh).
  assert (Htm : h2 !! tm = None) by (apply not_elem_of_dom, is_fresh).
  assert (Hta' : h !! ta = None /\ ta <> ti).
  { unfold h1 in Hta. apply lookup_insert_None in Hta as [? ?]. done. }
  assert (Htm' : h !! tm = None /\ tm <> ti /\ tm <> ta).
  { unfold h2, h1 in Htm. apply lookup_insert_None in Htm as [Htm ?].
    apply lookup_insert_None in Htm as [? ?]. done. }
  destruct Hta' as [Hta0 Hne1]. destruct Htm' as (Htm0 & Hne2 & Hne3).
  split.
  - unfold h3, h2, h1. by repeat apply insert_subseteq_r.
  - intros l Hl. apply elem_of_union in Hl as [Hl|Hl];
      [apply elem_of_union in Hl as [Hl|Hl]|]; apply elem_of_singleton in Hl; subst l.
    + split; [done|]. exists []. split; [|constructor].
      unfold h3, h2, h1.
      rewrite lookup_insert_ne by done. rewrite lookup_insert_ne by done.
      by rewrite lookup_insert_eq.
    + split; [done|]. exists []. split; [|constructor].
      unfold h3, h2. rewrite lookup_insert_ne by done. by rewrite lookup_insert_eq.
    + split; [done|]. exists []. split; [|constructor].
      unfold h3. by rewrite lookup_insert_eq.
Qed.

(** C10: a call leaves every list object that exists when it starts with
    the items it had, whether the call returns or raises: the batch lists,
    the sentences' word and tag lists, and any other object.  All [append]
    and [extend] go to lists the call itself has made. *)
Theorem inputs_unchanged (tokeniser : Tokeniser) (text_tokens text_tags no_tag : value)
    (h : heap) (l : loc) (vs : list value) :
  h !! l = Some vs ->
  (get_aligned_tokens_and_tags tokeniser text_tokens text_tags no_tag h).2 !! l = Some vs.
Proof.
  intros Hl. unfold get_aligned_tokens_and_tags.
  unfold mbind, M_bind, bind, new_list. simpl.
  pose proof (good_after_setup h) as Hgood. cbv zeta in Hgood.
  set (ti := fresh (dom h)) in *.
  set (h1 := <[ti := []]> h) in *.
  set (ta := fresh (dom h1)) in *.
  set (h2 := <[ta := []]> h1) in *.
  set (tm := fresh (dom h2)) in *.
  set (h3 := <[tm := []]> h2) in *.
  destruct (safe_loops h {[ti; ta; tm]} tokeniser ti ta tm text_tokens text_tags no_tag
              ltac:(set_solver) ltac:(set_solver) ltac:(set_solver) h3 Hgood)
    as [[Hsub _] _].
  by apply (lookup_weaken _ _ _ _ Hl Hsub).
Qed.

(** On the example batch the run over the store returns what the function
    over immutable lists returns. *)
Lemma demo_run_agrees :
  (get_aligned_tokens_and_tags Demo.tokeniser (VList 5%positive) (VList 6%positive)
     (VInt Demo.PAD) demo_heap).1
  = Aligner.get_aligned_tokens_and_tags Demo.tokeniser Demo.PAD
      [["I"; "like"; "it"; "."]; ["I"; "don't"; "like"; "it"; "."]]
      [[Demo.PRON; Demo.VERB; Demo.PROP; Demo.DOT];
       [Demo.PRON; Demo.VERB; Demo.ADP; Demo.PROP; Demo.DOT]].
Proof. vm_compute. reflexivity. Qed.

Lemma inputs_unchanged_witness :
  demo_heap !! 5%positive = Some [VList 1%positive; VList 2%positive]
  /\ (get_aligned_tokens_and_tags Demo.tokeniser (VList 5%positive) (VList 6%positive)
        (VInt Demo.PAD) demo_heap).2 !! 5%positive
     = Some [VList 1%positive; VList 2%positive].
Proof.
  split; [reflexivity|].
  apply (inputs_unchanged Demo.tokeniser (VList 5%positive) (VList 6%positive)
           (VInt Demo.PAD) demo_heap 5%positive).
  reflexivity.
Defined.

End HeapFacts.

(** * Facts about the vocabulary construction *)

Module BPEFacts.
Import BPE.

(** *** Replacing a pair in a word *)

Lemma replace_pair_merge (p q : token) (rest : list token) :
  replace_pair p q (p :: q :: rest) = merged p q :: replace_pair p q rest.
Proof. simpl. destruct (decide (p = p /\ q = q)) as [_|Hn]; [done|]. by destruct Hn. Qed.

Lemma replace_pair_keep (p q x y : token) (rest : list token) :
  ~ (x = p /\ y = q) ->
  replace_pair p q (x :: y :: rest) = x :: replace_pair p q (y :: rest).
Proof. intros Hn. simpl. destruct (decide (x = p /\ y = q)); done. Qed.

(** The cases of [replace_pair], as an induction principle. *)
Lemma replace_pair_ind (p q : token) (P : list token -> Prop) :
  P [] ->
  (forall x, P [x]) ->
  (forall rest, P rest -> P (p :: q :: rest)) ->
  (forall x y rest, ~ (x = p /\ y = q) -> P (y :: rest) -> P (x :: y :: rest)) ->
  forall w, P w.
Proof.
  intros Hnil Hone Hmerge Hkeep w.
  assert (H : forall n w, (length w <= n)%nat -> P w).
  { clear w. induction n as [|n IH]; intros w Hlen.
    - destruct w; [done | simpl in Hlen; lia].
    - destruct w as [|x [|y rest]]; [done | done |].
      destruct (decide (x = p /\ y = q)) as [[-> ->]|Hn].
      + apply Hmerge, IH. simpl in Hlen. lia.
      + apply Hkeep; [done|]. apply IH. simpl in *. lia. }
  by apply (H (length w)).
Qed.

(** A cut in the result of [replace_pair] is a cut in the word. *)
Lemma replace_pair_split (p q : token) (w : list token) :
  forall left right,
    replace_pair p q w = left ++ right ->
    exists before after,
      w = before ++ after
      /\ replace_pair p q before = left /\ replace_pair p q after = right.
Proof.
  induction w as [| x | rest IH | x y rest Hn IH] using (replace_pair_ind p q);
    intros left right Heq.
  - simpl in Heq. symmetry in Heq. apply app_eq_nil in Heq as [-> ->].
    by exists [], [].
  - destruct left as [|t left].
    + simpl in Heq. subst right. by exists [], [x].
    + simpl in Heq. injection Heq as <- Heq. symmetry in Heq.
      apply app_eq_nil in Heq as [-> ->]. exists [x], []. done.
  - rewrite replace_pair_merge in Heq. destruct left as [|t left].
    + simpl in Heq. subst right. exists [], (p :: q :: rest).
      by rewrite replace_pair_merge.
    + simpl in Heq. injection Heq as <- Heq.
      destruct (IH _ _ Heq) as (b & a & -> & Hb & Ha).
      exists (p :: q :: b), a. by rewrite replace_pair_merge, Hb.
  - rewrite replace_pair_keep in Heq by done. destruct left as [|t left].
    + simpl in Heq. subst right. exists [], (x :: y :: rest).
      by rewrite replace_pair_keep.
    + simpl in Heq. injection Heq as <- Heq.
      destruct (IH _ _ Heq) as (b & a & Hw & Hb & Ha).
      exists (x :: b), a. split; [simpl; by rewrite <- Hw|]. split; [|done].
      destruct b as [|y' b]; [by subst left|].
      simpl in Hw. injection Hw as <- Hw.
      by rewrite replace_pair_keep, Hb.
Qed.

Lemma replace_pair_segment (p q : token) (w seg' : list token) :
  segment_of seg' (replace_pair p q w) ->
  exists seg, segment_of seg w /\ replace_pair p q seg = seg'.
Proof.
  intros (left & right & Heq).
  destruct (replace_pair_split _ _ _ _ _ Heq) as (b & rest & -> & _ & Hrest).
  destruct (replace_pair_split _ _ _ _ _ Hrest) as (seg & a & -> & Hseg & _).
  exists seg. split; [by exists b, a | done].
Qed.

Lemma replace_pair_length (p q : token) (w : list token) :
  (length (replace_pair p q w) <= length w)%nat.
Proof.
  induction w as [| x | rest IH | x y rest Hn IH] using (replace_pair_ind p q).
  - done.
  - done.
  - rewrite replace_pair_merge. simpl. lia.
  - rewrite replace_pair_keep by done. simpl in *. lia.
Qed.

Lemma replace_pair_shorter (p q : token) (w : list token) :
  (p, q) ∈ pairs w -> (length (replace_pair p q w) < length w)%nat.
Proof.
  induction w as [| x | rest IH | x y rest Hn IH] using (replace_pair_ind p q);
    intros Hin.
  - by apply elem_of_nil in Hin.
  - by apply elem_of_nil in Hin.
  - rewrite replace_pair_merge. pose proof (replace_pair_length p q rest). simpl. lia.
  - rewrite replace_pair_keep by done.
    change (pairs (x :: y :: rest)) with ((x, y) :: pairs (y :: rest)) in Hin.
    apply elem_of_cons in Hin as [Heq|Hin].
    + injection Heq as -> ->. by destruct Hn.
    + specialize (IH Hin). simpl in *. lia.
Qed.

(** *** Characters of tokens *)

Lemma chars_of_continuation (t : token) :
  t.1 = false -> chars_of t = (fun c => (false, c)) <$> t.2.
Proof. destruct t as [b [|c cs]]; simpl; intros ->; done. Qed.

Lemma chars_of_merged (p q : token) :
  p.2 <> [] -> q.1 = false -> chars_of (merged p q) = chars_of p ++ chars_of q.
Proof.
  intros Hp Hq. rewrite (chars_of_continuation q Hq).
  destruct p as [b [|c cs]]; [done|]. unfold merged, chars_of. simpl.
  by rewrite fmap_app.
Qed.

Lemma flat_cons (t : token) (seg : list token) : flat (t :: seg) = chars_of t ++ flat seg.
Proof. done. Qed.

Lemma flat_pair (p q : token) :
  p.2 <> [] -> q.1 = false -> flat [p; q] = chars_of (merged p q).
Proof.
  intros Hp Hq. rewrite chars_of_merged by done.
  unfold flat. simpl. by rewrite app_nil_r.
Qed.

(** *** Stretches *)

Lemma stretch_tail (x : token) (rest : list token) : stretch (x :: rest) -> stretch rest.
Proof.
  intros [Hne Hc]. apply list.Forall_cons_1 in Hne as [_ Hne]. simpl in Hc.
  split; [done|]. destruct rest; [constructor|]. simpl.
  by apply list.Forall_cons_1 in Hc as [_ Hc].
Qed.

Lemma stretch_app_r (before seg : list token) : stretch (before ++ seg) -> stretch seg.
Proof.
  induction before as [|x before IH]; [done|]. intros H.
  simpl in H. apply stretch_tail in H. by apply IH.
Qed.

Lemma stretch_app_l (seg after : list token) : stretch (seg ++ after) -> stretch seg.
Proof.
  intros [Hne Hc]. apply Forall_app in Hne as [Hne _]. split; [done|].
  destruct seg as [|x seg]; [constructor|]. simpl in *.
  by apply Forall_app in Hc as [Hc _].
Qed.

Lemma stretch_segment (seg w : list token) : segment_of seg w -> stretch w -> stretch seg.
Proof. intros (b & a & ->) H. by apply stretch_app_r, stretch_app_l in H. Qed.

Lemma stretch_pair (p q : token) (rest : list token) :
  stretch (p :: q :: rest) -> p.2 <> [] /\ q.2 <> [] /\ q.1 = false.
Proof.
  intros [Hne Hc]. apply list.Forall_cons_1 in Hne as [Hp Hne].
  apply list.Forall_cons_1 in Hne as [Hq _]. simpl in Hc.
  by apply list.Forall_cons_1 in Hc as [Hc _].
Qed.

Lemma replace_pair_flat (p q : token) (w : list token) :
  stretch w -> flat (replace_pair p q w) = flat w.
Proof.
  induction w as [| x | rest IH | x y rest Hn IH] using (replace_pair_ind p q);
    intros Hw.
  - done.
  - done.
  - rewrite replace_pair_merge. destruct (stretch_pair _ _ _ Hw) as (Hp & _ & Hq).
    rewrite !flat_cons, chars_of_merged, IH by done || by do 2 apply stretch_tail in Hw.
    by rewrite <- app_assoc.
  - rewrite replace_pair_keep by done. rewrite !(flat_cons x), IH; [done|].
    by apply stretch_tail in Hw.
Qed.

Lemma replace_pair_Forall (P : token -> Prop) (p q : token) (w : list token) :
  (P p -> P (merged p q)) -> Forall P w -> Forall P (replace_pair p q w).
Proof.
  intros Hm.
  induction w as [| x | rest IH | x y rest Hn IH] using (replace_pair_ind p q);
    intros Hw.
  - constructor.
  - done.
  - rewrite replace_pair_merge. apply list.Forall_cons_1 in Hw as [Hp Hw].
    apply list.Forall_cons_1 in Hw as [_ Hw]. constructor; auto.
  - rewrite replace_pair_keep by done. apply list.Forall_cons_1 in Hw as [Hx Hw].
    constructor; auto.
Qed.

Lemma replace_pair_stretch (p q : token) (w : list token) :
  stretch w -> stretch (replace_pair p q w).
Proof.
  intros [Hne Hc]. split.
  - apply replace_pair_Forall; [|done]. unfold merged. simpl.
    intros Hp Happ. apply app_eq_nil in Happ as [? _]. done.
  - destruct w as [|x [|y rest]]; [constructor | constructor |]. simpl in Hc.
    simpl. destruct (decide (x = p /\ y = q)); simpl.
    + apply replace_pair_Forall; [done|]. by apply list.Forall_cons_1 in Hc as [_ Hc].
    + apply (replace_pair_Forall _ p q (y :: rest)); done.
Qed.

(** *** Pairs of the corpus *)

Lemma elem_of_concat {A} (x : A) (ls : list (list A)) :
  x ∈ concat ls -> exists l, x ∈ l /\ l ∈ ls.
Proof.
  induction ls as [|l ls IH]; simpl; intros Hin; [by apply elem_of_nil in Hin|].
  apply elem_of_app in Hin as [Hin|Hin].
  - exists l. split; [done | by left].
  - destruct (IH Hin) as (l' & Hx & Hl'). exists l'. split; [done | by right].
Qed.

Lemma pairs_segment (p q : token) (w : list token) :
  (p, q) ∈ pairs w -> segment_of [p; q] w.
Proof.
  induction w as [|x w IH]; intros Hin; [by apply elem_of_nil in Hin|].
  destruct w as [|y rest]; [by apply elem_of_nil in Hin|].
  change (pairs (x :: y :: rest)) with ((x, y) :: pairs (y :: rest)) in Hin.
  apply elem_of_cons in Hin as [Heq|Hin].
  - injection Heq as -> ->. by exists [], rest.
  - destruct (IH Hin) as (b & a & Hw). exists (x :: b), a. simpl. by rewrite Hw.
Qed.

Lemma all_pairs_segment (p q : token) (c : list (list token)) :
  (p, q) ∈ all_pairs c -> exists w, w ∈ c /\ (p, q) ∈ pairs w.
Proof.
  unfold all_pairs. intros Hin. apply elem_of_concat in Hin as (prs & Hin & Hprs).
  apply list_elem_of_fmap in Hprs as (w & -> & Hw). by exists w.
Qed.

Lemma better_fold (prs l : list (token * token)) (acc : option (token * token * nat))
    (pr : token * token) (n : nat) :
  foldl (better prs) acc l = Some (pr, n) -> acc = Some (pr, n) \/ pr ∈ l.
Proof.
  revert acc. induction l as [|x l IH]; intros acc Hf; simpl in Hf; [by left|].
  destruct (IH _ Hf) as [Hacc|Hin]; [|right; by right].
  unfold better in Hacc. destruct acc as [[pr0 m]|].
  - destruct (decide (m < frequency x prs)%nat).
    + injection Hacc as -> _. right. by left.
    + by left.
  - injection Hacc as -> _. right. by left.
Qed.

Lemma best_pair_occurs (c : list (list token)) (p q : token) (n : nat) :
  best_pair c = Some (p, q, n) -> (p, q) ∈ all_pairs c.
Proof.
  unfold best_pair. intros H. by apply better_fold in H as [H|H].
Qed.

Lemma next_merge_occurs (target : nat) (st : state) (p q : token) :
  next_merge target st = Some (p, q) -> (p, q) ∈ all_pairs (corpus st).
Proof.
  unfold next_merge. destruct (decide (target <= size (vocab st))%nat) as [|_]; [done|].
  destruct (best_pair (corpus st)) as [[[p' q'] k]|] eqn:Hbest; [|done].
  destruct (decide (2 <= k)%nat) as [_|]; [|done]. intros [= -> ->].
  by eapply best_pair_occurs.
Qed.

(** *** The invariant *)

Lemma single_chars_canonical (seg1 seg2 : list token) :
  Forall (fun t => length t.2 = 1%nat) seg1 ->
  Forall (fun t => length t.2 = 1%nat) seg2 ->
  flat seg1 = flat seg2 -> seg1 = seg2.
Proof.
  intros H1. revert seg2. induction H1 as [|[b1 s1] seg1 Hs1 _ IH]; intros seg2 H2 Hflat.
  - destruct H2 as [|[b2 s2] seg2 Hs2 _]; [done|].
    destruct s2 as [|c [|]]; done.
  - destruct H2 as [|[b2 s2] seg2 Hs2 H2].
    + destruct s1 as [|c [|]]; done.
    + destruct s1 as [|c1 [|]]; try done. destruct s2 as [|c2 [|]]; try done.
      rewrite !flat_cons in Hflat. unfold chars_of in Hflat. simpl in Hflat.
      injection Hflat as -> -> Hflat. f_equal. by apply IH.
Qed.

Lemma split_word_single (w : list ascii) :
  Forall (fun t : token => length t.2 = 1%nat) (split_word w).
Proof.
  unfold split_word. apply list.Forall_forall. intros t Ht.
  apply elem_of_lookup_imap_1 in Ht as (i & c & -> & _). done.
Qed.

Lemma split_word_stretch (w : list ascii) : stretch (split_word w).
Proof.
  split.
  - eapply list.Forall_impl; [apply split_word_single|]. intros [b [|c cs]]; done.
  - unfold split_word. destruct w as [|c w]; [constructor|].
    rewrite imap_cons. simpl. apply list.Forall_forall. intros t Ht.
    apply elem_of_lookup_imap_1 in Ht as (i & c' & -> & _). done.
Qed.

Lemma Forall_segment {A} (P : A -> Prop) (seg w : list A) :
  (exists before after, w = before ++ seg ++ after) -> Forall P w -> Forall P seg.
Proof.
  intros (b & a & ->) H. apply Forall_app in H as [_ H]. by apply Forall_app in H as [H _].
Qed.

Lemma init_invariant (words : list (list ascii)) : invariant (init words).
Proof.
  split; simpl.
  - apply list.Forall_fmap, list.Forall_forall. intros w _. apply split_word_stretch.
  - intros w1 w2 seg1 seg2 Hw1 Hw2 Hs1 Hs2 Hflat.
    apply list_elem_of_fmap in Hw1 as (u1 & -> & _).
    apply list_elem_of_fmap in Hw2 as (u2 & -> & _).
    apply single_chars_canonical; [| |done].
    + by eapply Forall_segment; [apply Hs1 | apply split_word_single].
    + by eapply Forall_segment; [apply Hs2 | apply split_word_single].
  - intros v w seg Hv Hlen. exfalso.
    apply elem_of_list_to_set, elem_of_concat in Hv as (w' & Hv & Hw').
    apply list_elem_of_fmap in Hw' as (u & -> & _).
    pose proof (proj1 (list.Forall_forall _ _) (split_word_single u) v Hv) as H1.
    simpl in H1. lia.
Qed.

(** The merged token of a pair that occurs in the corpus is not yet in the
    vocabulary. *)
Lemma merged_is_new (st : state) (p q : token) :
  invariant st -> (p, q) ∈ all_pairs (corpus st) -> merged p q ∉ vocab st.
Proof.
  intros Hinv Hocc Hin.
  apply all_pairs_segment in Hocc as (w & Hw & Hpq).
  apply pairs_segment in Hpq.
  assert (Hst : stretch [p; q]).
  { eapply stretch_segment; [done|].
    by apply (proj1 (list.Forall_forall _ _) (inv_stretch _ Hinv) w). }
  destruct (stretch_pair _ _ _ Hst) as (Hp & Hq & Hc).
  apply (inv_vocab _ Hinv (merged p q) w [p; q]); try done.
  - unfold merged. simpl. rewrite length_app.
    destruct p.2, q.2; simpl; try done. lia.
  - by apply flat_pair.
Qed.

Lemma merge_step_invariant (st : state) (p q : token) :
  invariant st -> (p, q) ∈ all_pairs (corpus st) -> invariant (merge_step p q st).
Proof.
  intros Hinv Hocc.
  assert (Hstretch : forall w, w ∈ corpus st -> stretch w).
  { intros w Hw. by apply (proj1 (list.Forall_forall _ _) (inv_stretch _ Hinv) w). }
  split; simpl.
  - apply list.Forall_fmap, list.Forall_forall. intros w Hw.
    by apply replace_pair_stretch, Hstretch.
  - intros w1' w2' seg1' seg2' Hw1 Hw2 Hs1 Hs2 Hflat.
    apply list_elem_of_fmap in Hw1 as (w1 & -> & Hw1).
    apply list_elem_of_fmap in Hw2 as (w2 & -> & Hw2).
    apply replace_pair_segment in Hs1 as (seg1 & Hs1 & <-).
    apply replace_pair_segment in Hs2 as (seg2 & Hs2 & <-).
    rewrite !replace_pair_flat in Hflat
      by (eapply stretch_segment; [done | by apply Hstretch]).
    by rewrite (inv_canonical _ Hinv w1 w2 seg1 seg2).
  - intros v w' seg' Hv Hlen Hw' Hs' Hseg' Hflat.
    apply list_elem_of_fmap in Hw' as (w & -> & Hw).
    apply replace_pair_segment in Hs' as (seg & Hs & <-).
    rewrite replace_pair_flat in Hflat
      by (eapply stretch_segment; [done | by apply Hstretch]).
    pose proof (replace_pair_length p q seg) as Hle.
    apply elem_of_union in Hv as [Hv|Hv].
    + apply elem_of_singleton in Hv. subst v.
      apply all_pairs_segment in Hocc as (w0 & Hw0 & Hpq).
      apply pairs_segment in Hpq.
      assert (Hst : stretch [p; q])
        by (eapply stretch_segment; [done | by apply Hstretch]).
      destruct (stretch_pair _ _ _ Hst) as (Hp & _ & Hc).
      rewrite <- flat_pair in Hflat by done.
      rewrite (inv_canonical _ Hinv w w0 seg [p; q]) in Hseg' by done.
      rewrite replace_pair_merge in Hseg'. simpl in Hseg'. lia.
    + apply (inv_vocab _ Hinv v w seg); try done. lia.
Qed.

(** *** The states of a construction *)

Lemma trace_invariant (fuel target : nat) (st s : state) :
  invariant st -> s ∈ trace fuel target st -> invariant s.
Proof.
  revert st. induction fuel as [|fuel IH]; intros st Hinv Hs; simpl in Hs.
  - apply list_elem_of_singleton in Hs. by subst.
  - apply elem_of_cons in Hs as [->|Hs]; [done|].
    destruct (next_merge target st) as [[p q]|] eqn:Hnext;
      [|by apply elem_of_nil in Hs].
    apply (IH (merge_step p q st)); [|done].
    apply merge_step_invariant; [done|]. by eapply next_merge_occurs.
Qed.

Lemma trace_consecutive (fuel target i : nat) (st s s' : state) :
  trace fuel target st !! i = Some s ->
  trace fuel target st !! S i = Some s' ->
  exists p q, next_merge target s = Some (p, q) /\ s' = merge_step p q s.
Proof.
  revert st i. induction fuel as [|fuel IH]; intros st i Hs Hs'; simpl in *.
  - destruct i; done.
  - destruct (next_merge target st) as [[p q]|] eqn:Hnext; [|by destruct i].
    destruct i as [|i].
    + simpl in Hs. injection Hs as <-. exists p, q. split; [done|].
      destruct fuel; simpl in Hs'; by injection Hs' as <-.
    + by apply (IH (merge_step p q st) i).
Qed.

Lemma merge_step_size (st : state) (p q : token) :
  merged p q ∉ vocab st ->
  size (vocab (merge_step p q st)) = S (size (vocab st))
  /\ vocab st ⊆ vocab (merge_step p q st).
Proof.
  intros Hnew. simpl. split; [|set_solver].
  rewrite size_union by set_solver. by rewrite size_singleton.
Qed.

(** *** The fuel is enough *)

Lemma concat_replace_length (p q : token) (c : list (list token)) :
  (length (concat (replace_pair p q <$> c)) <= length (concat c))%nat.
Proof.
  induction c as [|w c IH]; csimpl; [done|].
  rewrite !length_app. pose proof (replace_pair_length p q w). lia.
Qed.

Lemma merge_step_shorter (st : state) (p q : token) :
  (p, q) ∈ all_pairs (corpus st) ->
  (tokens_left (merge_step p q st) < tokens_left st)%nat.
Proof.
  unfold tokens_left, all_pairs. simpl. generalize (corpus st). intros c.
  induction c as [|w c IH]; csimpl; intros Hin; [by apply elem_of_nil in Hin|].
  rewrite !length_app. apply elem_of_app in Hin as [Hin|Hin].
  - pose proof (replace_pair_shorter p q w Hin).
    pose proof (concat_replace_length p q c). lia.
  - pose proof (replace_pair_length p q w). specialize (IH Hin). lia.
Qed.

Lemma last_cons_any {A} (x : A) (l : list A) (d d' : A) :
  List.last (x :: l) d = List.last (x :: l) d'.
Proof. revert x. induction l as [|y l IH]; intros x; [done|]. apply (IH y). Qed.

Lemma trace_unfold (fuel target : nat) (st : state) :
  exists rest, trace fuel target st = st :: rest.
Proof. destruct fuel; simpl; eauto. Qed.

Lemma trace_ends (fuel target : nat) (st : state) :
  (tokens_left st <= fuel)%nat ->
  next_merge target (List.last (trace fuel target st) st) = None.
Proof.
  revert st. induction fuel as [|fuel IH]; intros st Hfuel.
  - simpl. destruct (next_merge target st) as [[p q]|] eqn:Hnext; [|done].
    apply next_merge_occurs, merge_step_shorter in Hnext. lia.
  - cbn [trace]. destruct (next_merge target st) as [[p q]|] eqn:Hnext; [|done].
    pose proof (merge_step_shorter st p q (next_merge_occurs _ _ _ _ Hnext)) as Hlt.
    specialize (IH (merge_step p q st) ltac:(lia)).
    destruct (trace_unfold fuel target (merge_step p q st)) as (rest & Htr).
    rewrite Htr in *.
    change (List.last (st :: merge_step p q st :: rest) st)
      with (List.last (merge_step p q st :: rest) st).
    by rewrite (last_cons_any _ _ st (merge_step p q st)).
Qed.

(** The construction stops only when the vocabulary has the target size or
    no pair occurs more than once. *)
Lemma build_vocabulary_ends (words : list (list ascii)) (target : nat) :
  next_merge target (build_vocabulary words target) = None.
Proof. unfold build_vocabulary, construction. by apply trace_ends. Qed.

(** *** The statement about merge steps *)

Lemma construction_invariant (words : list (list ascii)) (target i : nat) (st : state) :
  construction words target !! i = Some st -> invariant st.
Proof.
  intros Hi.
  apply (trace_invariant (tokens_left (init words)) target (init words));
    [apply init_invariant|].
  by eapply list_elem_of_lookup_2.
Qed.

Lemma construction_step (words : list (list ascii)) (target i : nat) (st st' : state) :
  construction words target !! i = Some st ->
  construction words target !! S i = Some st' ->
  exists p q,
    next_merge target st = Some (p, q) /\ st' = merge_step p q st
    /\ merged p q ∉ vocab st.
Proof.
  intros Hi Hi'.
  destruct (trace_consecutive _ _ _ _ _ _ Hi Hi') as (p & q & Hnext & ->).
  exists p, q. split; [done|]. split; [done|].
  apply merged_is_new; [by eapply construction_invariant|].
  by eapply next_merge_occurs.
Qed.

(** C8: in the construction of a vocabulary from any corpus, every merge
    step puts one token into the vocabulary that was not in it, so the
    number of entries grows by exactly one with each merge; between any two
    states of the construction the vocabulary only grows, by as many entries
    as there are merges between them. *)
Theorem merge_adds_one_entry (words : list (list ascii)) (target : nat) :
  (forall i st st',
     construction words target !! i = Some st ->
     construction words target !! S i = Some st' ->
     (exists p q, st' = merge_step p q st /\ merged p q ∉ vocab st)
     /\ size (vocab st') = S (size (vocab st))
     /\ vocab st ⊆ vocab st')
  /\ (forall i k st st',
        construction words target !! i = Some st ->
        construction words target !! (i + k)%nat = Some st' ->
        vocab st ⊆ vocab st'
        /\ size (vocab st') = (size (vocab st) + k)%nat).
Proof.
  assert (Hstep : forall i st st',
     construction words target !! i = Some st ->
     construction words target !! S i = Some st' ->
     (exists p q, st' = merge_step p q st /\ merged p q ∉ vocab st)
     /\ size (vocab st') = S (size (vocab st))
     /\ vocab st ⊆ vocab st').
  { intros i st st' Hi Hi'.
    destruct (construction_step _ _ _ _ _ Hi Hi') as (p & q & _ & -> & Hnew).
    split; [by exists p, q|]. by apply merge_step_size. }
  split; [exact Hstep|].
  intros i k. induction k as [|k IH]; intros st st' Hi Hk.
  - rewrite Nat.add_0_r in Hk. rewrite Hi in Hk. injection Hk as <-.
    split; [done | lia].
  - replace (i + S k)%nat with (S (i + k)) in Hk by lia.
    destruct (construction words target !! (i + k)%nat) as [mid|] eqn:Hmid.
    + destruct (IH st mid Hi eq_refl) as [Hsub Hsize].
      destruct (Hstep _ _ _ Hmid Hk) as (_ & Hsize' & Hsub').
      split; [by etrans | lia].
    + apply lookup_ge_None in Hmid. apply lookup_lt_Some in Hk. lia.
Qed.

Abbreviation chars := list_ascii_of_string.

(** The corpus ["banana"] with target size 4: the pair met first among the
    most frequent ones is (##a, ##n), and merging it gives the corpus
    b ##an ##an ##a and the vocabulary {b, ##a, ##n, ##an}. *)
Lemma banana_construction :
  corpus <$> construction [banana] 4
    = [[[(true, chars "b"); (false, chars "a"); (false, chars "n");
         (false, chars "a"); (false, chars "n"); (false, chars "a")]];
       [[(true, chars "b"); (false, chars "an"); (false, chars "an");
         (false, chars "a")]]]
  /\ vocab <$> construction [banana] 4
     = [list_to_set [(true, chars "b"); (false, chars "a"); (false, chars "n")];
        list_to_set [(true, chars "b"); (false, chars "a"); (false, chars "n");
                     (false, chars "an")]]
  /\ merges (build_vocabulary [banana] 4) = [((false, chars "a"), (false, chars "n"))].
Proof. split; [|split]; vm_compute; reflexivity. Qed.

Lemma merge_adds_one_entry_witness :
  construction [banana] 4 !! 0%nat = Some (init [banana])
  /\ construction [banana] 4 !! 1%nat
     = Some (merge_step (false, chars "a") (false, chars "n") (init [banana]))
  /\ size (vocab (merge_step (false, chars "a") (false, chars "n") (init [banana])))
     = S (size (vocab (init [banana])))
  /\ vocab (init [banana])
     ⊆ vocab (merge_step (false, chars "a") (false, chars "n") (init [banana])).
Proof.
  assert (H0 : construction [banana] 4 !! 0%nat = Some (init [banana])) by reflexivity.
  assert (H1 : construction [banana] 4 !! 1%nat
               = Some (merge_step (false, chars "a") (false, chars "n") (init [banana])))
    by (vm_compute; reflexivity).
  split; [exact H0|]. split; [exact H1|].
  exact (proj2 (proj1 (merge_adds_one_entry [banana] 4) 0%nat _ _ H0 H1)).
Defined.

End BPEFacts.

(** * Further facts about the aligner *)

Module AlignerMore.
Import Aligner AlignerFacts.

Section WithTokeniser.
Variable tokeniser : Tokeniser.
Variable no_tag : Z.

Lemma masked_app {A} (xs ys : list A) (m n : list bool) :
  length xs = length m ->
  masked (xs ++ ys) (m ++ n) = masked xs m ++ masked ys n.
Proof.
  intros Hlen. unfold masked.
  rewrite zip_with_app by done. by rewrite list.filter_app, fmap_app.
Qed.

Lemma filter_all {A} (P : A -> Prop) `{forall x, Decision (P x)} (l : list A) :
  (forall x, x ∈ l -> P x) -> filter P l = l.
Proof.
  induction l as [|x l IH]; intros Hall; [done|].
  rewrite filter_cons_True by (apply Hall; by left).
  f_equal. apply IH. intros y Hy. apply Hall. by right.
Qed.

Lemma masked_true {A} (x : A) (xs : list A) (m : list bool) :
  masked (x :: xs) (true :: m) = x :: masked xs m.
Proof.
  unfold masked. change (zip (x :: xs) (true :: m)) with ((x, true) :: zip xs m).
  by rewrite filter_cons_True.
Qed.

Lemma masked_false {A} (x : A) (xs : list A) (m : list bool) :
  masked (x :: xs) (false :: m) = masked xs m.
Proof.
  unfold masked. change (zip (x :: xs) (false :: m)) with ((x, false) :: zip xs m).
  by rewrite filter_cons_False.
Qed.

Lemma masked_replicate_false {A} (x : A) (k : nat) :
  masked (replicate k x) (replicate k false) = [].
Proof. induction k as [|k IH]; [done|]. simpl. by rewrite masked_false. Qed.

Lemma masked_first_then {A} (x y : A) (n : nat) :
  masked (first_then x y n) (first_then true false n)
  = if Nat.eqb n 0 then [] else [x].
Proof.
  destruct n as [|n]; [done|]. simpl.
  by rewrite masked_true, masked_replicate_false.
Qed.

Lemma masked_words (pairs : list (Z * string)) :
  masked (concat (word_aligned_tags tokeniser no_tag <$> pairs))
              (concat (word_tag_mask tokeniser <$> pairs))
  = (filter (fun tw => subwords tokeniser tw.2 <> []) pairs).*1.
Proof.
  induction pairs as [|[t w] pairs IH]; [done|]. csimpl.
  rewrite masked_app.
  2:{ unfold word_aligned_tags, word_tag_mask. by rewrite !first_then_length. }
  rewrite IH. unfold word_aligned_tags, word_tag_mask. simpl.
  rewrite masked_first_then.
  destruct (subwords tokeniser w) as [|z zs] eqn:Hw; simpl.
  - rewrite filter_cons_False; [done|]. simpl. rewrite Hw. by intros H.
  - rewrite filter_cons_True; [done|]. simpl. by rewrite Hw.
Qed.

Lemma masked_sentence (tokens : list string) (tags : list Z) (k : nat) :
  let s := align_sentence tokeniser no_tag tokens tags in
  masked (aligned_tags s ++ replicate k no_tag) (tag_mask s ++ replicate k false)
  = (filter (fun tw => subwords tokeniser tw.2 <> []) (zip tags tokens)).*1.
Proof.
  intros s. unfold s. rewrite masked_app.
  2:{ pose proof (align_sentence_lengths tokeniser no_tag tokens tags) as [H1 H2]. lia. }
  rewrite masked_replicate_false, app_nil_r.
  rewrite align_sentence_spec. simpl.
  change (masked ([no_tag] ++ (concat (word_aligned_tags tokeniser no_tag <$> zip tags tokens) ++ [no_tag]))
            ([false] ++ (concat (word_tag_mask tokeniser <$> zip tags tokens) ++ [false])) = 
          (filter (fun tw => subwords tokeniser tw.2 <> []) (zip tags tokens)).*1).
  rewrite masked_app by done.
  rewrite masked_app.
  2:{ apply concat_length_eq. intros [t w]. unfold word_aligned_tags, word_tag_mask.
      by rewrite !first_then_length. }
  rewrite masked_words, !masked_false. simpl.
  by rewrite app_nil_r.
Qed.

Lemma masked_sentence_all (tokens : list string) (tags : list Z) (k : nat) :
  length tokens = length tags ->
  Forall (fun w => subwords tokeniser w <> []) tokens ->
  let s := align_sentence tokeniser no_tag tokens tags in
  masked (aligned_tags s ++ replicate k no_tag) (tag_mask s ++ replicate k false) = tags.
Proof.
  intros Hlen Hsub s. unfold s. rewrite masked_sentence. rewrite filter_all.
  - apply fst_zip. lia.
  - intros [t w] Hin. simpl.
    apply (proj1 (list.Forall_forall _ _) Hsub).
    apply (list_elem_of_fmap_2 snd) in Hin. simpl in Hin.
    rewrite snd_zip in Hin by lia. done.
Qed.


Lemma off_carrier_first_then (t : Z) (n : nat) :
  Forall2 (fun (x : Z) (b : bool) => b = false -> x = no_tag)
          (first_then t no_tag n) (first_then true false n).
Proof.
  destruct n as [|n]; [constructor|]. simpl. constructor; [done|].
  induction n as [|n IH]; simpl; by constructor.
Qed.

Lemma off_carrier_sentence (tokens : list string) (tags : list Z) (k : nat) :
  let s := align_sentence tokeniser no_tag tokens tags in
  Forall2 (fun (x : Z) (b : bool) => b = false -> x = no_tag)
          (aligned_tags s ++ replicate k no_tag) (tag_mask s ++ replicate k false).
Proof.
  intros s. unfold s. rewrite align_sentence_spec. simpl.
  constructor; [done|]. rewrite <- !app_assoc.
  apply Forall2_app.
  - induction (zip tags tokens) as [|[t w] pairs IH]; csimpl; [constructor|].
    apply Forall2_app; [|done]. apply off_carrier_first_then.
  - simpl. constructor; [done|]. induction k as [|k IH]; simpl; by constructor.
Qed.

(** X2: Wherever the tag mask of a row is [False], the aligned tag at that
    position is [no_tag]: the positions the loss leaves out never hold a
    word's tag. *)
Theorem off_carrier_is_no_tag (text_tokens : list (list string))
    (text_tags : list (list Z))
    (t_indexes : list (list Z)) (t_token_mask : list (list bool))
    (t_aligned_tags : list (list Z)) (t_tag_mask : list (list bool))
    (i j : nat) (row_tags : list Z) (row_mask : list bool) :
  get_aligned_tokens_and_tags tokeniser no_tag text_tokens text_tags
    = Ok (t_indexes, t_token_mask, t_aligned_tags, t_tag_mask) ->
  t_aligned_tags !! i = Some row_tags ->
  t_tag_mask !! i = Some row_mask ->
  row_mask !! j = Some false ->
  row_tags !! j = Some no_tag.
Proof.
  intros Hrun Ht Hm Hj.
  destruct (decide (zip text_tokens text_tags = [])) as [Hnil|Hne].
  { by rewrite get_aligned_tokens_and_tags_empty in Hrun. }
  rewrite get_aligned_tokens_and_tags_ok in Hrun by done. cbv zeta in Hrun.
  injection Hrun as <- <- <- <-.
  rewrite list_lookup_fmap in Ht. rewrite list_lookup_fmap in Hm.
  destruct (aligned_sentences tokeniser no_tag text_tokens text_tags !! i)
    as [s|] eqn:Hs; [|done].
  simpl in Ht, Hm. injection Ht as <-. injection Hm as <-.
  unfold aligned_sentences in Hs. rewrite list_lookup_fmap in Hs.
  destruct (zip text_tokens text_tags !! i) as [[tokens tags]|]; [|done].
  simpl in Hs. injection Hs as <-.
  unfold padded_aligned_tags, padded_tag_mask, pad_to in *.
  destruct (Forall2_lookup_r _ _ _ _ _ (off_carrier_sentence tokens tags _) Hj)
    as (x & Hx & Himp).
  rewrite Hx. f_equal. by apply Himp.
Qed.

(** X3: The four outputs have one row per pair of [zip(text_tokens,
    text_tags)]: as many rows as the shorter of the two lists has
    sentences. *)
Theorem one_row_per_zipped_sentence (text_tokens : list (list string))
    (text_tags : list (list Z))
    (t_indexes : list (list Z)) (t_token_mask : list (list bool))
    (t_aligned_tags : list (list Z)) (t_tag_mask : list (list bool)) :
  get_aligned_tokens_and_tags tokeniser no_tag text_tokens text_tags
    = Ok (t_indexes, t_token_mask, t_aligned_tags, t_tag_mask) ->
  length t_indexes = (length text_tokens `min` length text_tags)%nat
  /\ length t_token_mask = (length text_tokens `min` length text_tags)%nat
  /\ length t_aligned_tags = (length text_tokens `min` length text_tags)%nat
  /\ length t_tag_mask = (length text_tokens `min` length text_tags)%nat.
Proof.
  intros Hrun.
  destruct (decide (zip text_tokens text_tags = [])) as [Hnil|Hne].
  { by rewrite get_aligned_tokens_and_tags_empty in Hrun. }
  rewrite get_aligned_tokens_and_tags_ok in Hrun by done. cbv zeta in Hrun.
  injection Hrun as <- <- <- <-.
  unfold aligned_sentences. by rewrite !length_fmap, !length_zip_with.
Qed.


Lemma filter_none {A} (P : A -> Prop) `{forall x, Decision (P x)} (l : list A) :
  (forall x, x ∈ l -> ~ P x) -> filter P l = [].
Proof.
  induction l as [|x l IH]; intros Hnone; [done|].
  rewrite filter_cons_False by (apply Hnone; by left).
  apply IH. intros y Hy. apply Hnone. by right.
Qed.

Lemma length_masked {A} (xs : list A) (mask : list bool) :
  length xs = length mask ->
  length (masked xs mask) = length (filter (fun b => b = true) mask).
Proof.
  revert mask. induction xs as [|x xs IH]; intros [|[] mask] Hlen; try done.
  - rewrite masked_true, filter_cons_True by done. simpl. f_equal. apply IH.
    simpl in Hlen. lia.
  - rewrite masked_false, filter_cons_False by done. apply IH. simpl in Hlen. lia.
Qed.

Lemma mask_sum_rows (m : nat) (pairs : list (list string * list Z)) :
  mask_sum (padded_tag_mask m
              <$> ((fun tt => align_sentence tokeniser no_tag tt.1 tt.2) <$> pairs))
  = length (filter (fun tw : Z * string => subwords tokeniser tw.2 <> [])
              (concat ((fun tt => zip tt.2 tt.1) <$> pairs))).
Proof.
  unfold mask_sum. induction pairs as [|[tokens tags] pairs IH]; [done|]. csimpl.
  rewrite !list.filter_app, !length_app, IH. f_equal.
  unfold padded_tag_mask, pad_to.
  pose proof (align_sentence_lengths tokeniser no_tag tokens tags) as [Hl1 Hl2].
  rewrite <- (length_masked
                (aligned_tags (align_sentence tokeniser no_tag tokens tags)
                   ++ replicate (m - length (indexes (align_sentence tokeniser no_tag tokens tags)))
                        no_tag))
    by (rewrite !length_app, !length_replicate; lia).
  by rewrite masked_sentence, length_fmap.
Qed.

(** X22: The number of [True] entries of the returned tag mask, by which the
    caller divides the summed error, is the number of (tag, word) pairs of
    the zipped sentences whose word has a sub-word; it is 0 when no word
    of the batch has one, as in a batch of empty sentences. *)
Theorem tag_mask_sum_counts_carried_tags (text_tokens : list (list string))
    (text_tags : list (list Z))
    (t_indexes : list (list Z)) (t_token_mask : list (list bool))
    (t_aligned_tags : list (list Z)) (t_tag_mask : list (list bool)) :
  get_aligned_tokens_and_tags tokeniser no_tag text_tokens text_tags
    = Ok (t_indexes, t_token_mask, t_aligned_tags, t_tag_mask) ->
  mask_sum t_tag_mask
  = length (filter (fun tw : Z * string => subwords tokeniser tw.2 <> [])
              (concat ((fun tt => zip tt.2 tt.1) <$> zip text_tokens text_tags)))
  /\ (Forall (Forall (fun w => subwords tokeniser w = [])) text_tokens ->
      mask_sum t_tag_mask = 0%nat).
Proof.
  intros Hrun.
  destruct (decide (zip text_tokens text_tags = [])) as [Hnil|Hne].
  { by rewrite get_aligned_tokens_and_tags_empty in Hrun. }
  rewrite get_aligned_tokens_and_tags_ok in Hrun by done. cbv zeta in Hrun.
  injection Hrun as <- <- <- <-.
  unfold aligned_sentences. rewrite mask_sum_rows. split; [done|].
  intros Hnone.
  replace (filter (fun tw : Z * string => subwords tokeniser tw.2 <> [])
             (concat ((fun tt => zip tt.2 tt.1) <$> zip text_tokens text_tags)))
    with (@nil (Z * string)); [done|].
  symmetry. apply filter_none. intros [t w] Hin. simpl.
  intros Hw. apply Hw. clear Hw.
  apply BPEFacts.elem_of_concat in Hin as (pairs & Hin & Hpairs).
  apply list_elem_of_fmap in Hpairs as ([tokens tags] & -> & Hzip).
  simpl in Hin.
  apply (list_elem_of_fmap_2 fst) in Hzip. simpl in Hzip.
  assert (Htokens : tokens ∈ text_tokens).
  { apply list_elem_of_lookup in Hzip as (n & Hn). rewrite list_lookup_fmap in Hn.
    destruct (zip text_tokens text_tags !! n) as [[a b]|] eqn:Hz; [|done].
    simpl in Hn. injection Hn as ->.
    apply lookup_zip_with_Some in Hz as (x & y & Heq & Hx & Hy).
    injection Heq as -> ->. by apply list_elem_of_lookup_2 in Hx. }
  assert (Hw : w ∈ tokens).
  { apply (list_elem_of_fmap_2 snd) in Hin. simpl in Hin.
    apply list_elem_of_lookup in Hin as (n & Hn). rewrite list_lookup_fmap in Hn.
    destruct (zip tags tokens !! n) as [[a b]|] eqn:Hz; [|done].
    simpl in Hn. injection Hn as ->.
    apply lookup_zip_with_Some in Hz as (x & y & Heq & Hx & Hy).
    injection Heq as -> ->. by apply list_elem_of_lookup_2 in Hy. }
  exact (proj1 (list.Forall_forall _ _)
           (proj1 (list.Forall_forall _ _) Hnone tokens Htokens) w Hw).
Qed.

End WithTokeniser.

Import Demo.

Lemma tag_mask_sum_counts_carried_tags_witness :
  Aligner.get_aligned_tokens_and_tags Demo.tokeniser PAD [[]; [EmptyString]] [[]; [VERB]]
  = Ok ([[101; 102]; [101; 102]], [[true; true]; [true; true]],
        [[PAD; PAD]; [PAD; PAD]], [[false; false]; [false; false]])
  /\ mask_sum [[false; false]; [false; false]]
     = length (filter (fun tw : Z * string => subwords Demo.tokeniser tw.2 <> [])
                 (concat ((fun tt : list string * list Z => zip tt.2 tt.1)
                            <$> zip [[]; [EmptyString]] [[]; [VERB]])))
  /\ (Forall (Forall (fun w => subwords Demo.tokeniser w = [])) [[]; [EmptyString]] ->
      mask_sum [[false; false]; [false; false]] = 0%nat).
Proof.
  split; [reflexivity|].
  apply (tag_mask_sum_counts_carried_tags Demo.tokeniser PAD
           [[]; [EmptyString]] [[]; [VERB]]
           [[101; 102]; [101; 102]] [[true; true]; [true; true]]
           [[PAD; PAD]; [PAD; PAD]] [[false; false]; [false; false]]).
  reflexivity.
Defined.


Lemma off_carrier_is_no_tag_witness :
  Aligner.get_aligned_tokens_and_tags Demo.tokeniser PAD
    [["I"; "don't"; "like"; "it"; "."]] [[PRON; VERB; ADP; PROP; DOT]]
  = Ok ([[101; 146; 1274; 112; 189; 1176; 1122; 119; 102]],
        [[true; true; true; true; true; true; true; true; true]],
        [[PAD; PRON; VERB; PAD; PAD; ADP; PROP; DOT; PAD]],
        [[false; true; true; false; false; true; true; true; false]])
  /\ [false; true; true; false; false; true; true; true; false] !! 3%nat = Some false
  /\ [PAD; PRON; VERB; PAD; PAD; ADP; PROP; DOT; PAD] !! 3%nat = Some PAD.
Proof.
  split; [reflexivity|]. split; [reflexivity|].
  apply (off_carrier_is_no_tag Demo.tokeniser PAD
           [["I"; "don't"; "like"; "it"; "."]] [[PRON; VERB; ADP; PROP; DOT]]
           [[101; 146; 1274; 112; 189; 1176; 1122; 119; 102]]
           [[true; true; true; true; true; true; true; true; true]]
           [[PAD; PRON; VERB; PAD; PAD; ADP; PROP; DOT; PAD]]
           [[false; true; true; false; false; true; true; true; false]]
           0%nat 3%nat _ [false; true; true; false; false; true; true; true; false]);
    reflexivity.
Defined.

Lemma one_row_per_zipped_sentence_witness :
  Aligner.get_aligned_tokens_and_tags Demo.tokeniser PAD
    [["I"]; ["it"]; ["."]] [[PRON]; [PROP]]
  = Ok ([[101; 146; 102]; [101; 1122; 102]], [[true; true; true]; [true; true; true]],
        [[PAD; PRON; PAD]; [PAD; PROP; PAD]], [[false; true; false]; [false; true; false]])
  /\ length [[101; 146; 102]; [101; 1122; 102]] = 2%nat.
Proof.
  split; [reflexivity|].
  apply (one_row_per_zipped_sentence Demo.tokeniser PAD
           [["I"]; ["it"]; ["."]] [[PRON]; [PROP]]
           [[101; 146; 102]; [101; 1122; 102]] [[true; true; true]; [true; true; true]]
           [[PAD; PRON; PAD]; [PAD; PROP; PAD]] [[false; true; false]; [false; true; false]]).
  reflexivity.
Defined.


End AlignerMore.

(** * Further facts about the run over the store *)

Module HeapMore.
Import Heap HeapFacts.

(** X5: What a call returns depends on the items of the argument lists only,
    not on which list objects hold them: two stores that hold the same
    batch, with or without list objects shared between sentences, give
    the same result (the same tensors, or the same exception). *)
Theorem result_ignores_sharing (tokeniser : Tokeniser) (no_tag : Z)
    (h1 h2 : heap) (text_tokens1 text_tags1 text_tokens2 text_tags2 : value)
    (wss : list (list string)) (tss : list (list Z)) :
  holds_batch h1 text_tokens1 text_tags1 wss tss ->
  holds_batch h2 text_tokens2 text_tags2 wss tss ->
  (get_aligned_tokens_and_tags tokeniser text_tokens1 text_tags1 (VInt no_tag) h1).1
  = (get_aligned_tokens_and_tags tokeniser text_tokens2 text_tags2 (VInt no_tag) h2).1.
Proof.
  intros H1 H2.
  rewrite (run_refines tokeniser no_tag h1 _ _ _ _ H1).
  by rewrite (run_refines tokeniser no_tag h2 _ _ _ _ H2).
Qed.

Lemma result_ignores_sharing_witness :
  holds_batch Shared.shared (VList 3%positive) (VList 4%positive)
    [["I"; "like"]; ["I"; "like"]] [[1; 2]; [1; 2]]
  /\ holds_batch Shared.copied (VList 5%positive) (VList 6%positive)
    [["I"; "like"]; ["I"; "like"]] [[1; 2]; [1; 2]]
  /\ (get_aligned_tokens_and_tags Demo.tokeniser (VList 3%positive) (VList 4%positive)
        (VInt 0) Shared.shared).1
     = (get_aligned_tokens_and_tags Demo.tokeniser (VList 5%positive) (VList 6%positive)
        (VInt 0) Shared.copied).1.
Proof.
  assert (Hs : holds_batch Shared.shared (VList 3%positive) (VList 4%positive)
                 [["I"; "like"]; ["I"; "like"]] [[1; 2]; [1; 2]]).
  { exists 3%positive, 4%positive, [1%positive; 1%positive], [2%positive; 2%positive].
    repeat split; try reflexivity; repeat constructor. }
  assert (Hc : holds_batch Shared.copied (VList 5%positive) (VList 6%positive)
                 [["I"; "like"]; ["I"; "like"]] [[1; 2]; [1; 2]]).
  { exists 5%positive, 6%positive, [1%positive; 2%positive], [3%positive; 4%positive].
    repeat split; try reflexivity; repeat constructor. }
  split; [exact Hs|]. split; [exact Hc|].
  exact (result_ignores_sharing Demo.tokeniser 0 Shared.shared Shared.copied
           (VList 3%positive) (VList 4%positive) (VList 5%positive) (VList 6%positive)
           [["I"; "like"]; ["I"; "like"]] [[1; 2]; [1; 2]] Hs Hc).
Defined.

End HeapMore.

(** * Facts about tags as indexes *)

Module TaggingFacts.
Import Py Tagging Aligner AlignerFacts AlignerMore.

Lemma index_of_lookup {A} `{EqDecision A} (x : A) (l : list A) (i : nat) :
  index_of x l = Some i -> l !! i = Some x.
Proof.
  revert i. induction l as [|y l IH]; intros i; simpl; [done|].
  destruct (decide (x = y)) as [->|Hne]; [by intros [= <-]|].
  destruct (index_of x l) as [k|]; [|done]. intros [= <-]. by apply IH.
Qed.

Lemma index_of_elem {A} `{EqDecision A} (x : A) (l : list A) :
  x ∈ l -> exists i, index_of x l = Some i.
Proof.
  induction l as [|y l IH]; intros Hin; [by apply elem_of_nil in Hin|].
  simpl. destruct (decide (x = y)) as [->|Hne]; [by eexists|].
  apply elem_of_cons in Hin as [->|Hin]; [done|].
  destruct (IH Hin) as (i & ->). by eexists.
Qed.

Lemma index_of_not_elem {A} `{EqDecision A} (x : A) (l : list A) :
  x ∉ l -> index_of x l = None.
Proof.
  induction l as [|y l IH]; intros Hin; [done|]. simpl.
  destruct (decide (x = y)) as [->|Hne]; [exfalso; apply Hin; by left|].
  rewrite IH; [done|]. intros H. apply Hin. by right.
Qed.

Lemma getitem_nat {A} (l : list A) (i : nat) (x : A) :
  l !! i = Some x -> getitem l (Z.of_nat i) = Ok x.
Proof.
  intros Hl. unfold getitem.
  destruct (Z.ltb_spec (Z.of_nat i) 0); [lia|].
  destruct (Z.ltb_spec (Z.of_nat i) 0); [lia|].
  by rewrite Nat2Z.id, Hl.
Qed.

Lemma index_getitem {A} `{EqDecision A} (l : list A) (x : A) (z : Z) :
  index l x = Ok z -> getitem l z = Ok x.
Proof.
  unfold index. destruct (index_of x l) as [i|] eqn:Hi; [|done].
  intros [= <-]. by apply getitem_nat, index_of_lookup.
Qed.

Lemma index_lookup {A} `{EqDecision A} (l : list A) (x : A) (z : Z) :
  index l x = Ok z -> exists i, z = Z.of_nat i /\ l !! i = Some x.
Proof.
  unfold index. destruct (index_of x l) as [i|] eqn:Hi; [|done].
  intros [= <-]. exists i. split; [done|]. by apply index_of_lookup.
Qed.

Lemma index_elem {A} `{EqDecision A} (l : list A) (x : A) :
  x ∈ l -> exists z, index l x = Ok z.
Proof. intros Hx. unfold index. destruct (index_of_elem x l Hx) as (i & ->). by eexists. Qed.

Lemma index_not_elem {A} `{EqDecision A} (l : list A) (x : A) :
  x ∉ l -> index l x = Raise ValueError.
Proof. intros Hx. unfold index. by rewrite index_of_not_elem. Qed.

Lemma index_raises {A} `{EqDecision A} (l : list A) (x : A) (e : exn) :
  index l x = Raise e -> e = ValueError.
Proof. unfold index. destruct (index_of x l); [done|]. by intros [= <-]. Qed.

Lemma elem_of_sorted_set (x : string) (xs : list string) : x ∈ sorted_set xs <-> x ∈ xs.
Proof. unfold sorted_set. by rewrite merge_sort_Permutation, elem_of_remove_dups. Qed.

Lemma NoDup_sorted_set (xs : list string) : NoDup (sorted_set xs).
Proof. unfold sorted_set. rewrite merge_sort_Permutation. apply NoDup_remove_dups. Qed.

Lemma elem_of_concat_2 {A} (x : A) (l : list A) (ls : list (list A)) :
  l ∈ ls -> x ∈ l -> x ∈ concat ls.
Proof.
  intros Hl Hx. induction ls as [|l' ls IH]; [by apply elem_of_nil in Hl|].
  simpl. apply elem_of_app. apply elem_of_cons in Hl as [->|Hl]; [by left|].
  right. by apply IH.
Qed.

Lemma elem_of_tag_set (train_y : list (list string)) (text : list string) (tag : string) :
  text ∈ train_y -> tag ∈ text -> tag ∈ tag_set train_y.
Proof.
  intros Htext Htag. unfold tag_set. right. apply elem_of_sorted_set.
  by apply (elem_of_concat_2 _ text).
Qed.

(** *** Comprehensions that may raise *)

Lemma map_result_Forall2 {A B} (f : A -> result B) (l : list A) (ys : list B) :
  map_result f l = Ok ys <-> Forall2 (fun x y => f x = Ok y) l ys.
Proof.
  revert ys. induction l as [|x l IH]; intros ys; simpl.
  - split; [intros [= <-]; constructor | by inversion 1].
  - destruct (f x) as [y|e] eqn:Hx.
    + destruct (map_result f l) as [ys'|e] eqn:Hl.
      * split.
        -- intros [= <-]. constructor; [done|]. by apply IH.
        -- inversion 1 as [|? y' ? ys'' Hy Hys]; subst.
           rewrite Hx in Hy. injection Hy as <-.
           apply IH in Hys. by injection Hys as <-.
      * split; [done|]. inversion 1 as [|? y' ? ys'' Hy Hys]; subst.
        by apply IH in Hys.
    + split; [done|]. inversion 1 as [|? y' ? ys'' Hy Hys]; subst. by rewrite Hx in Hy.
Qed.

Lemma map_result_returns {A B} (f : A -> result B) (l : list A) :
  (forall x, x ∈ l -> exists y, f x = Ok y) -> exists ys, map_result f l = Ok ys.
Proof.
  induction l as [|x l IH]; intros Hf; [by eexists|]. simpl.
  destruct (Hf x) as (y & ->); [by left|].
  destruct IH as (ys & ->); [intros z Hz; apply Hf; by right|]. by eexists.
Qed.

Lemma map_result_raises {A B} (f : A -> result B) (l : list A) (e0 : exn) :
  (forall x e, x ∈ l -> f x = Raise e -> e = e0) ->
  (exists x, x ∈ l /\ f x = Raise e0) ->
  map_result f l = Raise e0.
Proof.
  induction l as [|x l IH]; intros Honly (x0 & Hin & Hx0); [by apply elem_of_nil in Hin|].
  simpl. destruct (f x) as [y|e] eqn:Hx.
  - rewrite IH; [done| |].
    + intros z e Hz. apply Honly. by right.
    + apply elem_of_cons in Hin as [->|Hin]; [by rewrite Hx in Hx0|]. by exists x0.
  - f_equal. apply (Honly x); [by left|done].
Qed.

Lemma map_result_raised {A B} (f : A -> result B) (l : list A) (e : exn) :
  map_result f l = Raise e -> exists x, x ∈ l /\ f x = Raise e.
Proof.
  induction l as [|x l IH]; simpl; [done|].
  destruct (f x) as [y|e'] eqn:Hx.
  - destruct (map_result f l) as [ys|e'] eqn:Hl; [done|]. intros [= ->].
    destruct IH as (z & Hz & Hfz); [done|]. exists z. split; [by right|done].
  - intros [= ->]. exists x. split; [by left|done].
Qed.

Lemma map_result_fmap {A B} (f : A -> result B) (g : A -> B) (l : list A) :
  (forall x, x ∈ l -> f x = Ok (g x)) -> map_result f l = Ok (g <$> l).
Proof.
  induction l as [|x l IH]; intros Hf; [done|]. simpl.
  rewrite Hf by (by left). rewrite IH; [done|]. intros y Hy. apply Hf. by right.
Qed.

(** *** Indexing and reading back *)

Lemma index_row_read_back (ts : list string) (text : list string) (row : list Z) :
  map_result (index ts) text = Ok row -> readable ts row = Ok text.
Proof.
  intros Hrow. apply map_result_Forall2 in Hrow. apply map_result_Forall2.
  apply Forall2_flip. eapply Forall2_impl; [exact Hrow|].
  intros tag z. apply index_getitem.
Qed.

(** X6: When every tag of the texts is in the tag set, indexing the tags
    raises nothing and reading the indexes back through the tag set gives
    the texts' tags again. *)
Theorem indexed_tags_read_back (ts : list string) (train_y : list (list string)) :
  (forall text tag, text ∈ train_y -> tag ∈ text -> tag ∈ ts) ->
  exists rows,
    index_tags ts train_y = Ok rows
    /\ map_result (readable ts) rows = Ok train_y.
Proof.
  intros Hall.
  destruct (map_result_returns (map_result (index ts)) train_y) as (rows & Hrows).
  { intros text Htext. apply map_result_returns. intros tag Htag.
    apply index_elem. by apply (Hall text). }
  exists rows. split; [done|].
  apply map_result_Forall2 in Hrows. apply map_result_Forall2.
  apply Forall2_flip. eapply Forall2_impl; [exact Hrows|].
  intros text row. apply index_row_read_back.
Qed.

(** X7: A tag that is not in the tag set makes the indexing raise
    [ValueError]: no index is made up for it. *)
Theorem missing_tag_raises (ts : list string) (train_y : list (list string))
    (text : list string) (tag : string) :
  text ∈ train_y -> tag ∈ text -> tag ∉ ts ->
  index_tags ts train_y = Raise ValueError.
Proof.
  intros Htext Htag Hmiss. unfold index_tags.
  apply map_result_raises.
  - intros text' e _ He. apply map_result_raised in He as (tag' & _ & He).
    by apply index_raises in He.
  - exists text. split; [done|]. apply map_result_raises.
    + intros tag' e _. apply index_raises.
    + exists tag. split; [done|]. by apply index_not_elem.
Qed.

(** X8: With the tag set computed from the texts, indexing raises nothing,
    every index reads back as its tag, and a tag gets index 0, the
    default [no_tag] of the aligner, only if it is the string ['PAD']. *)
Theorem computed_tag_set_indexes_all (train_y : list (list string)) :
  exists rows,
    index_tags (tag_set train_y) train_y = Ok rows
    /\ Forall2 (Forall2 (fun (tag : string) (z : Z) =>
                  getitem (tag_set train_y) z = Ok tag
                  /\ 0 <= z < Z.of_nat (length (tag_set train_y))
                  /\ (z = 0 <-> tag = "PAD")))
         train_y rows.
Proof.
  destruct (map_result_returns (map_result (index (tag_set train_y))) train_y)
    as (rows & Hrows).
  { intros text Htext. apply map_result_returns. intros tag Htag.
    apply index_elem. by apply (elem_of_tag_set train_y text). }
  exists rows. split; [done|].
  apply map_result_Forall2 in Hrows. eapply Forall2_impl; [exact Hrows|].
  intros text row Hrow. apply map_result_Forall2 in Hrow.
  eapply Forall2_impl; [exact Hrow|]. intros tag z Hz. simpl in Hz.
  split; [by apply index_getitem|].
  unfold index in Hz. destruct (index_of tag (tag_set train_y)) as [i|] eqn:Hi; [|done].
  injection Hz as <-. split.
  - apply index_of_lookup, lookup_lt_Some in Hi. lia.
  - unfold tag_set in Hi. simpl in Hi.
    destruct (decide (tag = "PAD")) as [->|Hne].
    + injection Hi as <-. done.
    + destruct (index_of tag (sorted_set (concat train_y))); [|done].
      injection Hi as <-. split; [lia|done].
Qed.

(** *** Reading aligned tags *)

Lemma aligned_tags_from (tokeniser : Tokeniser) (no_tag : Z)
    (tokens : list string) (tags : list Z) (k : nat) :
  Forall (fun z => z = no_tag \/ z ∈ tags)
    (aligned_tags (align_sentence tokeniser no_tag tokens tags) ++ replicate k no_tag).
Proof.
  rewrite align_sentence_spec. simpl.
  constructor; [by left|]. rewrite <- app_assoc. apply Forall_app. split.
  - apply Forall_concat, list.Forall_fmap, list.Forall_forall.
    intros [t w] Hin. simpl. unfold word_aligned_tags. simpl.
    apply (list_elem_of_fmap_2 fst) in Hin. simpl in Hin.
    assert (Ht : t ∈ tags).
    { apply list_elem_of_lookup in Hin as (j & Hj).
      rewrite list_lookup_fmap in Hj.
      destruct (zip tags tokens !! j) as [[t' w']|] eqn:Hz; [|done].
      simpl in Hj. injection Hj as ->.
      apply lookup_zip_with_Some in Hz as (x & y & Heq & Hx & Hy).
      injection Heq as -> ->. by apply list_elem_of_lookup_2 in Hx. }
    destruct (length (subwords tokeniser w)) as [|n]; [constructor|]. simpl.
    constructor; [by right|]. apply list.Forall_forall. intros z Hz.
    apply elem_of_replicate in Hz as [-> _]. by left.
  - simpl. constructor; [by left|]. apply list.Forall_forall. intros z Hz.
    apply elem_of_replicate in Hz as [-> _]. by left.
Qed.

Lemma masked_fmap {A B} (f : A -> B) (xs : list A) (mask : list bool) :
  masked (f <$> xs) mask = f <$> masked xs mask.
Proof.
  revert mask. induction xs as [|x xs IH]; intros [|[] mask]; try done.
  - change (f <$> x :: xs) with (f x :: (f <$> xs)).
    rewrite !masked_true, IH. done.
  - change (f <$> x :: xs) with (f x :: (f <$> xs)).
    rewrite !masked_false, IH. done.
Qed.

(** X9: Reading the aligned tags of a sentence back through the tag set, as
    the notebook prints them: when the tag set starts with the padding
    name, [no_tag] is 0, the sentence has one tag per word and every word
    has a sub-word, the readable row has the sentence's tags at the
    positions of the tag mask, in order, and the padding name at every
    other position. *)
Theorem readable_aligned_tags (tokeniser : Tokeniser) (pad : string) (ts : list string)
    (train_x train_y : list (list string)) (train_y_indexed : list (list Z))
    (i : nat) (tokens tags : list string) :
  index_tags (pad :: ts) train_y = Ok train_y_indexed ->
  train_x !! i = Some tokens ->
  train_y !! i = Some tags ->
  length tokens = length tags ->
  Forall (fun w => subwords tokeniser w <> []) tokens ->
  exists t_indexes t_token_mask t_aligned_tags t_tag_mask row_tags row_mask names,
    get_aligned_tokens_and_tags tokeniser 0 train_x train_y_indexed
      = Ok (t_indexes, t_token_mask, t_aligned_tags, t_tag_mask)
    /\ t_aligned_tags !! i = Some row_tags
    /\ t_tag_mask !! i = Some row_mask
    /\ readable (pad :: ts) row_tags = Ok names
    /\ masked names row_mask = tags
    /\ forall j, row_mask !! j = Some false -> names !! j = Some pad.
Proof.
  intros Hidx Hx Hy Hlen Hsub.
  apply map_result_Forall2 in Hidx.
  destruct (Forall2_lookup_l _ _ _ _ _ Hidx Hy) as (idxs & Hrow & Htags).
  apply map_result_Forall2 in Htags.
  assert (Hne : zip train_x train_y_indexed <> []).
  { intros Hnil. apply zip_nil_iff in Hnil as [-> | ->]; done. }
  rewrite get_aligned_tokens_and_tags_ok by done. cbv zeta.
  set (m := batch_max_len tokeniser 0 train_x train_y_indexed).
  set (s := align_sentence tokeniser 0 tokens idxs).
  set (g := fun z : Z => default pad ((pad :: ts) !! Z.to_nat z)).
  do 4 eexists.
  exists (padded_aligned_tags 0 m s), (padded_tag_mask m s), (g <$> padded_aligned_tags 0 m s).
  split; [reflexivity|].
  rewrite !list_lookup_fmap, (aligned_sentences_lookup _ _ _ _ _ _ _ Hx Hrow). simpl.
  fold s. split; [done|]. split; [done|].
  assert (Hlen' : length idxs = length tags).
  { symmetry. by apply Forall2_length in Htags. }
  assert (Hg : forall tag z, index (pad :: ts) tag = Ok z ->
                 getitem (pad :: ts) z = Ok (g z) /\ g z = tag).
  { intros tag z Hz. destruct (index_lookup _ _ _ Hz) as (n & -> & Hn).
    unfold g. rewrite Nat2Z.id, Hn. simpl. split; [|done]. by apply getitem_nat. }
  assert (Hread : readable (pad :: ts) (padded_aligned_tags 0 m s)
                  = Ok (g <$> padded_aligned_tags 0 m s)).
  { apply map_result_fmap. intros z Hz.
    unfold padded_aligned_tags, pad_to in Hz.
    pose proof (aligned_tags_from tokeniser 0 tokens idxs
                  (m - length (indexes s))) as Hfrom.
    fold s in Hfrom.
    destruct (proj1 (list.Forall_forall _ _) Hfrom z Hz) as [->|Hin]; [done|].
    apply list_elem_of_lookup in Hin as (n & Hn).
    destruct (Forall2_lookup_r _ _ _ _ _ Htags Hn) as (tag & _ & Htag).
    by destruct (Hg tag z Htag). }
  split; [done|]. split.
  - rewrite masked_fmap. unfold padded_aligned_tags, padded_tag_mask, pad_to.
    unfold s. rewrite masked_sentence_all by (done || lia).
    apply list_eq. intros n. rewrite list_lookup_fmap.
    destruct (tags !! n) as [tag|] eqn:Hn.
    + destruct (Forall2_lookup_l _ _ _ _ _ Htags Hn) as (z & -> & Hz). simpl.
      f_equal. by destruct (Hg tag z Hz).
    + apply lookup_ge_None in Hn. rewrite (proj2 (lookup_ge_None idxs n)); [done|lia].
  - intros j Hj. rewrite list_lookup_fmap.
    unfold padded_aligned_tags, padded_tag_mask, pad_to in *.
    destruct (Forall2_lookup_r _ _ _ _ _ (off_carrier_sentence tokeniser 0 tokens idxs _) Hj)
      as (x & Hx' & Himp).
    fold s in Hx'. rewrite Hx'. simpl. by rewrite (Himp eq_refl).
Qed.

(** *** The statements on the notebook's examples *)

Lemma indexed_tags_read_back_witness :
  (forall text tag,
      text ∈ [["PRON"; "VERB"; "PROP"; "."]; ["PRON"; "VERB"; "ADP"; "PROP"; "."]] ->
      tag ∈ text -> tag ∈ example_tag_set)
  /\ exists rows,
       index_tags example_tag_set
         [["PRON"; "VERB"; "PROP"; "."]; ["PRON"; "VERB"; "ADP"; "PROP"; "."]] = Ok rows
       /\ map_result (readable example_tag_set) rows
          = Ok [["PRON"; "VERB"; "PROP"; "."]; ["PRON"; "VERB"; "ADP"; "PROP"; "."]].
Proof.
  assert (Hall : forall text tag,
      text ∈ [["PRON"; "VERB"; "PROP"; "."]; ["PRON"; "VERB"; "ADP"; "PROP"; "."]] ->
      tag ∈ text -> tag ∈ example_tag_set).
  { intros text tag Htext Htag.
    assert (Hdec : Forall (fun text => Forall (fun tag => tag ∈ example_tag_set) text)
              [["PRON"; "VERB"; "PROP"; "."]; ["PRON"; "VERB"; "ADP"; "PROP"; "."]]).
    { apply (bool_decide_unpack _). vm_compute. exact I. }
    exact (proj1 (list.Forall_forall _ _)
             (proj1 (list.Forall_forall _ _) Hdec text Htext) tag Htag). }
  split; [exact Hall|].
  exact (indexed_tags_read_back example_tag_set
           [["PRON"; "VERB"; "PROP"; "."]; ["PRON"; "VERB"; "ADP"; "PROP"; "."]] Hall).
Defined.

Lemma missing_tag_raises_witness :
  (["PRON"; "VERB"; "ADP"; "PROP"; "."]
     ∈ [["PRON"; "VERB"; "PROP"; "."]; ["PRON"; "VERB"; "ADP"; "PROP"; "."]])
  /\ ("ADP" ∈ ["PRON"; "VERB"; "ADP"; "PROP"; "."])
  /\ ("ADP" ∉ ["PAD"; "PRON"; "VERB"; "PROP"; "."])
  /\ index_tags ["PAD"; "PRON"; "VERB"; "PROP"; "."]
       [["PRON"; "VERB"; "PROP"; "."]; ["PRON"; "VERB"; "ADP"; "PROP"; "."]]
     = Raise ValueError.
Proof.
  assert (H1 : ["PRON"; "VERB"; "ADP"; "PROP"; "."]
    ∈ [["PRON"; "VERB"; "PROP"; "."]; ["PRON"; "VERB"; "ADP"; "PROP"; "."]]).
  { apply (bool_decide_unpack _). vm_compute. exact I. }
  assert (H2 : "ADP" ∈ ["PRON"; "VERB"; "ADP"; "PROP"; "."]).
  { apply (bool_decide_unpack _). vm_compute. exact I. }
  assert (H3 : "ADP" ∉ ["PAD"; "PRON"; "VERB"; "PROP"; "."]).
  { apply (bool_decide_unpack _). vm_compute. exact I. }
  split; [exact H1|]. split; [exact H2|]. split; [exact H3|].
  exact (missing_tag_raises ["PAD"; "PRON"; "VERB"; "PROP"; "."]
           [["PRON"; "VERB"; "PROP"; "."]; ["PRON"; "VERB"; "ADP"; "PROP"; "."]]
           ["PRON"; "VERB"; "ADP"; "PROP"; "."] "ADP" H1 H2 H3).
Defined.

Lemma readable_aligned_tags_witness :
  index_tags ("PAD" :: ["PRON"; "VERB"; "ADP"; "PROP"; "."])
    [["PRON"; "VERB"; "PROP"; "."]; ["PRON"; "VERB"; "ADP"; "PROP"; "."]]
  = Ok [[1; 2; 4; 5]; [1; 2; 3; 4; 5]]
  /\ [["I"; "like"; "it"; "."]; ["I"; "don't"; "like"; "it"; "."]] !! 1%nat
     = Some ["I"; "don't"; "like"; "it"; "."]
  /\ [["PRON"; "VERB"; "PROP"; "."]; ["PRON"; "VERB"; "ADP"; "PROP"; "."]] !! 1%nat
     = Some ["PRON"; "VERB"; "ADP"; "PROP"; "."]
  /\ length ["I"; "don't"; "like"; "it"; "."] = length ["PRON"; "VERB"; "ADP"; "PROP"; "."]
  /\ Forall (fun w => subwords Demo.tokeniser w <> []) ["I"; "don't"; "like"; "it"; "."]
  /\ exists t_indexes t_token_mask t_aligned_tags t_tag_mask row_tags row_mask names,
       get_aligned_tokens_and_tags Demo.tokeniser 0
         [["I"; "like"; "it"; "."]; ["I"; "don't"; "like"; "it"; "."]]
         [[1; 2; 4; 5]; [1; 2; 3; 4; 5]]
       = Ok (t_indexes, t_token_mask, t_aligned_tags, t_tag_mask)
       /\ t_aligned_tags !! 1%nat = Some row_tags
       /\ t_tag_mask !! 1%nat = Some row_mask
       /\ readable ("PAD" :: ["PRON"; "VERB"; "ADP"; "PROP"; "."]) row_tags = Ok names
       /\ masked names row_mask = ["PRON"; "VERB"; "ADP"; "PROP"; "."]
       /\ forall j, row_mask !! j = Some false -> names !! j = Some "PAD".
Proof.
  assert (Hsub : Forall (fun w => subwords Demo.tokeniser w <> [])
                   ["I"; "don't"; "like"; "it"; "."]).
  { repeat constructor; discriminate. }
  split; [reflexivity|]. split; [reflexivity|]. split; [reflexivity|].
  split; [reflexivity|]. split; [exact Hsub|].
  exact (readable_aligned_tags Demo.tokeniser "PAD" ["PRON"; "VERB"; "ADP"; "PROP"; "."]
           [["I"; "like"; "it"; "."]; ["I"; "don't"; "like"; "it"; "."]]
           [["PRON"; "VERB"; "PROP"; "."]; ["PRON"; "VERB"; "ADP"; "PROP"; "."]]
           [[1; 2; 4; 5]; [1; 2; 3; 4; 5]] 1%nat
           ["I"; "don't"; "like"; "it"; "."] ["PRON"; "VERB"; "ADP"; "PROP"; "."]
           eq_refl eq_refl eq_refl eq_refl Hsub).
Defined.

(** The tag set computed for the notebook's training texts. *)
Lemma tag_set_of_train_y :
  tag_set [["PRON"; "VERB"; "PROP"; "."]; ["PRON"; "VERB"; "PROP"; "."];
           ["PRON"; "VERB"; "ADP"; "PROP"; "."]; ["PRON"; "VERB"; "ADP"; "PROP"; "."]]
  = ["PAD"; "."; "ADP"; "PRON"; "PROP"; "VERB"].
Proof. vm_compute. reflexivity. Qed.

End TaggingFacts.

(** * Facts about masked positions and the scoring loop *)

Module MaskingFacts.
Import Masking AlignerFacts AlignerMore.

Lemma masked_nil_r {A} (xs : list A) : masked xs [] = [].
Proof. by destruct xs. Qed.

Lemma masked_positions_from (p : Z -> bool) (row : list Z) (s : nat) :
  let ps := masked (Z.of_nat <$> seq s (length row)) (p <$> row) in
  StronglySorted Z.lt ps
  /\ Forall (fun z => Z.of_nat s <= z) ps
  /\ forall z, z ∈ ps <->
       exists j x, z = Z.of_nat (s + j) /\ row !! j = Some x /\ p x = true.
Proof.
  revert s. induction row as [|x row IH]; intros s; simpl.
  - split; [constructor|]. split; [constructor|]. intros z. split.
    + intros Hz. by apply elem_of_nil in Hz.
    + by intros (j & y & _ & Hj & _).
  - destruct (IH (S s)) as (Hsorted & Hge & Hin).
    change (Z.of_nat <$> s :: seq (S s) (length row))
      with (Z.of_nat s :: (Z.of_nat <$> seq (S s) (length row))).
    change (p <$> x :: row) with (p x :: (p <$> row)).
    destruct (p x) eqn:Hpx.
    + rewrite masked_true. split; [|split].
      * constructor; [done|]. eapply list.Forall_impl; [exact Hge|].
        intros z Hz. simpl in Hz. lia.
      * constructor; [lia|]. eapply list.Forall_impl; [exact Hge|].
        intros z Hz. simpl in Hz. lia.
      * intros z. rewrite elem_of_cons, Hin. split.
        -- intros [->|(j & y & -> & Hj & Hy)].
           ++ exists 0%nat, x. split; [f_equal; lia|done].
           ++ exists (S j), y. split; [f_equal; lia|done].
        -- intros ([|j] & y & -> & Hj & Hy).
           ++ left. f_equal. lia.
           ++ right. exists j, y. split; [f_equal; lia|done].
    + rewrite masked_false. split; [done|split].
      * eapply list.Forall_impl; [exact Hge|]. intros z Hz. simpl in Hz. lia.
      * intros z. rewrite Hin. split.
        -- intros (j & y & -> & Hj & Hy). exists (S j), y. split; [f_equal; lia|done].
        -- intros ([|j] & y & -> & Hj & Hy).
           ++ simpl in Hj. injection Hj as <-. congruence.
           ++ exists j, y. split; [f_equal; lia|done].
Qed.

Lemma mask_token_positions_eq (mask_token_id : Z) (row : list Z) :
  mask_token_positions mask_token_id row
  = Ok (masked (Z.of_nat <$> seq 0 (length row)) ((fun x => x =? mask_token_id) <$> row)).
Proof.
  unfold mask_token_positions, bool_index, mask_token_mask, token_positions.
  by rewrite decide_True by (by rewrite !length_fmap, length_seq).
Qed.

(** X10: The masked positions are found without an exception, in increasing
    order, and they are exactly the positions of the row that hold the
    mask id. *)
Theorem mask_positions_are_masked (mask_token_id : Z) (row : list Z) :
  exists ps,
    mask_token_positions mask_token_id row = Ok ps
    /\ StronglySorted Z.lt ps
    /\ forall z, z ∈ ps <-> exists j, z = Z.of_nat j /\ row !! j = Some mask_token_id.
Proof.
  rewrite mask_token_positions_eq. eexists. split; [reflexivity|].
  destruct (masked_positions_from (fun x => x =? mask_token_id) row 0)
    as (Hsorted & _ & Hin).
  split; [done|]. intros z. rewrite Hin. split.
  - intros (j & x & -> & Hj & Hx). apply Z.eqb_eq in Hx as ->. by exists j.
  - intros (j & -> & Hj). exists j, mask_token_id. by rewrite Z.eqb_refl.
Qed.

Lemma masked_none {A} (p : Z -> bool) (xs : list A) (row : list Z) :
  (forall x, x ∈ row -> p x = false) -> masked xs (p <$> row) = [].
Proof.
  revert xs. induction row as [|x row IH]; intros xs Hp; [apply masked_nil_r|].
  destruct xs as [|y xs]; [done|].
  change (p <$> x :: row) with (p x :: (p <$> row)).
  rewrite (Hp x) by (by left). rewrite masked_false. apply IH.
  intros z Hz. apply Hp. by right.
Qed.

(** X11: Putting the mask id at one position of a row that holds no mask id:
    the masked positions are then that position alone. *)
Theorem one_mask_one_position (mask_token_id : Z) (row : list Z) (i : nat) :
  (i < length row)%nat ->
  mask_token_id ∉ row ->
  exists masked_row,
    setitem row i mask_token_id = Ok masked_row
    /\ mask_token_positions mask_token_id masked_row = Ok [Z.of_nat i].
Proof.
  intros Hi Hfree. unfold setitem. rewrite decide_True by done.
  eexists. split; [reflexivity|].
  rewrite mask_token_positions_eq. f_equal.
  rewrite length_insert, insert_take_drop by done.
  assert (Hp : forall x, x ∈ row -> (x =? mask_token_id) = false).
  { intros x Hx. apply Z.eqb_neq. intros ->. done. }
  replace (length row) with (i + S (length row - S i))%nat by lia.
  rewrite seq_app, !fmap_app. simpl.
  rewrite masked_app by (by rewrite !length_fmap, length_seq, length_take_le by lia).
  rewrite masked_none.
  2:{ intros x Hx. apply Hp. apply list_elem_of_lookup in Hx as (k & Hk).
      apply lookup_take_Some in Hk as [Hk _]. by apply list_elem_of_lookup_2 in Hk. }
  rewrite Z.eqb_refl, masked_true.
  rewrite masked_none; [done|].
  intros x Hx. apply Hp. apply list_elem_of_lookup in Hx as (k & Hk).
  rewrite lookup_drop in Hk. by apply list_elem_of_lookup_2 in Hk.
Qed.

(** *** The scoring loop *)

Lemma slice_1_m1_lookup {A} (l : list A) (j : nat) (x : A) :
  slice_1_m1 l !! j = Some x -> l !! S j = Some x.
Proof.
  rewrite slice_1_m1_take_drop. intros Hj.
  apply lookup_take_Some in Hj as [Hj _]. by rewrite lookup_drop in Hj.
Qed.

Section WithModel.

Variable mask_token_id : Z.
Variable F : Type.
Variable fadd : F -> F -> F.
Variable zero : F.
Variable token_pseudo_logprob : list Z -> nat -> Z -> F.

Lemma score_step_restores (ids : list Z) (score : F) (i : nat) (token_index : Z) :
  ids !! i = Some token_index ->
  score_step mask_token_id F fadd token_pseudo_logprob (Ok (ids, score)) (i, token_index)
  = Ok (ids, fadd score (token_pseudo_logprob (<[i := mask_token_id]> ids) i token_index)).
Proof.
  intros Hi. pose proof (lookup_lt_Some _ _ _ Hi) as Hlt.
  unfold score_step, setitem. rewrite decide_True by done.
  rewrite decide_True by (by rewrite length_insert).
  by rewrite list_insert_insert_eq, list_insert_id.
Qed.

Lemma score_loop_from (ids : list Z) (rest : list Z) (k : nat) (score : F) :
  (forall j x, rest !! j = Some x -> ids !! S (k + j) = Some x) ->
  foldl (score_step mask_token_id F fadd token_pseudo_logprob) (Ok (ids, score))
    (imap (fun j x => ((1 + (k + j))%nat, x)) rest)
  = Ok (ids, foldl fadd score
               (imap (fun j x => token_pseudo_logprob (<[S (k + j) := mask_token_id]> ids)
                                   (S (k + j)) x) rest)).
Proof.
  revert k score. induction rest as [|x rest IH]; intros k score Hrest; [done|].
  rewrite !imap_cons.
  match goal with
  | |- foldl ?f ?a (?p :: ?l) = _ => change (foldl f a (p :: l)) with (foldl f (f a p) l)
  end.
  match goal with
  | |- _ = Ok (_, foldl ?f ?a (?p :: ?l)) =>
      change (foldl f a (p :: l)) with (foldl f (f a p) l)
  end.
  rewrite score_step_restores.
  2:{ replace (1 + (k + 0))%nat with (S (k + 0)) by lia. by apply Hrest. }
  rewrite (imap_ext _ (fun j x => ((1 + (S k + j))%nat, x)) rest)
    by (intros; simpl; f_equal; lia).
  rewrite IH by (intros j y Hj; rewrite <- (Hrest (S j) y Hj); f_equal; lia).
  replace (1 + (k + 0))%nat with (S (k + 0)) by lia.
  f_equal. f_equal. f_equal.
  apply imap_ext. intros j y _. simpl. by replace (k + S j)%nat with (S (k + j)) by lia.
Qed.

(** X12: The scoring loop raises nothing and leaves the input ids as they
    were before the loop; the score is the sum, from left to right, of one
    log-probability per position between the two markers, each taken from
    a run of the model on the input row with that position alone replaced
    by the mask id. *)
Theorem pseudo_log_likelihood_masks_one_at_a_time (input_ids : list Z) :
  pseudo_log_likelihood mask_token_id F fadd zero token_pseudo_logprob input_ids
  = Ok (input_ids,
        foldl fadd zero (single_mask_logprobs mask_token_id F token_pseudo_logprob input_ids)).
Proof.
  unfold pseudo_log_likelihood, enumerate_from, single_mask_logprobs.
  rewrite (imap_ext _ (fun j x => ((1 + (0 + j))%nat, x)) (slice_1_m1 input_ids)) by done.
  rewrite score_loop_from; [done|].
  intros j x Hj. by apply slice_1_m1_lookup.
Qed.

End WithModel.

(** *** The statements on a row of ids *)

Lemma one_mask_one_position_witness :
  (3 < length example_row)%nat
  /\ (103 ∉ example_row)
  /\ exists masked_row,
       setitem example_row 3 103 = Ok masked_row
       /\ mask_token_positions 103 masked_row = Ok [Z.of_nat 3].
Proof.
  assert (H1 : (3 < length example_row)%nat) by (vm_compute; lia).
  assert (H2 : 103 ∉ example_row).
  { apply (bool_decide_unpack _). vm_compute. exact I. }
  split; [exact H1|]. split; [exact H2|].
  exact (one_mask_one_position 103 example_row 3 H1 H2).
Defined.

End MaskingFacts.

(** * Facts about vocabularies and indexed texts *)

Module VocabFacts.
Import Vocab TaggingFacts.

(** *** The dictionary of a vocabulary *)

Lemma token2index_snoc (l : list string) (x : string) :
  token2index (l ++ [x]) = <[x := length l]> (token2index l).
Proof.
  unfold token2index, enumerate. rewrite imap_app, foldl_app. simpl.
  by rewrite Nat.add_0_r.
Qed.

Lemma token2index_lookup (l : list string) (t : string) (i : nat) :
  token2index l !! t = Some i ->
  l !! i = Some t /\ forall j, l !! j = Some t -> (j <= i)%nat.
Proof.
  revert i. induction l as [|x l IH] using rev_ind; intros i; [done|].
  rewrite token2index_snoc. destruct (decide (x = t)) as [->|Hne].
  - rewrite lookup_insert_eq. intros [= <-]. split.
    + by rewrite lookup_app_r, Nat.sub_diag by lia.
    + intros j Hj. apply lookup_lt_Some in Hj. rewrite length_app in Hj. simpl in Hj. lia.
  - rewrite lookup_insert_ne by done. intros Hi. destruct (IH i Hi) as [Hl Hlast].
    split.
    + by rewrite lookup_app_l by (by apply lookup_lt_Some in Hl).
    + intros j Hj. apply lookup_app_Some in Hj as [Hj|[_ Hj]]; [by apply Hlast|].
      destruct (j - length l)%nat; simpl in Hj; [congruence|done].
Qed.

Lemma token2index_elem (l : list string) (t : string) :
  t ∈ l -> exists i, token2index l !! t = Some i.
Proof.
  induction l as [|x l IH] using rev_ind; intros Hin; [by apply elem_of_nil in Hin|].
  rewrite token2index_snoc. destruct (decide (x = t)) as [->|Hne].
  - rewrite lookup_insert_eq. by eexists.
  - rewrite lookup_insert_ne by done. apply IH.
    apply elem_of_app in Hin as [Hin|Hin]; [done|].
    apply list_elem_of_singleton in Hin. congruence.
Qed.

Lemma token2index_not_elem (l : list string) (t : string) :
  t ∉ l -> token2index l !! t = None.
Proof.
  intros Hin. destruct (token2index l !! t) as [i|] eqn:Hi; [|done].
  apply token2index_lookup in Hi as [Hi _]. by apply list_elem_of_lookup_2 in Hi.
Qed.

(** *** Filling the array *)

Lemma inner_loop (index : string -> outcome nat) (f : string -> nat) (i : nat)
    (rest : list string) (j0 : nat) (a : list (list Z)) (row : list Z) :
  a !! i = Some row ->
  (j0 + length rest <= length row)%nat ->
  (forall t, t ∈ rest -> index t = Returns (f t)) ->
  foldl (fill_step index i) (Returns a) (imap (fun j x => ((j0 + j)%nat, x)) rest)
  = Returns (<[i := take j0 row ++ ((fun t => Z.of_nat (f t)) <$> rest)
                    ++ drop (j0 + length rest) row]> a).
Proof.
  revert j0 a row. induction rest as [|x rest IH]; intros j0 a row Hi Hlen Hidx.
  - simpl. rewrite Nat.add_0_r, take_drop. by rewrite list_insert_id.
  - rewrite imap_cons.
    match goal with
    | |- foldl ?g ?s (?p :: ?l) = _ => change (foldl g s (p :: l)) with (foldl g (g s p) l)
    end.
    simpl in Hlen.
    assert (Hstep : fill_step index i (Returns a) ((j0 + 0)%nat, x)
                    = Returns (<[i := <[j0 := Z.of_nat (f x)]> row]> a)).
    { unfold fill_step. simpl. rewrite (Hidx x) by (by left).
      unfold setitem2. rewrite Hi, Nat.add_0_r. by rewrite decide_True by lia. }
    rewrite Hstep.
    rewrite (imap_ext _ (fun j y => ((S j0 + j)%nat, y)) rest)
      by (intros; simpl; f_equal; lia).
    rewrite (IH (S j0) _ (<[j0 := Z.of_nat (f x)]> row)).
    + rewrite list_insert_insert_eq. do 2 f_equal.
      rewrite fmap_cons.
      rewrite (take_S_r _ _ (Z.of_nat (f x))) by (apply list_lookup_insert_eq; lia).
      rewrite take_insert_ge by lia.
      rewrite drop_insert_lt by lia.
      replace (j0 + length (x :: rest))%nat with (S j0 + length rest)%nat by (simpl; lia).
      by rewrite <- app_assoc.
    + apply list_lookup_insert_eq. by apply lookup_lt_Some in Hi.
    + rewrite length_insert. lia.
    + intros t Ht. apply Hidx. by right.
Qed.

Lemma text_loop (index : string -> outcome nat) (f : string -> nat) (i : nat)
    (text : list string) (a : list (list Z)) (m : nat) (pad : Z) :
  a !! i = Some (replicate m pad) ->
  (length text <= m)%nat ->
  (forall t, t ∈ text -> index t = Returns (f t)) ->
  foldl (fill_step index i) (Returns a) (enumerate text)
  = Returns (<[i := ((fun t => Z.of_nat (f t)) <$> text)
                    ++ replicate (m - length text) pad]> a).
Proof.
  intros Hi Hlen Hidx. unfold enumerate.
  rewrite (imap_ext _ (fun j x => ((0 + j)%nat, x)) text) by done.
  rewrite (inner_loop index f i text 0 a (replicate m pad)) by (rewrite ?length_replicate; done).
  by rewrite drop_replicate.
Qed.

Lemma fill_from (index : string -> outcome nat) (f : string -> nat) (m : nat) (pad : Z)
    (rest : list (list string)) (filled : list (list Z)) :
  Forall (fun text => (length text <= m)%nat) rest ->
  (forall text t, text ∈ rest -> t ∈ text -> index t = Returns (f t)) ->
  foldl (fun acc p => foldl (fill_step index p.1) acc (enumerate p.2))
    (Returns (filled ++ replicate (length rest) (replicate m pad)))
    (imap (fun i text => ((length filled + i)%nat, text)) rest)
  = Returns (filled ++ ((fun text => ((fun t => Z.of_nat (f t)) <$> text)
                                  ++ replicate (m - length text) pad) <$> rest)).
Proof.
  revert filled. induction rest as [|text rest IH]; intros filled Hlen Hidx; [done|].
  rewrite imap_cons.
  match goal with
  | |- foldl ?g ?s (?p :: ?l) = _ => change (foldl g s (p :: l)) with (foldl g (g s p) l)
  end.
  cbv beta. simpl fst. simpl snd. rewrite Nat.add_0_r.
  apply list.Forall_cons_1 in Hlen as [Hlen1 Hlen].
  rewrite (text_loop index f (length filled) text _ m pad).
  - simpl length. simpl replicate.
    rewrite insert_app_r_alt, Nat.sub_diag by lia. simpl.
    rewrite (imap_ext _ (fun i t => ((length (filled ++ [((fun t => Z.of_nat (f t)) <$> text)
                                  ++ replicate (m - length text) pad]) + i)%nat, t)) rest).
    2:{ intros. simpl. rewrite length_app. simpl. f_equal. lia. }
    rewrite cons_middle, app_assoc.
    rewrite IH; [|done|].
    + by rewrite <- app_assoc.
    + intros text' t Ht. apply Hidx. by right.
  - simpl. by rewrite lookup_app_r, Nat.sub_diag by lia.
  - done.
  - intros t Ht. apply (Hidx text); [by left|done].
Qed.

Lemma fill_full (index : string -> outcome nat) (f : string -> nat) (m : nat) (pad : Z)
    (texts : list (list string)) :
  Forall (fun text => (length text <= m)%nat) texts ->
  (forall text t, text ∈ texts -> t ∈ text -> index t = Returns (f t)) ->
  fill index texts (np_full (length texts) m pad)
  = Returns ((fun text => ((fun t => Z.of_nat (f t)) <$> text)
                          ++ replicate (m - length text) pad) <$> texts).
Proof.
  intros Hlen Hidx. unfold fill, np_full, enumerate.
  exact (fill_from index f m pad texts [] Hlen Hidx).
Qed.

(** *** The indexing cell *)

Lemma vocab_lookup (train_x : list (list string)) (t : string) (i : nat) :
  token2index ("<PAD>" :: Py.sorted_set (concat train_x)) !! t = Some i ->
  ("<PAD>" :: Py.sorted_set (concat train_x)) !! i = Some t
  /\ (i = 0%nat -> t = "<PAD>" /\ "<PAD>" ∉ concat train_x).
Proof.
  intros Hi. apply token2index_lookup in Hi as [Hi Hlast]. split; [done|].
  intros ->. simpl in Hi. injection Hi as <-. split; [done|].
  intros Hin. apply (proj2 (elem_of_sorted_set _ _)) in Hin.
  apply list_elem_of_lookup in Hin as (j & Hj).
  specialize (Hlast (S j) Hj). lia.
Qed.

Lemma vocab_elem (train_x : list (list string)) (text : list string) (t : string) :
  text ∈ train_x -> t ∈ text ->
  exists i, token2index ("<PAD>" :: Py.sorted_set (concat train_x)) !! t = Some i.
Proof.
  intros Htext Ht. apply token2index_elem. right.
  apply elem_of_sorted_set. by apply (elem_of_concat_2 _ text).
Qed.

Lemma index_texts_eq (train_x : list (list string)) :
  train_x <> [] ->
  let v := "<PAD>" :: Py.sorted_set (concat train_x) in
  let d := token2index v in
  let m := max_list (length <$> train_x) in
  exists p,
    d !! "<PAD>" = Some p
    /\ index_texts train_x
       = Returns {| max_len := m; vocab := v; pad_index := p;
                    train_x_indexed :=
                      (fun text => ((fun t => Z.of_nat (default 0%nat (d !! t))) <$> text)
                                   ++ replicate (m - length text) (Z.of_nat p)) <$> train_x |}.
Proof.
  intros Hne v d m. unfold index_texts.
  rewrite AlignerFacts.py_max_spec by (by destruct train_x).
  fold v d m.
  destruct (token2index_elem v "<PAD>") as (p & Hp); [by left|].
  exists p. split; [done|].
  unfold getitem at 1. fold d in Hp. rewrite Hp.
  rewrite (fill_full (getitem d) (fun t => default 0%nat (d !! t))); [done| |].
  - apply list.Forall_forall. intros text Htext. apply max_list_elem_of_le.
    by apply (list_elem_of_fmap_2 length).
  - intros text t Htext Ht. destruct (vocab_elem train_x text t Htext Ht) as (i & Hi).
    unfold getitem. fold v d in Hi. by rewrite Hi.
Qed.

(** X13: Indexing a corpus that has a text raises nothing (no [KeyError], no
    [IndexError]); every text gets a row of [max_len] indexes, and reading
    a row back through the vocabulary gives the text followed by
    ['<PAD>'] up to [max_len], as the notebook prints it. *)
Theorem indexed_texts_read_back (train_x : list (list string)) :
  train_x <> [] ->
  exists c,
    index_texts train_x = Returns c
    /\ length (train_x_indexed c) = length train_x
    /\ forall i text, train_x !! i = Some text ->
         (length text <= max_len c)%nat
         /\ exists row,
              train_x_indexed c !! i = Some row
              /\ length row = max_len c
              /\ Py.map_result (Py.getitem (vocab c)) row
                 = Ok (padded_text (max_len c) text).
Proof.
  intros Hne. destruct (index_texts_eq train_x Hne) as (p & Hp & Hrun).
  cbv zeta in Hrun. eexists. split; [exact Hrun|]. simpl.
  split; [by rewrite length_fmap|].
  intros i text Hi.
  assert (Hlen : (length text <= max_list (length <$> train_x))%nat).
  { apply max_list_elem_of_le, (list_elem_of_fmap_2 length).
    by apply list_elem_of_lookup_2 in Hi. }
  split; [done|]. rewrite list_lookup_fmap, Hi. simpl.
  eexists. split; [reflexivity|]. split.
  { rewrite length_app, length_fmap, length_replicate. lia. }
  apply map_result_Forall2. unfold padded_text. apply Forall2_app.
  - apply Forall2_fmap_l, Forall_Forall2_diag, list.Forall_forall. intros t Ht.
    destruct (vocab_elem train_x text t) as (n & Hn);
      [by apply list_elem_of_lookup_2 in Hi|done|].
    unfold compose. rewrite Hn. simpl. apply getitem_nat. by apply vocab_lookup in Hn as [Hn _].
  - apply Forall2_replicate. apply getitem_nat. by apply vocab_lookup in Hp as [Hp _].
Qed.

(** With no text the cell stops at [max()] with [ValueError], before any
    vocabulary is built. *)
Lemma index_texts_nil : index_texts [] = Raises (Builtin ValueError).
Proof. done. Qed.

(** X14: When no token of the corpus is the string ['<PAD>'], the padding index
    is 0 and an entry of a row is 0 exactly at the positions after the
    text's tokens: comparing the array with [pad_index] finds the padding
    and nothing else. *)
Theorem pad_index_marks_padding (train_x : list (list string)) (c : indexed)
    (i j : nat) (text : list string) (row : list Z) :
  index_texts train_x = Returns c ->
  "<PAD>" ∉ concat train_x ->
  train_x !! i = Some text ->
  train_x_indexed c !! i = Some row ->
  pad_index c = 0%nat
  /\ (row !! j = Some (Z.of_nat (pad_index c))
      <-> (length text <= j < max_len c)%nat).
Proof.
  intros Hrun Hfree Hi Hrow.
  assert (Hne : train_x <> []) by (intros ->; done).
  destruct (index_texts_eq train_x Hne) as (p & Hp & Heq). cbv zeta in Heq.
  rewrite Heq in Hrun. injection Hrun as <-. simpl in *.
  assert (Hp0 : p = 0%nat).
  { apply token2index_lookup in Hp as [Hp _]. destruct p as [|p]; [done|].
    simpl in Hp. apply list_elem_of_lookup_2 in Hp.
    apply (proj1 (elem_of_sorted_set _ _)) in Hp. exfalso. by apply Hfree. }
  split; [done|]. subst p.
  rewrite list_lookup_fmap, Hi in Hrow. simpl in Hrow. injection Hrow as <-.
  assert (Hlen : (length text <= max_list (length <$> train_x))%nat).
  { apply max_list_elem_of_le, (list_elem_of_fmap_2 length).
    by apply list_elem_of_lookup_2 in Hi. }
  destruct (decide (j < length text)%nat) as [Hlt|Hge].
  - rewrite lookup_app_l by (by rewrite length_fmap).
    rewrite list_lookup_fmap. destruct (lookup_lt_is_Some_2 text j Hlt) as (t & Ht).
    rewrite Ht. simpl. split; [|lia]. intros [= Hz]. exfalso.
    destruct (vocab_elem train_x text t) as (n & Hn);
      [by apply list_elem_of_lookup_2 in Hi|by apply list_elem_of_lookup_2 in Ht|].
    rewrite Hn in Hz. simpl in Hz. assert (n = 0%nat) as -> by lia.
    apply vocab_lookup in Hn as [_ Hn]. destruct (Hn eq_refl) as [-> _].
    apply Hfree, (elem_of_concat_2 _ text);
      [by apply list_elem_of_lookup_2 in Hi|by apply list_elem_of_lookup_2 in Ht].
  - rewrite lookup_app_r by (rewrite length_fmap; lia). rewrite length_fmap.
    rewrite lookup_replicate. split; [intros [_ H]; lia|]. intros [_ H]. split; [done|lia].
Qed.

(** X15: When ['<PAD>'] is itself a token of the corpus, the vocabulary holds
    it twice and the dictionary keeps the later place: the padding index
    is not 0, index 0 is in no row of the array, and a ['<PAD>'] token of
    a text is given the padding index. *)
Theorem pad_token_in_corpus (train_x : list (list string)) (c : indexed) :
  index_texts train_x = Returns c ->
  "<PAD>" ∈ concat train_x ->
  pad_index c <> 0%nat
  /\ Forall (Forall (fun z => z <> 0)) (train_x_indexed c)
  /\ forall i j text row,
       train_x !! i = Some text -> train_x_indexed c !! i = Some row ->
       text !! j = Some "<PAD>" -> row !! j = Some (Z.of_nat (pad_index c)).
Proof.
  intros Hrun Hin.
  assert (Hne : train_x <> []) by (intros ->; done).
  destruct (index_texts_eq train_x Hne) as (p & Hp & Heq). cbv zeta in Heq.
  rewrite Heq in Hrun. injection Hrun as <-. simpl.
  assert (Hp0 : p <> 0%nat).
  { intros ->. apply vocab_lookup in Hp as [_ Hp]. by destruct (Hp eq_refl). }
  split; [done|]. split.
  - apply list.Forall_fmap, list.Forall_forall. intros text Htext. simpl.
    apply Forall_app. split.
    + apply list.Forall_fmap, list.Forall_forall. intros t Ht. simpl.
      destruct (vocab_elem train_x text t Htext Ht) as (n & Hn). rewrite Hn. simpl.
      intros Hz. assert (n = 0%nat) as -> by lia.
      apply vocab_lookup in Hn as [_ Hn]. by destruct (Hn eq_refl).
    + apply list.Forall_forall. intros z Hz. apply elem_of_replicate in Hz as [-> _]. lia.
  - intros i j text row Hi Hrow Hj.
    rewrite list_lookup_fmap, Hi in Hrow. simpl in Hrow. injection Hrow as <-.
    rewrite lookup_app_l by (rewrite length_fmap; by apply lookup_lt_Some in Hj).
    rewrite list_lookup_fmap, Hj. simpl. by rewrite Hp.
Qed.

Lemma non_pad_row (f : string -> nat) (p m : nat) (text : list string) :
  (forall t, t ∈ text -> f t <> p) ->
  length (filter (fun b => b = false)
            ((fun z => z =? Z.of_nat p)
               <$> (((fun t => Z.of_nat (f t)) <$> text) ++ replicate m (Z.of_nat p))))
  = length text.
Proof.
  intros Hf. rewrite fmap_app, list.filter_app, length_app.
  replace (filter (fun b => b = false) ((fun z => z =? Z.of_nat p) <$> replicate m (Z.of_nat p)))
    with (@nil bool).
  2:{ symmetry. induction m as [|m IH]; [done|]. simpl.
      rewrite filter_cons_False by (by rewrite Z.eqb_refl). exact IH. }
  simpl. rewrite Nat.add_0_r.
  induction text as [|t text IH]; [done|]. csimpl.
  rewrite filter_cons_True.
  - simpl. f_equal. apply IH. intros t' Ht'. apply Hf. by right.
  - apply Z.eqb_neq. specialize (Hf t ltac:(by left)). lia.
Qed.

Lemma non_pad_rows (f : string -> nat) (p m : nat) (texts : list (list string)) :
  (forall text t, text ∈ texts -> t ∈ text -> f t <> p) ->
  non_pad_count
    (pad_mask ((fun text => ((fun t => Z.of_nat (f t)) <$> text)
                            ++ replicate (m - length text) (Z.of_nat p)) <$> texts) p)
  = length (concat texts).
Proof.
  unfold non_pad_count, pad_mask.
  induction texts as [|text texts IH]; intros Hf; [done|]. csimpl.
  rewrite list.filter_app, !length_app. f_equal.
  - apply non_pad_row. intros t Ht. apply (Hf text); [by left|done].
  - apply IH. intros text' t Ht'. apply Hf. by right.
Qed.

(** X16: When no token of the corpus is the string ['<PAD>'], the number of
    entries of the array that differ from the padding index, by which the
    summed error is divided, is the number of tokens of the corpus. *)
Theorem non_pad_count_is_token_count (train_x : list (list string)) (c : indexed) :
  index_texts train_x = Returns c ->
  "<PAD>" ∉ concat train_x ->
  non_pad_count (pad_mask (train_x_indexed c) (pad_index c)) = length (concat train_x).
Proof.
  intros Hrun Hfree.
  assert (Hne : train_x <> []) by (intros ->; done).
  destruct (index_texts_eq train_x Hne) as (p & Hp & Heq). cbv zeta in Heq.
  rewrite Heq in Hrun. injection Hrun as <-. cbn [train_x_indexed pad_index].
  assert (Hp0 : p = 0%nat).
  { apply token2index_lookup in Hp as [Hp _]. destruct p as [|p]; [done|].
    simpl in Hp. apply list_elem_of_lookup_2 in Hp.
    apply (proj1 (elem_of_sorted_set _ _)) in Hp. exfalso. by apply Hfree. }
  subst p.
  apply (non_pad_rows (fun t => default 0%nat
           (token2index ("<PAD>" :: Py.sorted_set (concat train_x)) !! t))).
  intros text t Htext Ht.
  destruct (vocab_elem train_x text t Htext Ht) as (n & Hn).
  rewrite Hn. simpl. intros ->.
  apply vocab_lookup in Hn as [_ Hn]. destruct (Hn eq_refl) as [-> _].
  by apply Hfree, (elem_of_concat_2 _ text).
Qed.

(** *** The statements on the notebook's texts *)

Lemma non_pad_count_is_token_count_witness :
  index_texts [["I"; "like"; "it"; "."]; ["I"; "don't"; "hate"; "it"; "."]]
  = Returns {| max_len := 5; vocab := ["<PAD>"; "."; "I"; "don't"; "hate"; "it"; "like"];
               pad_index := 0;
               train_x_indexed := [[2; 6; 5; 1; 0]; [2; 3; 4; 5; 1]] |}
  /\ ("<PAD>" ∉ concat [["I"; "like"; "it"; "."]; ["I"; "don't"; "hate"; "it"; "."]])
  /\ non_pad_count (pad_mask [[2; 6; 5; 1; 0]; [2; 3; 4; 5; 1]] 0)
     = length (concat [["I"; "like"; "it"; "."]; ["I"; "don't"; "hate"; "it"; "."]]).
Proof.
  assert (Hrun : index_texts [["I"; "like"; "it"; "."]; ["I"; "don't"; "hate"; "it"; "."]]
    = Returns {| max_len := 5; vocab := ["<PAD>"; "."; "I"; "don't"; "hate"; "it"; "like"];
                 pad_index := 0;
                 train_x_indexed := [[2; 6; 5; 1; 0]; [2; 3; 4; 5; 1]] |})
    by (vm_compute; reflexivity).
  assert (Hfree : "<PAD>" ∉ concat [["I"; "like"; "it"; "."]; ["I"; "don't"; "hate"; "it"; "."]]).
  { apply (bool_decide_unpack _). vm_compute. exact I. }
  split; [exact Hrun|]. split; [exact Hfree|].
  exact (non_pad_count_is_token_count
           [["I"; "like"; "it"; "."]; ["I"; "don't"; "hate"; "it"; "."]] _ Hrun Hfree).
Defined.

Lemma indexed_texts_read_back_witness :
  [["I"; "like"; "it"; "."]; ["I"; "don't"; "hate"; "it"; "."]] <> []
  /\ exists c,
       index_texts [["I"; "like"; "it"; "."]; ["I"; "don't"; "hate"; "it"; "."]] = Returns c
       /\ length (train_x_indexed c) = 2%nat
       /\ forall i text,
            [["I"; "like"; "it"; "."]; ["I"; "don't"; "hate"; "it"; "."]] !! i = Some text ->
            (length text <= max_len c)%nat
            /\ exists row,
                 train_x_indexed c !! i = Some row
                 /\ length row = max_len c
                 /\ Py.map_result (Py.getitem (vocab c)) row
                    = Ok (padded_text (max_len c) text).
Proof.
  split; [discriminate|].
  apply (indexed_texts_read_back
           [["I"; "like"; "it"; "."]; ["I"; "don't"; "hate"; "it"; "."]]).
  discriminate.
Defined.

Lemma pad_index_marks_padding_witness :
  index_texts [["I"; "like"; "it"; "."]; ["I"; "don't"; "hate"; "it"; "."]]
  = Returns {| max_len := 5; vocab := ["<PAD>"; "."; "I"; "don't"; "hate"; "it"; "like"];
               pad_index := 0;
               train_x_indexed := [[2; 6; 5; 1; 0]; [2; 3; 4; 5; 1]] |}
  /\ ("<PAD>" ∉ concat [["I"; "like"; "it"; "."]; ["I"; "don't"; "hate"; "it"; "."]])
  /\ [["I"; "like"; "it"; "."]; ["I"; "don't"; "hate"; "it"; "."]] !! 0%nat
     = Some ["I"; "like"; "it"; "."]
  /\ [[2; 6; 5; 1; 0]; [2; 3; 4; 5; 1]] !! 0%nat = Some [2; 6; 5; 1; 0]
  /\ 0%nat = 0%nat
  /\ ([2; 6; 5; 1; 0] !! 4%nat = Some (Z.of_nat 0)
      <-> (length ["I"; "like"; "it"; "."] <= 4 < 5)%nat).
Proof.
  assert (Hrun : index_texts [["I"; "like"; "it"; "."]; ["I"; "don't"; "hate"; "it"; "."]]
    = Returns {| max_len := 5; vocab := ["<PAD>"; "."; "I"; "don't"; "hate"; "it"; "like"];
                 pad_index := 0;
                 train_x_indexed := [[2; 6; 5; 1; 0]; [2; 3; 4; 5; 1]] |})
    by (vm_compute; reflexivity).
  assert (Hfree : "<PAD>" ∉ concat [["I"; "like"; "it"; "."]; ["I"; "don't"; "hate"; "it"; "."]]).
  { apply (bool_decide_unpack _). vm_compute. exact I. }
  split; [exact Hrun|]. split; [exact Hfree|]. split; [reflexivity|]. split; [reflexivity|].
  exact (pad_index_marks_padding
           [["I"; "like"; "it"; "."]; ["I"; "don't"; "hate"; "it"; "."]] _ 0 4
           ["I"; "like"; "it"; "."] [2; 6; 5; 1; 0] Hrun Hfree eq_refl eq_refl).
Defined.

Lemma pad_token_in_corpus_witness :
  index_texts [["<PAD>"; "A"]; ["B"]]
  = Returns {| max_len := 2; vocab := ["<PAD>"; "<PAD>"; "A"; "B"]; pad_index := 1;
               train_x_indexed := [[1; 2]; [3; 1]] |}
  /\ ("<PAD>" ∈ concat [["<PAD>"; "A"]; ["B"]])
  /\ 1%nat <> 0%nat
  /\ Forall (Forall (fun z => z <> 0)) [[1; 2]; [3; 1]]
  /\ forall i j text row,
       [["<PAD>"; "A"]; ["B"]] !! i = Some text -> [[1; 2]; [3; 1]] !! i = Some row ->
       text !! j = Some "<PAD>" -> row !! j = Some (Z.of_nat 1).
Proof.
  assert (Hrun : index_texts [["<PAD>"; "A"]; ["B"]]
    = Returns {| max_len := 2; vocab := ["<PAD>"; "<PAD>"; "A"; "B"]; pad_index := 1;
                 train_x_indexed := [[1; 2]; [3; 1]] |})
    by (vm_compute; reflexivity).
  assert (Hin : "<PAD>" ∈ concat [["<PAD>"; "A"]; ["B"]]).
  { apply (bool_decide_unpack _). vm_compute. exact I. }
  split; [exact Hrun|]. split; [exact Hin|].
  exact (pad_token_in_corpus [["<PAD>"; "A"]; ["B"]] _ Hrun Hin).
Defined.

End VocabFacts.

(** * Facts about the vocabulary of frequent tokens *)

Module SentimentFacts.
Import Vocab Sentiment AlignerMore TaggingFacts VocabFacts.

(** *** Counting *)

Lemma frequency_count_up (c : list (string * nat)) (x t : string) :
  frequency (count_up x c) t
  = (frequency c t + (if decide (x = t) then 1 else 0))%nat.
Proof.
  induction c as [|[k n] c IH]; simpl.
  - destruct (decide (x = t)); simpl; lia.
  - destruct (decide (k = x)) as [->|Hkx]; simpl.
    + destruct (decide (x = t)); lia.
    + destruct (decide (k = t)) as [->|Hkt]; [|done].
      rewrite decide_False by done. lia.
Qed.

Lemma keys_count_up (c : list (string * nat)) (x : string) :
  (count_up x c).*1 = if decide (x ∈ c.*1) then c.*1 else c.*1 ++ [x].
Proof.
  induction c as [|[k n] c IH]; [done|]. simpl count_up.
  destruct (decide (k = x)) as [->|Hkx]; csimpl.
  - rewrite decide_True by (by left). done.
  - rewrite IH. destruct (decide (x ∈ c.*1)) as [Hin|Hout].
    + rewrite decide_True by (by right). done.
    + rewrite decide_False; [done|]. intros Hin. apply elem_of_cons in Hin as [->|Hin]; done.
Qed.

Lemma occurrences_snoc (tokens : list string) (x t : string) :
  occurrences (tokens ++ [x]) t
  = (occurrences tokens t + (if decide (x = t) then 1 else 0))%nat.
Proof.
  unfold occurrences. rewrite list.filter_app, length_app. f_equal.
  destruct (decide (x = t)) as [->|Hne].
  - by rewrite filter_cons_True.
  - by rewrite filter_cons_False.
Qed.

Lemma Counter_snoc (tokens : list string) (x : string) :
  Counter (tokens ++ [x]) = count_up x (Counter tokens).
Proof. unfold Counter. by rewrite foldl_app. Qed.

Lemma frequency_Counter (tokens : list string) (t : string) :
  frequency (Counter tokens) t = occurrences tokens t.
Proof.
  induction tokens as [|x tokens IH] using rev_ind; [done|].
  by rewrite Counter_snoc, frequency_count_up, occurrences_snoc, IH.
Qed.

Lemma keys_Counter (tokens : list string) :
  NoDup (Counter tokens).*1 /\ forall t, t ∈ (Counter tokens).*1 <-> t ∈ tokens.
Proof.
  induction tokens as [|x tokens [IHnd IHin]] using rev_ind.
  - split; [constructor|]. done.
  - rewrite Counter_snoc, keys_count_up.
    destruct (decide (x ∈ (Counter tokens).*1)) as [Hin|Hout].
    + split; [done|]. intros t. rewrite IHin, elem_of_app, list_elem_of_singleton.
      split; [by left|]. intros [H| ->]; [done|]. by apply IHin.
    + split.
      * apply list.NoDup_app. split; [done|]. split; [|apply NoDup_singleton].
        intros y Hy Hy'. apply list_elem_of_singleton in Hy' as ->. done.
      * intros t. rewrite !elem_of_app, IHin. done.
Qed.

Lemma occurrences_pos (tokens : list string) (t : string) :
  (0 < occurrences tokens t)%nat <-> t ∈ tokens.
Proof.
  unfold occurrences. split.
  - intros Hpos. destruct (filter (fun x => x = t) tokens) as [|y l] eqn:Hf; [simpl in Hpos; lia|].
    assert (Hy : y ∈ filter (fun x => x = t) tokens) by (rewrite Hf; by left).
    apply list_elem_of_filter in Hy as [-> Hy]. done.
  - intros Hin.
    assert (Ht : t ∈ filter (fun x => x = t) tokens) by (by apply list_elem_of_filter).
    destruct (filter (fun x => x = t) tokens); [by apply elem_of_nil in Ht|simpl; lia].
Qed.

(** *** Sorting by decreasing frequency *)

Lemma insert_desc_Permutation (key : string -> nat) (x : string) (l : list string) :
  insert_desc key x l ≡ₚ x :: l.
Proof.
  induction l as [|y l IH]; simpl; [done|].
  destruct (decide (key x < key y)%nat); [|done].
  rewrite IH. apply Permutation_swap.
Qed.

Lemma sorted_desc_Permutation (key : string -> nat) (l : list string) :
  sorted_desc key l ≡ₚ l.
Proof.
  induction l as [|x l IH]; simpl; [done|].
  by rewrite insert_desc_Permutation, IH.
Qed.

Lemma insert_desc_sorted (key : string -> nat) (x : string) (l : list string) :
  StronglySorted (fun a b => (key b <= key a)%nat) l ->
  StronglySorted (fun a b => (key b <= key a)%nat) (insert_desc key x l).
Proof.
  induction l as [|y l IH]; intros Hs; simpl; [repeat constructor|].
  apply StronglySorted_inv in Hs as [Hs Hy].
  destruct (decide (key x < key y)%nat) as [Hlt|Hge].
  - constructor; [by apply IH|].
    rewrite insert_desc_Permutation. constructor; [lia|done].
  - constructor; [by constructor|].
    constructor; [lia|]. eapply list.Forall_impl; [exact Hy|]. intros z Hz. simpl in Hz. lia.
Qed.

Lemma sorted_desc_sorted (key : string -> nat) (l : list string) :
  StronglySorted (fun a b => (key b <= key a)%nat) (sorted_desc key l).
Proof.
  induction l as [|x l IH]; simpl; [constructor|]. by apply insert_desc_sorted.
Qed.

Lemma StronglySorted_filter {A} (R : A -> A -> Prop) (P : A -> Prop)
    `{forall x, Decision (P x)} (l : list A) :
  StronglySorted R l -> StronglySorted R (filter P l).
Proof.
  induction 1 as [|x l Hs IH Hx]; [constructor|].
  destruct (decide (P x)).
  - rewrite filter_cons_True by done. constructor; [done|].
    apply list.Forall_forall. intros y Hy. apply list_elem_of_filter in Hy as [_ Hy].
    by apply (proj1 (list.Forall_forall _ _) Hx).
  - by rewrite filter_cons_False.
Qed.

(** *** The loop that drops the rare tokens *)

Lemma pop_rare_sorted (c : list (string * nat)) (min_freq : nat) (l : list string) :
  StronglySorted (fun a b => (frequency c b <= frequency c a)%nat) l ->
  pop_rare c min_freq (reverse l)
  = if decide (Exists (fun t => (min_freq <= frequency c t)%nat) l)
    then Ok (filter (fun t => (min_freq <= frequency c t)%nat) l)
    else Raise IndexError.
Proof.
  induction l as [|x l IH] using rev_ind; intros Hs.
  - change (reverse []) with (@nil string). cbn [pop_rare].
    destruct (decide (Exists (fun t => (min_freq <= frequency c t)%nat) [])) as [H%Exists_nil|];
      done.
  - rewrite reverse_snoc. cbn [pop_rare].
    pose proof (StronglySorted_app_1_l _ _ _ Hs) as Hl.
    destruct (decide (frequency c x < min_freq)%nat) as [Hrare|Hfreq].
    + rewrite IH by done. rewrite list.filter_app, filter_cons_False, app_nil_r by (simpl; lia).
      destruct (decide (Exists (fun t => (min_freq <= frequency c t)%nat) l)) as [Hex|Hno].
      * rewrite decide_True; [done|]. apply Exists_app. by left.
      * rewrite decide_False; [done|]. intros Hex. apply Exists_app in Hex as [Hex|Hex]; [done|].
        apply Exists_cons in Hex as [Hex|Hex]; [lia|by apply Exists_nil in Hex].
    + rewrite decide_True.
      2:{ apply Exists_app. right. apply Exists_cons. left. lia. }
      f_equal. rewrite reverse_cons, reverse_involutive.
      symmetry. apply filter_all. intros y Hy.
      apply elem_of_app in Hy as [Hy|Hy].
      * pose proof (StronglySorted_app_1_elem_of _ _ _ y x Hs Hy) as Hyx.
        simpl in Hyx. specialize (Hyx ltac:(by left)). lia.
      * apply list_elem_of_singleton in Hy as ->. lia.
Qed.

Lemma StronglySorted_impl {A} (R R' : A -> A -> Prop) (l : list A) :
  (forall x y, R x y -> R' x y) -> StronglySorted R l -> StronglySorted R' l.
Proof.
  intros HR. induction 1 as [|x l Hs IH Hx]; constructor; [done|].
  eapply list.Forall_impl; [exact Hx|]. intros y. apply HR.
Qed.

Lemma vocabulary_of_eq (min_freq : nat) (train_x_tokens : list (list string)) :
  let c := Counter (concat train_x_tokens) in
  let sorted := sorted_desc (frequency c) c.*1 in
  vocabulary_of min_freq train_x_tokens
  = if decide (Exists (fun t => (min_freq <= frequency c t)%nat) sorted)
    then Ok (filter (fun t => (min_freq <= frequency c t)%nat) sorted)
    else Raise IndexError.
Proof.
  intros c sorted. unfold vocabulary_of. fold c. fold sorted.
  apply pop_rare_sorted, sorted_desc_sorted.
Qed.

Lemma elem_of_sorted_keys (tokens : list string) (t : string) :
  t ∈ sorted_desc (frequency (Counter tokens)) (Counter tokens).*1 <-> t ∈ tokens.
Proof. rewrite sorted_desc_Permutation. apply keys_Counter. Qed.

(** X17: When some token of the training texts occurs [min_freq] times or
    more, the loop ends without an exception and leaves exactly the tokens
    that occur [min_freq] times or more, each once, from the most frequent
    to the least frequent. *)
Theorem frequent_tokens_kept (min_freq : nat) (train_x_tokens : list (list string))
    (token : string) :
  token ∈ concat train_x_tokens ->
  (min_freq <= occurrences (concat train_x_tokens) token)%nat ->
  exists vocabulary,
    vocabulary_of min_freq train_x_tokens = Ok vocabulary
    /\ NoDup vocabulary
    /\ (forall t, t ∈ vocabulary
                  <-> t ∈ concat train_x_tokens
                      /\ (min_freq <= occurrences (concat train_x_tokens) t)%nat)
    /\ StronglySorted (fun a b => (occurrences (concat train_x_tokens) b
                                   <= occurrences (concat train_x_tokens) a)%nat)
         vocabulary.
Proof.
  intros Hin Hfreq. rewrite vocabulary_of_eq. cbv zeta.
  set (tokens := concat train_x_tokens) in *.
  rewrite decide_True.
  2:{ apply Exists_exists. exists token. split; [by apply elem_of_sorted_keys|].
      by rewrite frequency_Counter. }
  eexists. split; [reflexivity|]. split; [|split].
  - apply NoDup_filter. rewrite sorted_desc_Permutation. apply keys_Counter.
  - intros t. rewrite list_elem_of_filter, elem_of_sorted_keys, frequency_Counter. tauto.
  - apply StronglySorted_filter.
    eapply StronglySorted_impl; [|apply sorted_desc_sorted].
    intros x y. simpl. by rewrite !frequency_Counter.
Qed.

(** X18: When no token of the training texts occurs [min_freq] times (an empty
    corpus, or a [min_freq] above every count), the loop pops the whole
    vocabulary and then raises [IndexError] at [vocabulary[-1]]. *)
Theorem no_frequent_token_raises (min_freq : nat) (train_x_tokens : list (list string)) :
  (forall t, t ∈ concat train_x_tokens ->
             (occurrences (concat train_x_tokens) t < min_freq)%nat) ->
  vocabulary_of min_freq train_x_tokens = Raise IndexError.
Proof.
  intros Hrare. rewrite vocabulary_of_eq. cbv zeta.
  rewrite decide_False; [done|]. intros Hex.
  apply Exists_exists in Hex as (t & Ht & Hfreq).
  apply (proj1 (elem_of_sorted_keys _ _)) in Ht. rewrite frequency_Counter in Hfreq.
  specialize (Hrare t Ht). lia.
Qed.

(** *** The whole cell *)

Lemma get_eq (d : gmap string nat) (t : string) (unk : nat) :
  get d t unk = Returns (default unk (d !! t)).
Proof. unfold get. by destruct (d !! t). Qed.

Lemma preprocess_eq (min_freq : nat) (train_x_tokens test_x_tokens : list (list string))
    (vocabulary : list string) :
  train_x_tokens <> [] -> test_x_tokens <> [] ->
  vocabulary_of min_freq train_x_tokens = Ok vocabulary ->
  let v := "<PAD>" :: "<UNK>" :: vocabulary in
  let d := token2index v in
  let m := (max_list (length <$> train_x_tokens) `max` max_list (length <$> test_x_tokens))%nat in
  exists p u,
    d !! "<PAD>" = Some p /\ d !! "<UNK>" = Some u
    /\ preprocess min_freq train_x_tokens test_x_tokens
       = Returns {| max_len := m; vocab := v; pad_index := p; unk_index := u;
                    train_x_indexed :=
                      (fun text => ((fun t => Z.of_nat (default u (d !! t))) <$> text)
                                   ++ replicate (m - length text) (Z.of_nat p))
                        <$> train_x_tokens;
                    test_x_indexed :=
                      (fun text => ((fun t => Z.of_nat (default u (d !! t))) <$> text)
                                   ++ replicate (m - length text) (Z.of_nat p))
                        <$> test_x_tokens |}.
Proof.
  intros Htrain Htest Hvoc v d m. unfold preprocess.
  rewrite (AlignerFacts.py_max_spec (length <$> train_x_tokens)) by (by destruct train_x_tokens).
  rewrite (AlignerFacts.py_max_spec (length <$> test_x_tokens)) by (by destruct test_x_tokens).
  rewrite Hvoc. cbv zeta. fold v. fold d. fold m.
  destruct (token2index_elem v "<PAD>") as (p & Hp); [by left|].
  destruct (token2index_elem v "<UNK>") as (u & Hu); [right; by left|].
  fold d in Hp, Hu. exists p, u. split; [done|]. split; [done|].
  unfold getitem. rewrite Hp, Hu.
  rewrite !(fill_full (fun token => get d token u) (fun t => default u (d !! t))); [done|..].
  - apply list.Forall_forall. intros text Htext.
    assert (length text <= max_list (length <$> test_x_tokens))%nat; [|unfold m; lia].
    by apply max_list_elem_of_le, (list_elem_of_fmap_2 length).
  - intros. apply get_eq.
  - apply list.Forall_forall. intros text Htext.
    assert (length text <= max_list (length <$> train_x_tokens))%nat; [|unfold m; lia].
    by apply max_list_elem_of_le, (list_elem_of_fmap_2 length).
  - intros. apply get_eq.
Qed.

Lemma readable_row (v : list string) (u p m : nat) (text : list string) :
  v !! u = Some "<UNK>" -> v !! p = Some "<PAD>" ->
  Py.map_result (Py.getitem v)
    (((fun t => Z.of_nat (default u (token2index v !! t))) <$> text)
       ++ replicate (m - length text) (Z.of_nat p))
  = Ok (((fun t => if decide (t ∈ v) then t else "<UNK>") <$> text)
          ++ replicate (m - length text) "<PAD>").
Proof.
  intros Hu Hp. apply map_result_Forall2. apply Forall2_app.
  - apply Forall2_fmap, Forall_Forall2_diag, list.Forall_forall. intros t _.
    destruct (decide (t ∈ v)) as [Hin|Hout].
    + destruct (token2index_elem v t Hin) as (n & Hn). rewrite Hn. simpl.
      apply getitem_nat. by apply token2index_lookup in Hn as [Hn _].
    + rewrite token2index_not_elem by done. simpl. by apply getitem_nat.
  - apply Forall2_replicate. by apply getitem_nat.
Qed.

(** X19: With texts on both sides and a vocabulary left by the loop, the cell
    raises nothing.  Every text of the training set and of the test set
    gets a row of [max_len] indexes which reads back, through the
    vocabulary, as the text with every token that is not in the vocabulary
    (a rare token, or one the training texts do not have) replaced by
    ['<UNK>'], followed by ['<PAD>'] up to [max_len]. *)
Theorem tokens_outside_vocabulary_read_unk (min_freq : nat)
    (train_x_tokens test_x_tokens : list (list string)) (vocabulary : list string) :
  train_x_tokens <> [] -> test_x_tokens <> [] ->
  vocabulary_of min_freq train_x_tokens = Ok vocabulary ->
  exists c,
    preprocess min_freq train_x_tokens test_x_tokens = Returns c
    /\ vocab c = "<PAD>" :: "<UNK>" :: vocabulary
    /\ vocab c !! pad_index c = Some "<PAD>"
    /\ vocab c !! unk_index c = Some "<UNK>"
    /\ Forall2 (fun text row =>
                  length row = max_len c
                  /\ Py.map_result (Py.getitem (vocab c)) row
                     = Ok (((fun t => if decide (t ∈ vocab c) then t else "<UNK>") <$> text)
                             ++ replicate (max_len c - length text) "<PAD>"))
         (train_x_tokens ++ test_x_tokens) (train_x_indexed c ++ test_x_indexed c).
Proof.
  intros Htrain Htest Hvoc.
  destruct (preprocess_eq min_freq train_x_tokens test_x_tokens vocabulary Htrain Htest Hvoc)
    as (p & u & Hp & Hu & Hrun). cbv zeta in Hrun.
  eexists. split; [exact Hrun|]. cbn [vocab pad_index unk_index max_len train_x_indexed
                                       test_x_indexed].
  apply token2index_lookup in Hp as [Hp _]. apply token2index_lookup in Hu as [Hu _].
  split; [done|]. split; [done|]. split; [done|].
  rewrite <- fmap_app. apply Forall2_fmap_r, Forall_Forall2_diag, list.Forall_forall.
  intros text Htext. split; [|by apply readable_row].
  rewrite length_app, length_fmap, length_replicate.
  assert (length text <= max_list (length <$> train_x_tokens)
                          `max` max_list (length <$> test_x_tokens))%nat; [|lia].
  apply elem_of_app in Htext as [Htext|Htext].
  - assert (length text <= max_list (length <$> train_x_tokens))%nat; [|lia].
    by apply max_list_elem_of_le, (list_elem_of_fmap_2 length).
  - assert (length text <= max_list (length <$> test_x_tokens))%nat; [|lia].
    by apply max_list_elem_of_le, (list_elem_of_fmap_2 length).
Qed.

(** *** The statements on small corpora *)

Lemma frequent_tokens_kept_witness :
  ("a" ∈ concat [["a"; "b"; "a"]; ["c"; "b"]])
  /\ (2 <= occurrences (concat [["a"; "b"; "a"]; ["c"; "b"]]) "a")%nat
  /\ exists vocabulary,
       vocabulary_of 2 [["a"; "b"; "a"]; ["c"; "b"]] = Ok vocabulary
       /\ NoDup vocabulary
       /\ (forall t, t ∈ vocabulary
                     <-> t ∈ concat [["a"; "b"; "a"]; ["c"; "b"]]
                         /\ (2 <= occurrences (concat [["a"; "b"; "a"]; ["c"; "b"]]) t)%nat)
       /\ StronglySorted
            (fun a b => (occurrences (concat [["a"; "b"; "a"]; ["c"; "b"]]) b
                         <= occurrences (concat [["a"; "b"; "a"]; ["c"; "b"]]) a)%nat)
            vocabulary.
Proof.
  assert (Hin : "a" ∈ concat [["a"; "b"; "a"]; ["c"; "b"]]).
  { apply (bool_decide_unpack _). vm_compute. exact I. }
  assert (Hfreq : (2 <= occurrences (concat [["a"; "b"; "a"]; ["c"; "b"]]) "a")%nat).
  { vm_compute. lia. }
  split; [exact Hin|]. split; [exact Hfreq|].
  exact (frequent_tokens_kept 2 [["a"; "b"; "a"]; ["c"; "b"]] "a" Hin Hfreq).
Defined.

Lemma no_frequent_token_raises_witness :
  (forall t, t ∈ concat [["a"; "b"; "a"]; ["c"; "b"]] ->
             (occurrences (concat [["a"; "b"; "a"]; ["c"; "b"]]) t < 3)%nat)
  /\ vocabulary_of 3 [["a"; "b"; "a"]; ["c"; "b"]] = Raise IndexError.
Proof.
  assert (Hrare : forall t, t ∈ concat [["a"; "b"; "a"]; ["c"; "b"]] ->
             (occurrences (concat [["a"; "b"; "a"]; ["c"; "b"]]) t < 3)%nat).
  { intros t Ht.
    assert (Hall : Forall (fun t => (occurrences (concat [["a"; "b"; "a"]; ["c"; "b"]]) t < 3)%nat)
                     (concat [["a"; "b"; "a"]; ["c"; "b"]])).
    { apply (bool_decide_unpack _). vm_compute. exact I. }
    exact (proj1 (list.Forall_forall _ _) Hall t Ht). }
  split; [exact Hrare|].
  exact (no_frequent_token_raises 3 [["a"; "b"; "a"]; ["c"; "b"]] Hrare).
Defined.

Lemma tokens_outside_vocabulary_read_unk_witness :
  [["a"; "b"; "a"]; ["c"; "b"]] <> []
  /\ [["a"; "z"]] <> []
  /\ vocabulary_of 2 [["a"; "b"; "a"]; ["c"; "b"]] = Ok ["a"; "b"]
  /\ exists c,
       preprocess 2 [["a"; "b"; "a"]; ["c"; "b"]] [["a"; "z"]] = Returns c
       /\ vocab c = "<PAD>" :: "<UNK>" :: ["a"; "b"]
       /\ vocab c !! pad_index c = Some "<PAD>"
       /\ vocab c !! unk_index c = Some "<UNK>"
       /\ Forall2 (fun text row =>
                     length row = max_len c
                     /\ Py.map_result (Py.getitem (vocab c)) row
                        = Ok (((fun t => if decide (t ∈ vocab c) then t else "<UNK>") <$> text)
                                ++ replicate (max_len c - length text) "<PAD>"))
            ([["a"; "b"; "a"]; ["c"; "b"]] ++ [["a"; "z"]])
            (train_x_indexed c ++ test_x_indexed c).
Proof.
  assert (Hvoc : vocabulary_of 2 [["a"; "b"; "a"]; ["c"; "b"]] = Ok ["a"; "b"])
    by (vm_compute; reflexivity).
  split; [discriminate|]. split; [discriminate|]. split; [exact Hvoc|].
  apply (tokens_outside_vocabulary_read_unk 2 [["a"; "b"; "a"]; ["c"; "b"]] [["a"; "z"]]
           ["a"; "b"]); [discriminate|discriminate|exact Hvoc].
Defined.

(** The indexes of the small corpus: ['c'] is rare and ['z'] unseen, both
    get the index of ['<UNK>']. *)
Lemma preprocess_small :
  preprocess 2 [["a"; "b"; "a"]; ["c"; "b"]] [["a"; "z"]]
  = Returns {| max_len := 3; vocab := ["<PAD>"; "<UNK>"; "a"; "b"];
               pad_index := 0; unk_index := 1;
               train_x_indexed := [[2; 3; 2]; [1; 3; 0]];
               test_x_indexed := [[2; 1; 0]] |}.
Proof. vm_compute. reflexivity. Qed.

End SentimentFacts.

(** * Facts about the forward passes *)

Module RnnFacts.
Import Rnn.

Section WithLayers.

Variables V O : Type.
Variable embedding : Z -> V.










End WithLayers.

(** *** The statements on rows of integers *)



End RnnFacts.
